(** * FMSF20 course labs: harvest, skattningar, styrkefkn

    A shallow embedding of the numerical core of the three lab functions
    [lab2/harvest.py], [lab3/skattningar.py] and [lab3/styrkefkn.py],
    in exact real arithmetic.

    Floating point numbers are idealised: a NumPy float is either a real
    number, one of the two infinities, or NaN.  Rounding is not modelled;
    the special values and the rules that produce them (log 0 = -inf,
    -inf - -inf = nan, exp(-inf) = 0, x/0, ...) are.

    A figure is modelled by the data its panels are drawn from; titles,
    axis labels, colours of guide lines and layout calls carry no data
    of their own and are left out. *)

From Stdlib Require Import Reals Lra Lia List String Ascii ZArith Bool Arith.

#[local] Set Warnings "-register-all".
#[local] Open Scope string_scope.
Import ListNotations.
Open Scope R_scope.

(* ================================================================= *)
(** ** NumPy floats with their special values *)

Module Np.

Inductive float : Type :=
| NInf : float
| Fin : R -> float
| PInf : float
| NaN : float.

Definition lt_b (a b : R) : bool := if Rlt_dec a b then true else false.
Definition eq_b (a b : R) : bool := if Req_dec_T a b then true else false.

Definition neg (x : float) : float :=
  match x with
  | NInf => PInf
  | PInf => NInf
  | Fin r => Fin (- r)
  | NaN => NaN
  end.

Definition add (x y : float) : float :=
  match x, y with
  | NaN, _ | _, NaN => NaN
  | Fin a, Fin b => Fin (a + b)
  | PInf, NInf | NInf, PInf => NaN
  | PInf, _ | _, PInf => PInf
  | NInf, _ | _, NInf => NInf
  end.

Definition sub (x y : float) : float := add x (neg y).

(** An infinity scaled by a real: the sign follows the real, and
    [inf * 0] is [nan]. *)
Definition scale_inf (pos : bool) (r : R) : float :=
  if lt_b 0 r then (if pos then PInf else NInf)
  else if lt_b r 0 then (if pos then NInf else PInf)
  else NaN.

Definition mul (x y : float) : float :=
  match x, y with
  | NaN, _ | _, NaN => NaN
  | Fin a, Fin b => Fin (a * b)
  | PInf, Fin r | Fin r, PInf => scale_inf true r
  | NInf, Fin r | Fin r, NInf => scale_inf false r
  | PInf, PInf | NInf, NInf => PInf
  | PInf, NInf | NInf, PInf => NInf
  end.

Definition div (x y : float) : float :=
  match x, y with
  | NaN, _ | _, NaN => NaN
  | Fin a, Fin b =>
      if eq_b b 0
      then (if lt_b 0 a then PInf else if lt_b a 0 then NInf else NaN)
      else Fin (a / b)
  | Fin _, PInf | Fin _, NInf => Fin 0
  | PInf, Fin r => if lt_b r 0 then NInf else PInf
  | NInf, Fin r => if lt_b r 0 then PInf else NInf
  | _, _ => NaN
  end.

(** [np.log]: [log 0 = -inf], the log of a negative number is [nan]. *)
Definition log (x : float) : float :=
  match x with
  | Fin r => if lt_b 0 r then Fin (ln r) else if eq_b r 0 then NInf else NaN
  | PInf => PInf
  | NInf => NaN
  | NaN => NaN
  end.

(** [np.exp]: [exp(-inf) = 0]. *)
Definition exp (x : float) : float :=
  match x with
  | Fin r => Fin (Rtrigo_def.exp r)
  | NInf => Fin 0
  | PInf => PInf
  | NaN => NaN
  end.

(** [a > b]; every comparison with [nan] is false. *)
Definition gt (a b : float) : bool :=
  match a, b with
  | NaN, _ | _, NaN => false
  | Fin x, Fin y => lt_b y x
  | PInf, PInf => false
  | PInf, _ => true
  | _, PInf => false
  | NInf, _ => false
  | Fin _, NInf => true
  end.

(** [np.sign] on a real. *)
Definition sign (r : R) : R :=
  if lt_b 0 r then 1 else if lt_b r 0 then -1 else 0.

(** [np.arange(stop)] for a float [stop]: the integers [0, 1, ...] below
    [stop]; there are [ceil(stop)] of them (none when [stop <= 0]). *)
Definition ceil (r : R) : Z := (- Int_part (- r))%Z.
Definition arange (stop : R) : list nat := seq 0 (Z.to_nat (ceil stop)).

(** [np.arange(stop)] for an integer [stop]. *)
Definition arange_int (stop : nat) : list nat := seq 0 stop.

(** [np.linspace(a, b, num)] *)
Definition linspace (a b : R) (num : nat) : list R :=
  map (fun i => a + INR i * ((b - a) / INR (num - 1))) (seq 0 num).

(** [a.reshape((rows, cols))] of a flat array, row by row. *)
Definition reshape (a : list R) (rows cols : nat) : list (list R) :=
  map (fun i => firstn cols (skipn (i * cols) a)) (seq 0 rows).

End Np.

(* ================================================================= *)
(** ** Python builtins used on arrays *)

Module Py.

(** The builtin [max] over a sequence: keeps the first element and
    replaces it whenever a later one compares greater.  An empty
    sequence raises [ValueError] ([None]). *)
Fixpoint max_from (m : Np.float) (l : list Np.float) : Np.float :=
  match l with
  | [] => m
  | v :: t => max_from (if Np.gt v m then v else m) t
  end.

Definition max (l : list Np.float) : option Np.float :=
  match l with
  | [] => None
  | v :: t => Some (max_from v t)
  end.

(** [max([a, b])] on two reals. *)
Definition max2 (a b : R) : R := if Np.lt_b a b then b else a.

(** The builtin [sum]: a left fold starting from [0]. *)
Definition sum (l : list Np.float) : Np.float :=
  fold_left Np.add l (Np.Fin 0).

End Py.

(** Sum of a list of reals ([ndarray.sum] over one axis). *)
Definition Rsum (l : list R) : R := fold_left Rplus l 0.

(** Element-wise combination of two arrays of the same length. *)
Fixpoint zip_with {A B C : Type} (f : A -> B -> C)
  (l1 : list A) (l2 : list B) : list C :=
  match l1, l2 with
  | a :: t1, b :: t2 => f a b :: zip_with f t1 t2
  | _, _ => []
  end.

(* ================================================================= *)
(** ** The probability mass functions of scipy.stats *)

(** [stats.binom.pmf(k, n, p)] *)
Definition binom_pmf (n : nat) (p : R) (k : nat) : R :=
  if (k <=? n)%nat then C n k * p ^ k * (1 - p) ^ (n - k) else 0.

(** [stats.poisson.pmf(l, lam)]; at [lam = 0] all mass sits on [l = 0]
    ([0 ^ 0 = 1]). *)
Definition poisson_pmf (l : nat) (lam : R) : R :=
  lam ^ l * exp (- lam) / INR (fact l).

(* ================================================================= *)
(** ** lab2/harvest.py *)

Module Harvest.

Definition tot_E (n : nat) (p mu : R) : R := INR n * p * mu.
Definition tot_V (n : nat) (p mu : R) : R := tot_E n p mu * (1 + mu * (1 - p)).

(** [Ymax], extended to [y_cond] when that is given and larger. *)
Definition Ymax (n : nat) (p mu : R) (y_cond : option R) : R :=
  let Ymax0 := tot_E n p mu + 4 * sqrt (tot_V n p mu) in
  match y_cond with
  | None => Ymax0
  | Some y => Py.max2 Ymax0 y
  end.

Definition x (n : nat) : list nat := Np.arange_int (n + 1).
Definition y (n : nat) (p mu : R) (y_cond : option R) : list nat :=
  Np.arange (Ymax n p mu y_cond + 1).

(** The joint table: one row per value [l] of [y], one column per value
    [k] of [x] (the layout of [np.meshgrid(x, y)]). *)
Definition pXY (n : nat) (p mu : R) (y_cond : option R) : list (list R) :=
  map (fun l => map (fun k => binom_pmf n p k * poisson_pmf l (INR k * mu)) (x n))
      (y n p mu y_cond).

(** The marginal: [pXY.sum(axis=1)]. *)
Definition pY (n : nat) (p mu : R) (y_cond : option R) : list R :=
  map Rsum (pXY n p mu y_cond).

(** *** The conditional, line by line *)

(** [np.log(stats.binom.pmf(x,n,p)) - x*mu] *)
Definition cond_step1 (n : nat) (p mu : R) : list Np.float :=
  map (fun k => Np.sub (Np.log (Np.Fin (binom_pmf n p k)))
                       (Np.mul (Np.Fin (INR k)) (Np.Fin mu)))
      (x n).

(** [pX_Y[1:] = pX_Y[1:] + y_cond*np.log(x[1:]*mu)] *)
Definition cond_step2 (n : nat) (mu yc : R) (v : list Np.float) : list Np.float :=
  match v with
  | [] => []
  | h :: t =>
      h :: zip_with Np.add t
             (map (fun k => Np.mul (Np.Fin yc)
                              (Np.log (Np.mul (Np.Fin (INR k)) (Np.Fin mu))))
                  (tl (x n)))
  end.

(** [pX_Y[0] = -np.Inf]; an empty array would raise [IndexError]. *)
Definition cond_step3 (v : list Np.float) : option (list Np.float) :=
  match v with
  | [] => None
  | _ :: t => Some (Np.NInf :: t)
  end.

(** [np.exp(pX_Y - max(pX_Y))] *)
Definition cond_step4 (v : list Np.float) : option (list Np.float) :=
  match Py.max v with
  | None => None
  | Some m => Some (map (fun e => Np.exp (Np.sub e m)) v)
  end.

(** [pX_Y / sum(pX_Y)] *)
Definition cond_step5 (v : list Np.float) : list Np.float :=
  map (fun e => Np.div e (Py.sum v)) v.

Definition pX_Y (n : nat) (p mu yc : R) : option (list Np.float) :=
  match cond_step3 (cond_step2 n mu yc (cond_step1 n p mu)) with
  | None => None
  | Some v3 =>
      match cond_step4 v3 with
      | None => None
      | Some v4 => Some (cond_step5 v4)
      end
  end.


(** *** The returned object *)

(** What the four panels of the figure are drawn from. *)
Record figure : Type := mkFigure {
  ax00_stem : list nat * list nat * list R;
  ax01_pcolormesh : list nat * list nat * list (list R);
  ax10_fill_between : list nat * list R;
  ax11_bar : option (list nat * list Np.float);
  cond_line : option R
}.

(** Python objects a call can hand back. *)
Inductive pyobj : Type :=
| ObjNone : pyobj
| ObjFigure : figure -> pyobj
| ObjMatrix : list (list R) -> pyobj
| ObjVector : list R -> pyobj
| ObjFloats : list Np.float -> pyobj
| ObjTuple : list pyobj -> pyobj.

(** [X_in.flatten()], [Y_in.flatten()] of [np.meshgrid(x, y)]. *)
Definition X_in_flat (xs ys : list nat) : list nat :=
  List.concat (map (fun _ => xs) ys).
Definition Y_in_flat (xs ys : list nat) : list nat :=
  List.concat (map (fun l => map (fun _ => l) xs) ys).

(** [harvest(n, p, mu, y_cond)]; [None] stands for a raised exception. *)
Definition harvest (n : nat) (p mu : R) (y_cond : option R) : option pyobj :=
  let xs := x n in
  let ys := y n p mu y_cond in
  let joint := pXY n p mu y_cond in
  let marg := pY n p mu y_cond in
  let fig0 (bar : option (list nat * list Np.float)) :=
    ObjFigure (mkFigure (X_in_flat xs ys, Y_in_flat xs ys, List.concat joint)
                        (xs, ys, joint) (ys, marg) bar y_cond) in
  match y_cond with
  | None => Some (fig0 None)
  | Some yc =>
      match pX_Y n p mu yc with
      | None => None
      | Some c => Some (fig0 (Some (xs, c)))
      end
  end.

(** Does a returned object hand a numeric array to the caller, on its
    own or inside a tuple? *)
Fixpoint returns_array (o : pyobj) : bool :=
  match o with
  | ObjMatrix _ | ObjVector _ | ObjFloats _ => true
  | ObjTuple l => existsb returns_array l
  | ObjNone | ObjFigure _ => false
  end.

End Harvest.

(* ================================================================= *)
(** ** The parts of scipy.stats the lab 3 functions call *)

(** [stats.norm] through the standard normal: its distribution
    function, its quantile function and its density.  The library is
    not part of the repository; what is used of it is that the quantile
    function inverts the distribution function on (0,1), that the
    distribution function is monotone and that it is 1/2 at 0. *)
Class StdNormal : Type := {
  std_cdf : R -> R;
  std_ppf : R -> R;
  std_pdf : R -> R;
  std_cdf_ppf : forall q, 0 < q < 1 -> std_cdf (std_ppf q) = q;
  std_cdf_mono : forall a b, a <= b -> std_cdf a <= std_cdf b;
  std_cdf_0 : std_cdf 0 = 1 / 2
}.

(** [stats.norm.rvs(mu, sigma, size)]: a generator state goes in, the
    sample and the next state come out.  [stats.chi2.ppf] is only used
    for an axis limit. *)
Class Sampler : Type := {
  rng : Type;
  norm_rvs : rng -> R -> R -> nat -> list R * rng;
  norm_rvs_length : forall g m s size, List.length (fst (norm_rvs g m s size)) = size;
  chi2_ppf : R -> nat -> R
}.

Section ScipyNorm.
Context {N : StdNormal}.

(** [stats.norm.ppf(q, loc, scale)] for [0 < q < 1]. *)
Definition norm_ppf (q loc scale : R) : R := loc + scale * std_ppf q.

(** [stats.norm.cdf(k, loc, scale)]; the infinite arguments give the
    limits 0 and 1. *)
Definition norm_cdf (k : Np.float) (loc scale : R) : R :=
  match k with
  | Np.NInf => 0
  | Np.PInf => 1
  | Np.Fin r => std_cdf ((r - loc) / scale)
  | Np.NaN => 0
  end.

(** [stats.norm.pdf(v, loc, scale)] *)
Definition norm_pdf (v loc scale : R) : R := std_pdf ((v - loc) / scale) / scale.

End ScipyNorm.

(** The outcome of a call that may raise [ValueError]. *)
Inductive result (A : Type) : Type :=
| Ok : A -> result A
| ValueError : string -> result A.
Arguments Ok {A} _.
Arguments ValueError {A} _.

(** [matplotlib.pyplot] keeps every figure it creates; the state is the
    number of figures created so far. *)
Definition pyplot : Type := nat.
Definition plt_subplots (st : pyplot) : pyplot := S st.

(** Mean and (population) variance of a row, as [ndarray.mean] and
    [np.var] with their default arguments compute them. *)
Definition np_mean (l : list R) : R := Rsum l / INR (List.length l).
Definition np_var (l : list R) : R :=
  np_mean (map (fun v => Rabs (v - np_mean l) ^ 2) l).

(** [max] and [min] of a non-empty array of reals. *)
Definition Rlist_max (l : list R) : R :=
  match l with [] => 0 | h :: t => fold_left Rmax t h end.
Definition Rlist_min (l : list R) : R :=
  match l with [] => 0 | h :: t => fold_left Rmin t h end.

(* ================================================================= *)
(** ** lab3/skattningar.py *)

Module Skattningar.

Definition n_sim : nat := 1000.
Definition n_plot : nat := 100.

(** A histogram panel: the estimates, the red reference line, the
    sample size named in the title and the x-axis limits. *)
Record hist_panel : Type := mkHist {
  hist_x : list R;
  hist_n : nat;
  hist_axvline : R;
  hist_xlim : R * R
}.

Inductive colour : Type := red | blue.

(** A confidence-interval panel: the reference line, the limits, the
    sample size of the title, the miss rate of the x-label and the
    plotted intervals with their colours. *)
Record ci_panel : Type := mkCI {
  ci_axvline : R;
  ci_xlim : R * R;
  ci_n : nat;
  ci_miss : R;
  ci_xmin : list R;
  ci_xmax : list R;
  ci_colors : list colour
}.

Inductive figure : Type :=
| FigHist : hist_panel -> hist_panel -> figure
| FigCI : ci_panel -> ci_panel -> figure.

(** [np.sign(CI - mu).prod(axis=1) == 1] for one interval. *)
Definition misses (mu lo hi : R) : bool :=
  Np.eq_b (1 * Np.sign (lo - mu) * Np.sign (hi - mu)) 1.

(** The mean of a boolean array. *)
Definition bool_mean (l : list bool) : R :=
  Rsum (map (fun b : bool => if b then 1 else 0) l) / INR (List.length l).

(** The intervals [mu_est -/+ w] of one sample, as two columns. *)
Definition CI_lo (est : list R) (w : R) : list R := map (fun m => m - w) est.
Definition CI_hi (est : list R) (w : R) : list R := map (fun m => m + w) est.

Definition I_of (mu : R) (lo hi : list R) : list bool :=
  zip_with (misses mu) lo hi.

Definition colour_of (b : bool) : colour := if b then red else blue.

(** [np.abs(CI[0:n_plot,:] - mu).max()] *)
Definition abs_dev_max (mu : R) (lo hi : list R) : R :=
  Rlist_max (List.concat (zip_with (fun a b => [Rabs (a - mu); Rabs (b - mu)])
                            (firstn n_plot lo) (firstn n_plot hi))).

Definition err_msg (alternativ : string) : string :=
  ("The 'alternativ' parameters must be one of " ++
   "'muskatt', 'sigmaskatt' or 'konfint'; not " ++ alternativ)%string.

Section WithLibraries.
Context {N : StdNormal} {G : Sampler}.

(** [skattningar(mu, sigma, n, alternativ)], started with a generator
    state and the figures created so far; it gives back the figure or
    the raised error, and the two states afterwards. *)
Definition skattningar (mu sigma : R) (n : nat * nat) (alternativ : string)
  (g : rng) (plt : pyplot) : result figure * rng * pyplot :=
  let (n0, n1) := n in
  let (xflat, g1) := norm_rvs g mu sigma (n0 * n_sim) in
  let x := Np.reshape xflat n_sim n0 in
  let (yflat, g2) := norm_rvs g1 mu sigma (n1 * n_sim) in
  let y := Np.reshape yflat n_sim n1 in
  if String.eqb alternativ "muskatt" then
    let mu_est0 := map np_mean x in
    let mu_est1 := map np_mean y in
    let width := 3 * sigma / sqrt (INR (Nat.min n0 n1)) in
    let plt' := plt_subplots plt in
    (Ok (FigHist (mkHist mu_est0 n0 mu (mu - width, mu + width))
                 (mkHist mu_est1 n1 mu (mu - width, mu + width))), g2, plt')
  else if String.eqb alternativ "sigmaskatt" then
    let s2_est0 := map np_var x in
    let s2_est1 := map np_var y in
    let width := Py.max2 (chi2_ppf 0.9995 (n0 - 1) / INR (n0 - 1))
                         (chi2_ppf 0.9995 (n1 - 1) / INR (n1 - 1)) in
    let plt' := plt_subplots plt in
    (Ok (FigHist (mkHist s2_est0 n0 (sigma ^ 2) (0, width))
                 (mkHist s2_est1 n1 (sigma ^ 2) (0, width))), g2, plt')
  else if String.eqb alternativ "konfint" then
    let w0 := std_ppf 0.975 * sigma / sqrt (INR n0) in
    let w1 := std_ppf 0.975 * sigma / sqrt (INR n1) in
    let mu_est0 := map np_mean x in
    let mu_est1 := map np_mean y in
    let CI_x := (CI_lo mu_est0 w0, CI_hi mu_est0 w0) in
    let CI_y := (CI_lo mu_est1 w1, CI_hi mu_est1 w1) in
    let I_x := I_of mu (fst CI_x) (snd CI_x) in
    let I_y := I_of mu (fst CI_y) (snd CI_y) in
    let p0 := bool_mean I_x in
    let p1 := bool_mean I_y in
    let width := 1.2 * Rmax (abs_dev_max mu (fst CI_x) (snd CI_x))
                            (abs_dev_max mu (fst CI_y) (snd CI_y)) in
    let plt' := plt_subplots plt in
    (Ok (FigCI (mkCI mu (mu - width, mu + width) n0 p0
                     (firstn n_plot (fst CI_x)) (firstn n_plot (snd CI_x))
                     (firstn n_plot (map colour_of I_x)))
               (mkCI mu (mu - width, mu + width) n1 p1
                     (firstn n_plot (fst CI_y)) (firstn n_plot (snd CI_y))
                     (firstn n_plot (map colour_of I_y)))), g2, plt')
  else
    (ValueError (err_msg alternativ), g2, plt).

End WithLibraries.

End Skattningar.

(* ================================================================= *)
(** ** lab3/styrkefkn.py *)

Module Styrkefkn.

(** The first panel: the curve [(x, h)], the power [f] at [mu_sant] when
    that is given, and where the annotation text starts. *)
Record power_panel : Type := mkPower {
  pw_x : list R;
  pw_h : list R;
  pw_f : option R;
  pw_xlim : R * R;
  pw_x_text : R
}.

(** The second panel: the two densities over [x] and the shaded parts. *)
Record density_panel : Type := mkDensity {
  dn_y : list R;
  dn_y_H1 : list R;
  dn_ylim : R * R;
  dn_keep_H0 : list R;
  dn_reject_low : list R;
  dn_reject_high : list R
}.

Record figure : Type := mkFigure {
  fig_power : power_panel;
  fig_density : option density_panel
}.

Definition err_msg (riktning : string) : string :=
  ("The 'riktning' parameters must be one of " ++
   "'!=', '<' or '>'; not " ++ riktning)%string.

(** [k < v] and [v < k] for a boundary [k] that may be infinite. *)
Definition below (k : Np.float) (v : R) : bool := Np.gt (Np.Fin v) k.
Definition above (k : Np.float) (v : R) : bool := Np.gt k (Np.Fin v).

Section WithLibraries.
Context {N : StdNormal}.

(** The first [match]: the critical boundaries [(k1, k2)] and the two
    ends of the evaluation range, or the error. *)
Definition boundaries (mu0 s alpha : R) (riktning : string)
  : result (Np.float * Np.float * (R * R)) :=
  if String.eqb riktning "<" then
    let k1 := norm_ppf alpha mu0 s in
    Ok (Np.Fin k1, Np.PInf, (k1 - 4 * s, mu0 + 3 * s))
  else if String.eqb riktning ">" then
    let k2 := norm_ppf (1 - alpha) mu0 s in
    Ok (Np.NInf, Np.Fin k2, (mu0 - 3 * s, k2 + 4 * s))
  else if String.eqb riktning "!=" then
    let k1 := norm_ppf (alpha / 2) mu0 s in
    let k2 := norm_ppf (1 - alpha / 2) mu0 s in
    Ok (Np.Fin k1, Np.Fin k2, (k1 - 4 * s, k2 + 4 * s))
  else ValueError (err_msg riktning).

(** The power at a true mean [v]:
    [1 - (stats.norm.cdf(k2, v, s) - stats.norm.cdf(k1, v, s))]. *)
Definition power (k1 k2 : Np.float) (s v : R) : R :=
  1 - (norm_cdf k2 v s - norm_cdf k1 v s).

(** [styrkefkn(mu0, sigma, n, alpha, riktning, mu_sant)] *)
Definition styrkefkn (mu0 sigma : R) (n : nat) (alpha : R) (riktning : string)
  (mu_sant : option R) (plt : pyplot) : result figure * pyplot :=
  let s := sigma / sqrt (INR n) in
  match boundaries mu0 s alpha riktning with
  | ValueError e => (ValueError e, plt)
  | Ok (k1, k2, (a, b)) =>
      let x := Np.linspace a b 1000 in
      let h := map (power k1 k2 s) x in
      let f := option_map (power k1 k2 s) mu_sant in
      let plt' := plt_subplots plt in
      let x_text :=
        if String.eqb riktning "<" then Rlist_max x - 2 * s
        else if String.eqb riktning ">" then Rlist_min x + s
        else mu0 - 0.5 * s in
      let panel := mkPower x h f (Rlist_min x, Rlist_max x) x_text in
      match mu_sant with
      | None => (Ok (mkFigure panel None), plt')
      | Some m =>
          let f_0 := norm_pdf 0 0 s in
          let y := map (fun v => norm_pdf v mu0 s) x in
          let y_H1 := map (fun v => norm_pdf v m s) x in
          let keep := filter (fun v => below k1 v && above k2 v) x in
          let low := filter (above k1) x in
          let high := filter (below k2) x in
          (Ok (mkFigure panel
                 (Some (mkDensity y y_H1 (0, 1.2 * f_0)
                          (map (fun v => norm_pdf v m s) keep)
                          (map (fun v => norm_pdf v mu0 s) low)
                          (map (fun v => norm_pdf v mu0 s) high)))), plt')
      end
  end.

End WithLibraries.

End Styrkefkn.

(* ================================================================= *)
(** ** Notions used to state the properties *)

(** A float that is finite or minus infinity, the values a log-mass
    takes. *)
Definition log_mass (v : Np.float) : Prop :=
  match v with
  | Np.NInf | Np.Fin _ => True
  | Np.PInf | Np.NaN => False
  end.

(** The order on such values. *)
Definition np_le (a b : Np.float) : Prop :=
  match a, b with
  | Np.NInf, _ => True
  | Np.Fin x, Np.Fin y => x <= y
  | _, _ => False
  end.

(** [exp (v - M)] as a real, for a log-mass [v] and a finite [M]. *)
Definition weight (M : R) (v : Np.float) : R :=
  match v with
  | Np.Fin r => exp (r - M)
  | _ => 0
  end.

(** The log-values of the conditional as the specification words them:
    [log P(X=k) + y_cond * log(k*mu) - k*mu] for [k >= 1], minus
    infinity for [k = 0]. *)
Definition log_term (n : nat) (p mu yc : R) (k : nat) : Np.float :=
  Np.sub (Np.add (Np.log (Np.Fin (binom_pmf n p k)))
                 (Np.mul (Np.Fin yc) (Np.log (Np.Fin (INR k * mu)))))
         (Np.Fin (INR k * mu)).

Definition log_values (n : nat) (p mu yc : R) : list Np.float :=
  Np.NInf :: map (log_term n p mu yc) (seq 1 n).

(** The naive conditional of the comment in [harvest]:
    [stats.binom.pmf(x,n,p)*stats.poisson.pmf(y_cond,x*mu)], normalised. *)
Definition naive_unnormalised (n : nat) (p mu : R) (yc : nat) : list Np.float :=
  map (fun k => Np.Fin (binom_pmf n p k * poisson_pmf yc (INR k * mu)))
      (Np.arange_int (n + 1)).

Definition naive_conditional (n : nat) (p mu : R) (yc : nat) : list Np.float :=
  let u := naive_unnormalised n p mu yc in
  map (fun e => Np.div e (Py.sum u)) u.


(** The mass [P(X=k) * P(Y=y | X=k)] and the true conditional
    [P(X=k | Y=y)] over [k = 0..n]. *)
Definition joint_mass (n : nat) (p mu : R) (yc k : nat) : R :=
  binom_pmf n p k * poisson_pmf yc (INR k * mu).

Definition true_conditional (n : nat) (p mu : R) (yc k : nat) : R :=
  joint_mass n p mu yc k / Rsum (map (joint_mass n p mu yc) (seq 0 (n + 1))).


(** Partial sums of the Poisson mass, and of the joint table by
    columns. *)
Definition pois_sum (lam : R) (N : nat) : R :=
  sum_f_R0 (fun l => poisson_pmf l lam) N.

(** The total of the first [N + 1] rows of the joint table. *)
Definition mix_sum (n : nat) (p mu : R) (N : nat) : R :=
  sum_f_R0 (fun k => binom_pmf n p k * pois_sum (INR k * mu) N) n.


(** The unbiased sample variance, which [np.var] would compute with
    [ddof = 1]. *)
Definition unbiased_var (l : list R) : R :=
  Rsum (map (fun v => (v - np_mean l) ^ 2) l) / (INR (List.length l) - 1).

(** The two samples [x] and [y] as [skattningar] draws and reshapes
    them. *)
Definition drawn_samples {G : Sampler} (g : rng) (mu sigma : R) (n0 n1 : nat)
  : list (list R) * list (list R) :=
  let (xflat, g1) := norm_rvs g mu sigma (n0 * Skattningar.n_sim) in
  let (yflat, _) := norm_rvs g1 mu sigma (n1 * Skattningar.n_sim) in
  (Np.reshape xflat Skattningar.n_sim n0, Np.reshape yflat Skattningar.n_sim n1).

(** What the confidence-interval mode owes for one of the two samples:
    the interval of every repetition, its classification, the miss rate
    shown, and the first hundred intervals plotted. *)
Definition ci_panel_ok {N : StdNormal} (mu sigma : R) (nj : nat)
  (sample : list (list R)) (P : Skattningar.ci_panel) : Prop :=
  let w := std_ppf 0.975 * sigma / sqrt (INR nj) in
  let lo := map (fun row => np_mean row - w) sample in
  let hi := map (fun row => np_mean row + w) sample in
  exists I : list bool,
    List.length I = 1000%nat /\
    (forall i, (i < 1000)%nat ->
       (nth i I false = true <->
        (nth i lo 0 < mu /\ nth i hi 0 < mu) \/ (mu < nth i lo 0 /\ mu < nth i hi 0)) /\
       (nth i I false = true <-> ~ (nth i lo 0 <= mu <= nth i hi 0))) /\
    Skattningar.ci_miss P = INR (count_occ bool_dec I true) / 1000 /\
    Skattningar.ci_xmin P = firstn 100 lo /\
    Skattningar.ci_xmax P = firstn 100 hi /\
    Skattningar.ci_colors P = firstn 100 (map Skattningar.colour_of I).

(** A distribution on which the interface of [StdNormal] can be checked
    by hand: the uniform law on [-1, 1]. *)
Definition unif_cdf (z : R) : R :=
  if Rle_dec z (-1) then 0 else if Rle_dec 1 z then 1 else (z + 1) / 2.
Definition unif_ppf (q : R) : R := 2 * q - 1.
Definition unif_pdf (z : R) : R :=
  if Rle_dec z (-1) then 0 else if Rle_dec 1 z then 0 else 1 / 2.

Definition uniform_law : StdNormal.
Proof.
  refine {| std_cdf := unif_cdf; std_ppf := unif_ppf; std_pdf := unif_pdf |}.
  - intros q Hq. unfold unif_cdf, unif_ppf.
    destruct (Rle_dec (2 * q - 1) (-1)); [lra|].
    destruct (Rle_dec 1 (2 * q - 1)); lra.
  - intros a b Hab. unfold unif_cdf.
    destruct (Rle_dec a (-1)), (Rle_dec b (-1)), (Rle_dec 1 a), (Rle_dec 1 b); lra.
  - unfold unif_cdf.
    destruct (Rle_dec 0 (-1)); [lra|]. destruct (Rle_dec 1 0); lra.
Defined.

(** A sampler whose every draw is the mean. *)
Definition constant_sampler : Sampler.
Proof.
  refine {| rng := unit;
            norm_rvs := fun g m _ size => (repeat m size, g);
            chi2_ppf := fun _ _ => 1 |}.
  intros g m s size. simpl. apply repeat_length.
Defined.


(** What the variance mode owes for one of the two samples: one
    estimate per repetition, each the mean squared deviation of its row
    of [nj] observations. *)
Definition var_panel_ok (nj : nat) (sample : list (list R))
  (P : Skattningar.hist_panel) : Prop :=
  Skattningar.hist_x P = map np_var sample /\
  List.length (Skattningar.hist_x P) = 1000%nat /\
  forall i, (i < 1000)%nat ->
    let row := nth i sample [] in
    let m := 1 / INR nj * Rsum row in
    List.length row = nj /\
    nth i (Skattningar.hist_x P) 0
    = 1 / INR nj * Rsum (map (fun v => (v - m) ^ 2) row) /\
    ((2 <= nj)%nat ->
     nth i (Skattningar.hist_x P) 0 = (INR nj - 1) / INR nj * unbiased_var row).


(** The mass the conditional gives [k] before normalisation, for a real
    [y_cond]: nothing at [k = 0], and [P(X=k) * (k*mu)^y_cond * exp(-k*mu)]
    at [k >= 1]. *)
Definition cond_mass (n : nat) (p mu yc : R) (k : nat) : R :=
  match k with
  | O => 0
  | S _ => binom_pmf n p k * Rpower (INR k * mu) yc * exp (- (INR k * mu))
  end.


(** What the mean mode shows for one of the two samples: one sample
    mean per repetition, the reference line at [mu], and the window of
    three standard errors of the smaller sample around [mu]. *)
Definition mean_panel_ok (mu sigma : R) (n0 n1 nj : nat) (sample : list (list R))
  (P : Skattningar.hist_panel) : Prop :=
  List.length (Skattningar.hist_x P) = 1000%nat /\
  (forall i, (i < 1000)%nat ->
     let row := nth i sample [] in
     List.length row = nj /\
     nth i (Skattningar.hist_x P) 0 = Rsum row / INR nj) /\
  Skattningar.hist_axvline P = mu /\
  Skattningar.hist_xlim P
  = (mu - 3 * sigma / sqrt (INR (Nat.min n0 n1)),
     mu + 3 * sigma / sqrt (INR (Nat.min n0 n1))).

(** The generator state [skattningar] leaves behind: that after its two
    draws. *)
Definition rng_after_draws {G : Sampler} (g : rng) (mu sigma : R) (n0 n1 : nat) : rng :=
  snd (norm_rvs (snd (norm_rvs g mu sigma (n0 * Skattningar.n_sim)))
                mu sigma (n1 * Skattningar.n_sim)).


(** What a confidence-interval panel shows: a hundred intervals of one
    common width, each red exactly when it misses [mu], and a miss rate
    that is a proportion. *)
Definition ci_display_ok {N : StdNormal} (mu sigma : R) (nj : nat)
  (P : Skattningar.ci_panel) : Prop :=
  List.length (Skattningar.ci_xmin P) = 100%nat /\
  List.length (Skattningar.ci_xmax P) = 100%nat /\
  List.length (Skattningar.ci_colors P) = 100%nat /\
  0 <= Skattningar.ci_miss P <= 1 /\
  forall i, (i < 100)%nat ->
    let lo := nth i (Skattningar.ci_xmin P) 0 in
    let hi := nth i (Skattningar.ci_xmax P) 0 in
    hi - lo = 2 * (std_ppf 0.975 * sigma / sqrt (INR nj)) /\
    lo < hi /\
    (nth i (Skattningar.ci_colors P) Skattningar.blue = Skattningar.red
     <-> ~ (lo <= mu <= hi)).


(* ================================================================= *)
(** * Properties *)

(** ** Booleans over the reals *)

Lemma lt_b_true (a b : R) : a < b -> Np.lt_b a b = true.
Proof. intros H. unfold Np.lt_b. destruct (Rlt_dec a b); [reflexivity | contradiction]. Qed.

Lemma lt_b_false (a b : R) : ~ a < b -> Np.lt_b a b = false.
Proof. intros H. unfold Np.lt_b. destruct (Rlt_dec a b); [contradiction | reflexivity]. Qed.

Lemma lt_b_iff (a b : R) : Np.lt_b a b = true <-> a < b.
Proof. unfold Np.lt_b. destruct (Rlt_dec a b); split; intros; try discriminate; tauto. Qed.

Lemma eq_b_true (a b : R) : a = b -> Np.eq_b a b = true.
Proof. intros H. unfold Np.eq_b. destruct (Req_dec_T a b); [reflexivity | contradiction]. Qed.

Lemma eq_b_false (a b : R) : a <> b -> Np.eq_b a b = false.
Proof. intros H. unfold Np.eq_b. destruct (Req_dec_T a b); [contradiction | reflexivity]. Qed.

Lemma eq_b_iff (a b : R) : Np.eq_b a b = true <-> a = b.
Proof. unfold Np.eq_b. destruct (Req_dec_T a b); split; intros; try discriminate; tauto. Qed.

(** ** Sums *)

Lemma fold_left_Rplus_acc (l : list R) (a : R) :
  fold_left Rplus l a = a + fold_left Rplus l 0.
Proof.
  revert a. induction l as [|h t IH]; intros a; simpl.
  - lra.
  - rewrite (IH (a + h)), (IH (0 + h)). lra.
Qed.

Lemma Rsum_nil : Rsum [] = 0.
Proof. reflexivity. Qed.

Lemma Rsum_cons (h : R) (t : list R) : Rsum (h :: t) = h + Rsum t.
Proof. unfold Rsum. simpl. rewrite fold_left_Rplus_acc. lra. Qed.

Lemma Rsum_app (l1 l2 : list R) : Rsum (l1 ++ l2)%list = Rsum l1 + Rsum l2.
Proof.
  induction l1 as [|h t IH]; simpl.
  - rewrite Rsum_nil. lra.
  - rewrite !Rsum_cons, IH. lra.
Qed.

Lemma Rsum_nonneg (l : list R) : Forall (fun v => 0 <= v) l -> 0 <= Rsum l.
Proof.
  induction 1 as [|h t Hh _ IH].
  - rewrite Rsum_nil. lra.
  - rewrite Rsum_cons. lra.
Qed.

Lemma Rsum_map_scal {A : Type} (f : A -> R) (c : R) (l : list A) :
  Rsum (map (fun a => f a * c) l) = Rsum (map f l) * c.
Proof.
  induction l as [|h t IH]; simpl.
  - rewrite Rsum_nil. lra.
  - rewrite !Rsum_cons, IH. lra.
Qed.

Lemma Rsum_map_ext {A : Type} (f g : A -> R) (l : list A) :
  (forall a, In a l -> f a = g a) -> Rsum (map f l) = Rsum (map g l).
Proof.
  intros H. f_equal. apply map_ext_in. exact H.
Qed.

Lemma Rsum_map_le {A : Type} (f g : A -> R) (l : list A) :
  (forall a, In a l -> f a <= g a) -> Rsum (map f l) <= Rsum (map g l).
Proof.
  induction l as [|h t IH]; intros H; simpl.
  - rewrite Rsum_nil. lra.
  - rewrite !Rsum_cons.
    assert (f h <= g h) by (apply H; left; reflexivity).
    assert (Rsum (map f t) <= Rsum (map g t)) by (apply IH; intros; apply H; right; assumption).
    lra.
Qed.

Lemma Rsum_map_plus {A : Type} (f g : A -> R) (l : list A) :
  Rsum (map (fun a => f a + g a) l) = Rsum (map f l) + Rsum (map g l).
Proof.
  induction l as [|h t IH]; simpl.
  - rewrite !Rsum_nil. lra.
  - rewrite !Rsum_cons, IH. lra.
Qed.

(** The list sum over [0 .. n] is the library's [sum_f_R0]. *)
Lemma Rsum_seq_sum_f_R0 (f : nat -> R) (n : nat) :
  Rsum (map f (seq 0 (S n))) = sum_f_R0 f n.
Proof.
  induction n as [|n IH].
  - simpl. rewrite Rsum_cons, Rsum_nil. lra.
  - rewrite seq_S, map_app, Rsum_app, IH. simpl.
    rewrite Rsum_cons, Rsum_nil. lra.
Qed.

Lemma py_sum_Fin_acc (l : list R) (a : R) :
  fold_left Np.add (map Np.Fin l) (Np.Fin a) = Np.Fin (a + Rsum l).
Proof.
  revert a. induction l as [|h t IH]; intros a; simpl.
  - rewrite Rsum_nil. f_equal. lra.
  - rewrite IH, Rsum_cons. f_equal. lra.
Qed.

Lemma py_sum_Fin (l : list R) : Py.sum (map Np.Fin l) = Np.Fin (Rsum l).
Proof. unfold Py.sum. rewrite py_sum_Fin_acc. f_equal. lra. Qed.

Lemma zip_with_map {A B C D : Type} (f : B -> C -> D) (g : A -> B) (h : A -> C)
  (l : list A) :
  zip_with f (map g l) (map h l) = map (fun a => f (g a) (h a)) l.
Proof. induction l as [|a t IH]; simpl; [reflexivity | now rewrite IH]. Qed.

(** ** The builtin [max] on log-masses *)

Lemma np_le_refl (a : Np.float) : log_mass a -> np_le a a.
Proof. destruct a; simpl; intros; try tauto; lra. Qed.

Lemma np_le_trans (a b c : Np.float) : np_le a b -> np_le b c -> np_le a c.
Proof. destruct a, b, c; simpl; intros; try tauto; lra. Qed.

Lemma max_step (v m : Np.float) :
  log_mass v -> log_mass m ->
  let m' := if Np.gt v m then v else m in
  log_mass m' /\ np_le v m' /\ np_le m m' /\ (m' = v \/ m' = m).
Proof.
  intros Hv Hm. destruct v as [|a| |], m as [|b| |]; simpl in *; try tauto.
  - repeat split; auto; lra.
  - repeat split; auto; lra.
  - unfold Np.lt_b. destruct (Rlt_dec b a); simpl; repeat split; auto; lra.
Qed.

Lemma max_from_spec (l : list Np.float) (m : Np.float) :
  log_mass m -> Forall log_mass l ->
  log_mass (Py.max_from m l) /\
  In (Py.max_from m l) (m :: l) /\
  Forall (fun v => np_le v (Py.max_from m l)) (m :: l).
Proof.
  intros Hm Hl. revert m Hm.
  induction Hl as [|v t Hv Ht IH]; intros m Hm; simpl.
  - split; [assumption|]. split; [left; reflexivity|].
    constructor; [apply np_le_refl; assumption | constructor].
  - destruct (max_step v m Hv Hm) as (Hm' & Hv' & Hmm' & Hor).
    destruct (IH _ Hm') as (H1 & H2 & H3).
    split; [exact H1|]. split.
    + destruct H2 as [H2|H2].
      * rewrite <- H2. destruct Hor as [-> | ->]; [right; left | left]; reflexivity.
      * right; right; exact H2.
    + inversion H3 as [|? ? Hhd Htl]; subst.
      constructor; [eapply np_le_trans; eassumption|].
      constructor; [eapply np_le_trans; eassumption | assumption].
Qed.

(** On a list of log-masses with a finite entry, [max] returns a finite
    entry that bounds every other one. *)
Lemma py_max_log_masses (l : list Np.float) :
  Forall log_mass l -> (exists r, In (Np.Fin r) l) ->
  exists M, Py.max l = Some (Np.Fin M) /\ In (Np.Fin M) l /\
            Forall (fun v => np_le v (Np.Fin M)) l.
Proof.
  intros Hl [r Hr]. destruct l as [|m t]; [destruct Hr|].
  inversion Hl as [|? ? Hm Ht]; subst.
  destruct (max_from_spec t m Hm Ht) as (H1 & H2 & H3).
  simpl. rewrite Forall_forall in H3. specialize (H3 _ Hr).
  destruct (Py.max_from m t) as [|M| |] eqn:E; simpl in *; try tauto.
  exists M. split; [reflexivity|]. split; [exact H2|].
  rewrite Forall_forall. intros v Hv.
  pose proof (max_from_spec t m Hm Ht) as (_ & _ & H4).
  rewrite E in H4. rewrite Forall_forall in H4. apply H4. exact Hv.
Qed.

(** ** Shifting, exponentiating and normalising log-masses *)

Lemma exp_shift_weight (M : R) (v : Np.float) :
  log_mass v -> Np.exp (Np.sub v (Np.Fin M)) = Np.Fin (weight M v).
Proof.
  destruct v; simpl; intros H; try tauto; reflexivity.
Qed.

Lemma weight_nonneg (M : R) (v : Np.float) : 0 <= weight M v.
Proof. destruct v; simpl; try lra. left. apply exp_pos. Qed.

Lemma Rsum_In_le (l : list R) (a : R) :
  Forall (fun v => 0 <= v) l -> In a l -> a <= Rsum l.
Proof.
  induction 1 as [|h t Hh Ht IH]; intros Hin; [destruct Hin|].
  rewrite Rsum_cons. pose proof (Rsum_nonneg t Ht).
  destruct Hin as [<- | Hin]; [lra|]. specialize (IH Hin). lra.
Qed.

Lemma weights_sum_ge_1 (M : R) (l : list Np.float) :
  In (Np.Fin M) l -> 1 <= Rsum (map (weight M) l).
Proof.
  intros Hin. apply Rsum_In_le.
  - rewrite Forall_forall. intros v Hv. apply in_map_iff in Hv.
    destruct Hv as (e & <- & _). apply weight_nonneg.
  - apply in_map_iff. exists (Np.Fin M). split; [|exact Hin].
    simpl. replace (M - M) with 0 by lra. apply exp_0.
Qed.

Lemma step4_log_masses (l : list Np.float) (M : R) :
  Forall log_mass l -> Py.max l = Some (Np.Fin M) ->
  Harvest.cond_step4 l = Some (map Np.Fin (map (weight M) l)).
Proof.
  intros Hl HM. unfold Harvest.cond_step4. rewrite HM. f_equal.
  rewrite map_map. apply map_ext_in. intros v Hv.
  apply exp_shift_weight. rewrite Forall_forall in Hl. apply Hl, Hv.
Qed.

Lemma step5_finite (ws : list R) :
  Rsum ws <> 0 ->
  Harvest.cond_step5 (map Np.Fin ws) = map Np.Fin (map (fun w => w / Rsum ws) ws).
Proof.
  intros HS. unfold Harvest.cond_step5. rewrite py_sum_Fin, !map_map.
  apply map_ext. intros w. simpl. rewrite eq_b_false by exact HS. reflexivity.
Qed.

Lemma Rsum_normalised (ws : list R) :
  Rsum ws <> 0 -> Rsum (map (fun w => w / Rsum ws) ws) = 1.
Proof.
  intros HS. 
  rewrite (Rsum_map_ext _ (fun w => (fun a => a) w * / Rsum ws))
    by (intros; reflexivity).
  rewrite (Rsum_map_scal (fun a => a) (/ Rsum ws)), map_id. field. exact HS.
Qed.

(** ** The binomial and Poisson masses *)

Lemma C_pos (n k : nat) : 0 < C n k.
Proof.
  unfold C. apply Rdiv_lt_0_compat; [apply INR_fact_lt_0|].
  apply Rmult_lt_0_compat; apply INR_fact_lt_0.
Qed.

Lemma binom_pmf_nonneg (n : nat) (p : R) (k : nat) :
  0 <= p <= 1 -> 0 <= binom_pmf n p k.
Proof.
  intros Hp. unfold binom_pmf. destruct (k <=? n)%nat; [|lra].
  apply Rmult_le_pos; [apply Rmult_le_pos|].
  - left. apply C_pos.
  - apply pow_le. lra.
  - apply pow_le. lra.
Qed.

Lemma binom_pmf_pos (n : nat) (p : R) (k : nat) :
  0 < p < 1 -> (k <= n)%nat -> 0 < binom_pmf n p k.
Proof.
  intros Hp Hk. unfold binom_pmf.
  apply Nat.leb_le in Hk. rewrite Hk.
  apply Rmult_lt_0_compat; [apply Rmult_lt_0_compat|].
  - apply C_pos.
  - apply pow_lt. lra.
  - apply pow_lt. lra.
Qed.

Lemma binom_pmf_top (n : nat) (p : R) : binom_pmf n p n = p ^ n.
Proof.
  unfold binom_pmf. rewrite Nat.leb_refl, Nat.sub_diag.
  unfold C. rewrite Nat.sub_diag. simpl.
  field. apply INR_fact_neq_0.
Qed.

Lemma poisson_pmf_nonneg (l : nat) (lam : R) : 0 <= lam -> 0 <= poisson_pmf l lam.
Proof.
  intros H. unfold poisson_pmf. apply Rmult_le_pos.
  - apply Rmult_le_pos; [apply pow_le; exact H | left; apply exp_pos].
  - left. apply Rinv_0_lt_compat, INR_fact_lt_0.
Qed.

(** ** The log-values computed by [harvest] *)

Lemma x_unfold (n : nat) : Harvest.x n = 0%nat :: seq 1 n.
Proof. unfold Harvest.x, Np.arange_int. rewrite Nat.add_1_r. reflexivity. Qed.

Lemma add_sub_reorder (a b : Np.float) (c : R) :
  Np.add (Np.sub a (Np.Fin c)) b = Np.sub (Np.add a b) (Np.Fin c).
Proof.
  destruct a, b; simpl; try reflexivity. f_equal. lra.
Qed.

(** Lines 70 to 74 of [harvest] leave exactly the log-values of the
    specification in the array, whatever the arguments. *)
Lemma code_log_values (n : nat) (p mu yc : R) :
  Harvest.cond_step3 (Harvest.cond_step2 n mu yc (Harvest.cond_step1 n p mu))
  = Some (log_values n p mu yc).
Proof.
  unfold Harvest.cond_step1, Harvest.cond_step2. rewrite x_unfold.
  cbn [map tl Harvest.cond_step3]. rewrite zip_with_map.
  unfold log_values. do 2 f_equal.
  apply map_ext. intros k. unfold log_term.
  cbn [Np.mul]. apply add_sub_reorder.
Qed.

Lemma log_term_log_mass (n : nat) (p mu yc : R) (k : nat) :
  0 <= p <= 1 -> 0 < mu -> (1 <= k)%nat ->
  log_mass (log_term n p mu yc k).
Proof.
  intros Hp Hmu Hk. unfold log_term.
  assert (Hkm : 0 < INR k * mu).
  { apply Rmult_lt_0_compat; [|exact Hmu]. apply lt_0_INR. lia. }
  cbn [Np.log]. rewrite (lt_b_true 0 (INR k * mu)) by exact Hkm.
  pose proof (binom_pmf_nonneg n p k Hp) as Hb.
  destruct (Rle_lt_or_eq_dec _ _ Hb) as [Hpos | Hz].
  - rewrite (lt_b_true _ _ Hpos). simpl. exact I.
  - rewrite lt_b_false by lra. rewrite eq_b_true by lra. simpl. exact I.
Qed.

Lemma log_term_finite (n : nat) (p mu yc : R) (k : nat) :
  0 < binom_pmf n p k -> 0 < mu -> (1 <= k)%nat ->
  log_term n p mu yc k
  = Np.Fin (ln (binom_pmf n p k) + yc * ln (INR k * mu) - INR k * mu).
Proof.
  intros Hb Hmu Hk. unfold log_term.
  assert (Hkm : 0 < INR k * mu).
  { apply Rmult_lt_0_compat; [|exact Hmu]. apply lt_0_INR. lia. }
  cbn [Np.log]. rewrite (lt_b_true 0 (INR k * mu)) by exact Hkm.
  rewrite (lt_b_true _ _ Hb). simpl. reflexivity.
Qed.

Lemma log_values_log_mass (n : nat) (p mu yc : R) :
  0 <= p <= 1 -> 0 < mu -> Forall log_mass (log_values n p mu yc).
Proof.
  intros Hp Hmu. unfold log_values. constructor; [exact I|].
  rewrite Forall_forall. intros v Hv. apply in_map_iff in Hv.
  destruct Hv as (k & <- & Hk). apply in_seq in Hk.
  apply log_term_log_mass; [assumption | assumption | lia].
Qed.

Lemma log_values_has_finite (n : nat) (p mu yc : R) :
  (1 <= n)%nat -> 0 < p <= 1 -> 0 < mu ->
  exists r, In (Np.Fin r) (log_values n p mu yc).
Proof.
  intros Hn Hp Hmu.
  assert (Hb : 0 < binom_pmf n p n) by (rewrite binom_pmf_top; apply pow_lt; lra).
  eexists. unfold log_values. right. apply in_map_iff. exists n. split.
  - apply log_term_finite; assumption.
  - apply in_seq. lia.
Qed.

(** The whole conditional, for parameters that leave some mass on a
    [k >= 1]: the maximum [M] of the log-values is finite, the array
    becomes [exp (v - M)] divided by the sum [S] of these numbers, the
    result sums to one and starts with zero. *)
Lemma conditional_pipeline (n : nat) (p mu yc : R) :
  (1 <= n)%nat -> 0 < p <= 1 -> 0 < mu ->
  exists M S,
    Py.max (log_values n p mu yc) = Some (Np.Fin M) /\
    In (Np.Fin M) (log_values n p mu yc) /\
    Forall (fun v => np_le v (Np.Fin M)) (log_values n p mu yc) /\
    S = Rsum (map (weight M) (log_values n p mu yc)) /\
    1 <= S /\
    Harvest.pX_Y n p mu yc
    = Some (map (fun v => Np.Fin (weight M v / S)) (log_values n p mu yc)) /\
    Rsum (map (fun v => weight M v / S) (log_values n p mu yc)) = 1.
Proof.
  intros Hn Hp Hmu.
  assert (Hlm : Forall log_mass (log_values n p mu yc))
    by (apply log_values_log_mass; [lra | assumption]).
  destruct (py_max_log_masses _ Hlm (log_values_has_finite n p mu yc Hn Hp Hmu))
    as (M & HM & HinM & Hle).
  pose proof (weights_sum_ge_1 M _ HinM) as HS.
  exists M, (Rsum (map (weight M) (log_values n p mu yc))).
  split; [exact HM|]. split; [exact HinM|]. split; [exact Hle|].
  split; [reflexivity|]. split; [exact HS|]. split.
  - unfold Harvest.pX_Y. rewrite code_log_values.
    rewrite (step4_log_masses _ M Hlm HM).
    rewrite step5_finite by lra. rewrite !map_map. reflexivity.
  - rewrite <- (map_map (weight M) (fun w => w / _)).
    apply Rsum_normalised. lra.
Qed.

(* ================================================================= *)
(** ** The conditional vector of [harvest] *)

(** C1 (as amended: [0 < p <= 1]).  With [y_cond] supplied, the
    conditional vector of [harvest] is the log-values
    [log P(X=k) + y_cond*log(k*mu) - k*mu] ([k >= 1]) and minus infinity
    ([k = 0]), shifted by their maximum [M], exponentiated, and divided
    by the sum [S] of the exponentials; it sums to one and its first
    element is exactly zero. *)
Theorem harvest_conditional_normalised (n : nat) (p mu yc : R) :
  (1 <= n)%nat -> 0 < p <= 1 -> 0 < mu -> 0 < yc ->
  exists (M S : R) (v : list Np.float),
    Py.max (log_values n p mu yc) = Some (Np.Fin M) /\
    Forall (fun e => np_le e (Np.Fin M)) (log_values n p mu yc) /\
    Py.sum (map (fun e => Np.exp (Np.sub e (Np.Fin M))) (log_values n p mu yc))
    = Np.Fin S /\
    Harvest.pX_Y n p mu yc = Some v /\
    v = map (fun e => Np.div (Np.exp (Np.sub e (Np.Fin M))) (Np.Fin S))
            (log_values n p mu yc) /\
    Py.sum v = Np.Fin 1 /\
    nth 0 v Np.NaN = Np.Fin 0.
Proof.
  intros Hn Hp Hmu Hyc.
  destruct (conditional_pipeline n p mu yc Hn Hp Hmu)
    as (M & S & HM & _ & Hle & HS & HS1 & Hv & Hsum).
  pose proof (log_values_log_mass n p mu yc (conj (Rlt_le _ _ (proj1 Hp)) (proj2 Hp)) Hmu)
    as Hlm.
  assert (Hexp : map (fun e => Np.exp (Np.sub e (Np.Fin M))) (log_values n p mu yc)
                 = map Np.Fin (map (weight M) (log_values n p mu yc))).
  { rewrite map_map. apply map_ext_in. intros e He.
    apply exp_shift_weight. rewrite Forall_forall in Hlm. apply Hlm, He. }
  exists M, S, (map (fun v => Np.Fin (weight M v / S)) (log_values n p mu yc)).
  split; [exact HM|]. split; [exact Hle|]. split.
  { rewrite Hexp, py_sum_Fin, HS. reflexivity. }
  split; [exact Hv|]. split.
  { apply map_ext_in. intros e He.
    rewrite exp_shift_weight by (rewrite Forall_forall in Hlm; apply Hlm, He).
    simpl. rewrite eq_b_false by lra. reflexivity. }
  split.
  { rewrite <- (map_map (fun v => weight M v / S) Np.Fin), py_sum_Fin, Hsum.
    reflexivity. }
  unfold log_values. simpl. f_equal. field. lra.
Qed.

Lemma harvest_conditional_normalised_witness :
  exists (M S : R) (v : list Np.float),
    Py.max (log_values 2 (1/2) 1 3) = Some (Np.Fin M) /\
    Forall (fun e => np_le e (Np.Fin M)) (log_values 2 (1/2) 1 3) /\
    Py.sum (map (fun e => Np.exp (Np.sub e (Np.Fin M))) (log_values 2 (1/2) 1 3))
    = Np.Fin S /\
    Harvest.pX_Y 2 (1/2) 1 3 = Some v /\
    v = map (fun e => Np.div (Np.exp (Np.sub e (Np.Fin M))) (Np.Fin S))
            (log_values 2 (1/2) 1 3) /\
    Py.sum v = Np.Fin 1 /\
    nth 0 v Np.NaN = Np.Fin 0.
Proof.
  apply (harvest_conditional_normalised 2 (1/2) 1 3); [lia | lra | lra | lra].
Defined.

(** At [p = 0] no [k >= 1] carries mass: every log-value is minus
    infinity, their maximum too, and the shift [-inf - -inf] turns the
    whole array into NaN. *)
Lemma log_values_p0 (yc : R) :
  0 <= yc -> log_values 1 0 1 yc = [Np.NInf; Np.NInf].
Proof.
  intros Hyc. unfold log_values. simpl. do 2 f_equal. unfold log_term.
  assert (Hb : binom_pmf 1 0 1 = 0).
  { unfold binom_pmf. simpl. lra. }
  rewrite Hb. cbn [Np.log].
  rewrite (lt_b_false 0 0) by lra. rewrite (eq_b_true 0 0) by reflexivity.
  rewrite (lt_b_true 0 (INR 1 * 1)) by (simpl; lra).
  reflexivity.
Qed.

Lemma pX_Y_p0 (yc : R) :
  0 <= yc -> Harvest.pX_Y 1 0 1 yc = Some [Np.NaN; Np.NaN].
Proof.
  intros Hyc. unfold Harvest.pX_Y.
  rewrite code_log_values, (log_values_p0 yc Hyc). reflexivity.
Qed.

(** C1 as stated fails at the valid arguments [n = 1], [p = 0],
    [mu = 1], [y_cond = 1]: the conditional vector is [[nan, nan]], so
    its first element is not zero and it does not sum to one. *)
Lemma harvest_conditional_p0_counterexample :
  (1 <= 1)%nat /\ 0 <= 0 <= 1 /\ 0 < 1 /\
  Harvest.pX_Y 1 0 1 1 = Some [Np.NaN; Np.NaN] /\
  ~ (exists v, Harvest.pX_Y 1 0 1 1 = Some v /\
               Py.sum v = Np.Fin 1 /\ nth 0 v Np.NaN = Np.Fin 0).
Proof.
  assert (H : Harvest.pX_Y 1 0 1 1 = Some [Np.NaN; Np.NaN]) by (apply pX_Y_p0; lra).
  split; [lia|]. split; [lra|]. split; [lra|]. split; [exact H|].
  intros (v & Hv & _ & H0). rewrite H in Hv. inversion Hv; subst.
  simpl in H0. discriminate.
Qed.

(** ** Log space against direct space *)

Lemma exp_mul_ln_pow (a : R) (m : nat) : 0 < a -> exp (INR m * ln a) = a ^ m.
Proof.
  intros Ha. rewrite <- ln_pow by exact Ha. apply exp_ln, pow_lt, Ha.
Qed.

(** Each exponentiated log-value is the direct-space mass times the one
    constant [y_cond! * exp (-M)]. *)
Lemma weight_log_term (n : nat) (p mu M : R) (yc k : nat) :
  0 < p < 1 -> 0 < mu -> (1 <= k <= n)%nat ->
  weight M (log_term n p mu (INR yc) k)
  = joint_mass n p mu yc k * (INR (fact yc) * exp (- M)).
Proof.
  intros Hp Hmu Hk.
  assert (Hb : 0 < binom_pmf n p k) by (apply binom_pmf_pos; [assumption | lia]).
  assert (Hkm : 0 < INR k * mu).
  { apply Rmult_lt_0_compat; [|exact Hmu]. apply lt_0_INR. lia. }
  rewrite log_term_finite by (try assumption; lia).
  unfold weight, joint_mass, poisson_pmf.
  replace (ln (binom_pmf n p k) + INR yc * ln (INR k * mu) - INR k * mu - M)
    with (ln (binom_pmf n p k) + (INR yc * ln (INR k * mu) + (- (INR k * mu) + - M)))
    by lra.
  rewrite !exp_plus, exp_ln by exact Hb.
  rewrite exp_mul_ln_pow by exact Hkm.
  field. apply INR_fact_neq_0.
Qed.

Lemma joint_mass_0 (n : nat) (p mu : R) (yc : nat) :
  (0 < yc)%nat -> joint_mass n p mu yc 0 = 0.
Proof.
  intros Hy. unfold joint_mass, poisson_pmf. simpl INR. rewrite Rmult_0_l.
  rewrite pow_i by exact Hy. unfold Rdiv. rewrite !Rmult_0_l. apply Rmult_0_r.
Qed.

Lemma joint_mass_nonneg (n : nat) (p mu : R) (yc k : nat) :
  0 <= p <= 1 -> 0 <= mu -> 0 <= joint_mass n p mu yc k.
Proof.
  intros Hp Hmu. unfold joint_mass. apply Rmult_le_pos.
  - apply binom_pmf_nonneg, Hp.
  - apply poisson_pmf_nonneg. apply Rmult_le_pos; [apply pos_INR | exact Hmu].
Qed.

Lemma weights_are_scaled_masses (n : nat) (p mu M : R) (yc : nat) :
  0 < p < 1 -> 0 < mu -> (0 < yc)%nat ->
  map (weight M) (log_values n p mu (INR yc))
  = map (fun k => joint_mass n p mu yc k * (INR (fact yc) * exp (- M)))
        (seq 0 (n + 1)).
Proof.
  intros Hp Hmu Hy. rewrite Nat.add_1_r. unfold log_values. cbn [seq map].
  f_equal.
  - simpl. rewrite joint_mass_0 by exact Hy. lra.
  - rewrite map_map. apply map_ext_in. intros k Hk. apply in_seq in Hk.
    apply weight_log_term; [assumption | assumption | lia].
Qed.

(** The log-space conditional is the normalised direct-space product,
    for every proper [p], every [mu > 0] and every positive count
    [y_cond]; [n <= 20] and [mu <= 5] are not needed for it. *)
Lemma log_space_is_direct_space (n : nat) (p mu : R) (yc : nat) :
  (1 <= n)%nat -> 0 < p < 1 -> 0 < mu -> (0 < yc)%nat ->
  Harvest.pX_Y n p mu (INR yc) = Some (naive_conditional n p mu yc).
Proof.
  intros Hn Hp Hmu Hy.
  destruct (conditional_pipeline n p mu (INR yc) Hn) as
    (M & S & _ & _ & _ & HS & HS1 & Hv & _); [lra | assumption |].
  rewrite Hv. f_equal.
  set (c := INR (fact yc) * exp (- M)).
  assert (Hc : 0 < c).
  { apply Rmult_lt_0_compat; [apply INR_fact_lt_0 | apply exp_pos]. }
  pose proof (weights_are_scaled_masses n p mu M yc Hp Hmu Hy) as Hw.
  fold c in Hw.
  set (U := Rsum (map (joint_mass n p mu yc) (seq 0 (n + 1)))).
  assert (HSU : S = U * c).
  { rewrite HS, Hw. apply Rsum_map_scal. }
  assert (HU : U <> 0).
  { intros E. rewrite E in HSU. lra. }
  unfold naive_conditional, naive_unnormalised, Np.arange_int.
  rewrite <- (map_map (joint_mass n p mu yc) Np.Fin) at 1.
  fold (joint_mass n p mu yc).
  change (map (fun k => Np.Fin (binom_pmf n p k * poisson_pmf yc (INR k * mu))))
    with (map (fun k => Np.Fin (joint_mass n p mu yc k))).
  rewrite <- (map_map (joint_mass n p mu yc) Np.Fin).
  rewrite py_sum_Fin. fold U. rewrite !map_map.
  rewrite <- (map_map (weight M) (fun w => Np.Fin (w / S))), Hw, map_map.
  apply map_ext. intros k. simpl. rewrite eq_b_false by exact HU.
  f_equal. rewrite HSU. field. split; lra.
Qed.

(** C2.  For [n <= 20], [mu <= 5], [0 < p < 1], [mu > 0] and a positive
    observed count [y_cond], the log-space conditional of [harvest] is,
    in exact arithmetic, the naive product
    [binom.pmf(k; n, p) * poisson.pmf(y_cond; k*mu)] normalised to sum
    to one. *)
Theorem harvest_log_space_agrees_with_naive (n : nat) (p mu : R) (yc : nat) :
  (1 <= n <= 20)%nat -> 0 < p < 1 -> 0 < mu <= 5 -> (0 < yc)%nat ->
  Harvest.pX_Y n p mu (INR yc) = Some (naive_conditional n p mu yc).
Proof.
  intros Hn Hp Hmu Hy. apply log_space_is_direct_space; [lia | lra | lra | lia].
Qed.

Lemma harvest_log_space_agrees_with_naive_witness :
  Harvest.pX_Y 3 (1/4) 2 (INR 2) = Some (naive_conditional 3 (1/4) 2 2).
Proof.
  apply (harvest_log_space_agrees_with_naive 3 (1/4) 2 2); [lia | lra | lra | lia].
Defined.

(** ** Conditioning on a zero harvest *)

Lemma joint_mass_k0_y0 (n : nat) (p mu : R) :
  joint_mass n p mu 0 0 = (1 - p) ^ n.
Proof.
  unfold joint_mass, poisson_pmf, binom_pmf. simpl Nat.leb. cbv iota.
  rewrite Nat.sub_0_r. unfold C. rewrite Nat.sub_0_r. simpl.
  rewrite Rmult_0_l, Ropp_0, exp_0. field. apply INR_fact_neq_0.
Qed.

Lemma true_conditional_0_pos (n : nat) (p mu : R) :
  0 <= p < 1 -> 0 <= mu -> 0 < true_conditional n p mu 0 0.
Proof.
  intros Hp Hmu. unfold true_conditional.
  assert (H0 : 0 < joint_mass n p mu 0 0).
  { rewrite joint_mass_k0_y0. apply pow_lt. lra. }
  apply Rdiv_lt_0_compat; [exact H0|].
  rewrite Nat.add_1_r. cbn [seq map]. rewrite Rsum_cons.
  assert (0 <= Rsum (map (joint_mass n p mu 0) (seq 1 n))).
  { apply Rsum_nonneg. rewrite Forall_forall. intros v Hv.
    apply in_map_iff in Hv. destruct Hv as (k & <- & _).
    apply joint_mass_nonneg; lra. }
  lra.
Qed.

(** C9 (as amended: [0 < p <= 1] for what the code returns, [p < 1]
    for the true conditional).  Called with [y_cond = 0], [harvest]
    still returns a conditional vector whose first element is exactly
    zero and whose mass, one in total, lies on [k >= 1]; the true
    conditional probability [P(X=0 | Y=0)] is strictly positive when
    [p < 1]. *)
Theorem harvest_conditional_y0 (n : nat) (p mu : R) :
  (1 <= n)%nat -> 0 < p <= 1 -> 0 < mu ->
  exists v : list Np.float,
    Harvest.pX_Y n p mu 0 = Some v /\
    List.length v = (n + 1)%nat /\
    nth 0 v Np.NaN = Np.Fin 0 /\
    Py.sum v = Np.Fin 1 /\
    Py.sum (tl v) = Np.Fin 1 /\
    (p < 1 -> 0 < true_conditional n p mu 0 0).
Proof.
  intros Hn Hp Hmu.
  destruct (conditional_pipeline n p mu 0 Hn Hp Hmu)
    as (M & S & _ & _ & _ & HS & HS1 & Hv & Hsum).
  exists (map (fun v => Np.Fin (weight M v / S)) (log_values n p mu 0)).
  split; [exact Hv|]. split.
  { rewrite length_map. unfold log_values. simpl. rewrite length_map, length_seq. lia. }
  split.
  { unfold log_values. simpl. f_equal. field. lra. }
  split.
  { rewrite <- (map_map (fun v => weight M v / S) Np.Fin), py_sum_Fin, Hsum.
    reflexivity. }
  split.
  { unfold log_values in *. cbn [map tl] in *.
    rewrite Rsum_cons in Hsum. simpl weight in Hsum.
    rewrite <- (map_map (fun v => weight M v / S) Np.Fin), py_sum_Fin.
    f_equal. replace (0 / S) with 0 in Hsum by (field; lra). lra. }
  intros Hp1. apply true_conditional_0_pos; lra.
Qed.

Lemma harvest_conditional_y0_witness :
  exists v : list Np.float,
    Harvest.pX_Y 2 (1/2) 1 0 = Some v /\
    List.length v = (2 + 1)%nat /\
    nth 0 v Np.NaN = Np.Fin 0 /\
    Py.sum v = Np.Fin 1 /\
    Py.sum (tl v) = Np.Fin 1 /\
    (1/2 < 1 -> 0 < true_conditional 2 (1/2) 1 0 0).
Proof.
  apply (harvest_conditional_y0 2 (1/2) 1); [lia | lra | lra].
Defined.

(** C9 as stated fails at [n = 1], [p = 0], [mu = 1], [y_cond = 0]: the
    true conditional [P(X=0 | Y=0)] is one there, and the returned
    vector is [[nan, nan]], whose first element is not zero. *)
Lemma harvest_conditional_y0_p0_counterexample :
  true_conditional 1 0 1 0 0 = 1 /\
  Harvest.pX_Y 1 0 1 0 = Some [Np.NaN; Np.NaN] /\
  ~ (exists v, Harvest.pX_Y 1 0 1 0 = Some v /\ nth 0 v Np.NaN = Np.Fin 0).
Proof.
  assert (H : Harvest.pX_Y 1 0 1 0 = Some [Np.NaN; Np.NaN]) by (apply pX_Y_p0; lra).
  split; [|split; [exact H|]].
  - unfold true_conditional. simpl. rewrite !Rsum_cons, Rsum_nil.
    unfold joint_mass, binom_pmf, poisson_pmf, C. simpl.
    rewrite !Rmult_0_l, Ropp_0, exp_0. field.
  - intros (v & Hv & H0). rewrite H in Hv. inversion Hv; subst.
    simpl in H0. discriminate.
Qed.

(* ================================================================= *)
(** ** Partial sums of the Poisson mass and of its first two moments *)

Lemma poisson_pmf_succ (l : nat) (lam : R) :
  INR (S l) * poisson_pmf (S l) lam = lam * poisson_pmf l lam.
Proof.
  unfold poisson_pmf. rewrite fact_simpl, mult_INR. simpl pow.
  field. split; [apply INR_fact_neq_0 | apply not_0_INR; lia].
Qed.

Lemma pois_sum_cv (lam : R) : Un_cv (pois_sum lam) 1.
Proof.
  assert (H : Un_cv (fun N => exp (- lam) *
                       sum_f_R0 (fun i => / INR (fact i) * lam ^ i) N)
                    (exp (- lam) * exp lam)).
  { apply CV_mult.
    - intros eps Heps. exists 0%nat. intros. unfold Rdist.
      replace (exp (- lam) - exp (- lam)) with 0 by lra. rewrite Rabs_R0. exact Heps.
    - exact (proj2_sig (exist_exp lam)). }
  replace (exp (- lam) * exp lam) with 1 in H
    by (rewrite <- exp_plus; replace (- lam + lam) with 0 by lra; symmetry; apply exp_0).
  intros eps Heps. destruct (H eps Heps) as [N0 HN0]. exists N0. intros n Hn.
  specialize (HN0 n Hn). unfold pois_sum.
  replace (sum_f_R0 (fun l => poisson_pmf l lam) n)
    with (exp (- lam) * sum_f_R0 (fun i => / INR (fact i) * lam ^ i) n); [exact HN0|].
  rewrite scal_sum. apply sum_eq. intros i _. unfold poisson_pmf. 
  field. apply INR_fact_neq_0.
Qed.

Lemma pois_sum_le_1 (lam : R) (N : nat) : 0 <= lam -> pois_sum lam N <= 1.
Proof.
  intros Hlam. apply growing_ineq; [|apply pois_sum_cv].
  intros n. unfold pois_sum. rewrite tech5.
  pose proof (poisson_pmf_nonneg (S n) lam Hlam). lra.
Qed.

(** First moment: [sum_{l <= N+1} l q_l = lam * sum_{l <= N} q_l]. *)
Lemma pois_moment_shift (g : nat -> R) (lam : R) (N : nat) :
  sum_f_R0 (fun l => INR l * g l * poisson_pmf l lam) (S N)
  = lam * sum_f_R0 (fun l => g (S l) * poisson_pmf l lam) N.
Proof.
  rewrite decomp_sum by lia. simpl pred. simpl INR at 1.
  rewrite !Rmult_0_l, Rplus_0_l, scal_sum.
  apply sum_eq. intros i _.
  transitivity (g (S i) * (INR (S i) * poisson_pmf (S i) lam)); [ring|].
  rewrite poisson_pmf_succ. ring.
Qed.

Lemma pois_first_moment (lam : R) (N : nat) :
  sum_f_R0 (fun l => INR l * poisson_pmf l lam) (S N) = lam * pois_sum lam N.
Proof.
  rewrite <- (sum_eq (fun l => INR l * 1 * poisson_pmf l lam)) by (intros; ring).
  rewrite (pois_moment_shift (fun _ => 1)). unfold pois_sum. f_equal.
  apply sum_eq. intros; ring.
Qed.

Lemma pois_second_moment (lam : R) (N : nat) :
  sum_f_R0 (fun l => INR l * (INR l - 1) * poisson_pmf l lam) (S (S N))
  = lam * lam * pois_sum lam N.
Proof.
  rewrite (pois_moment_shift (fun l => INR l - 1)).
  rewrite <- (sum_eq (fun l => INR l * poisson_pmf l lam)).
  - rewrite pois_first_moment. ring.
  - intros i _. rewrite S_INR. ring.
Qed.

(** The partial second moment about [E]. *)
Lemma pois_central_moment (lam E : R) (N : nat) :
  sum_f_R0 (fun l => (INR l - E) ^ 2 * poisson_pmf l lam) (S (S N))
  = lam * lam * pois_sum lam N + (1 - 2 * E) * (lam * pois_sum lam (S N))
    + E * E * pois_sum lam (S (S N)).
Proof.
  rewrite <- pois_second_moment, <- pois_first_moment. unfold pois_sum.
  rewrite !scal_sum, <- !plus_sum. apply sum_eq. intros i _. ring.
Qed.

(** Chebyshev, on partial sums: beyond [L] every squared deviation is at
    least [c]. *)
Lemma pois_tail_chebyshev (lam E c : R) (L N : nat) :
  0 <= lam -> 
  (forall l, (L < l)%nat -> c <= (INR l - E) ^ 2) ->
  (L <= N)%nat ->
  c * (pois_sum lam N - pois_sum lam L)
  <= sum_f_R0 (fun l => (INR l - E) ^ 2 * poisson_pmf l lam) N.
Proof.
  intros Hlam Hc HLN. induction HLN as [|N HLN IH].
  - replace (pois_sum lam L - pois_sum lam L) with 0 by lra. rewrite Rmult_0_r.
    apply cond_pos_sum. intros l. apply Rmult_le_pos; [apply pow2_ge_0|].
    apply poisson_pmf_nonneg, Hlam.
  - unfold pois_sum in *. rewrite !tech5.
    pose proof (poisson_pmf_nonneg (S N) lam Hlam) as Hq.
    assert (Hc' : c <= (INR (S N) - E) ^ 2) by (apply Hc; lia).
    assert (c * poisson_pmf (S N) lam <= (INR (S N) - E) ^ 2 * poisson_pmf (S N) lam)
      by (apply Rmult_le_compat_r; assumption).
    lra.
Qed.

(** ** The binomial mass and its first two moments *)

Lemma binom_pmf_sum (n : nat) (p : R) : sum_f_R0 (binom_pmf n p) n = 1.
Proof.
  transitivity ((p + (1 - p)) ^ n).
  - rewrite binomial. apply sum_eq. intros i Hi. unfold binom_pmf.
    apply Nat.leb_le in Hi. rewrite Hi. reflexivity.
  - replace (p + (1 - p)) with 1 by lra. apply pow1.
Qed.

Lemma binom_pmf_succ (m : nat) (p : R) (j : nat) :
  (j <= m)%nat ->
  INR (S j) * binom_pmf (S m) p (S j) = INR (S m) * p * binom_pmf m p j.
Proof.
  intros Hj. unfold binom_pmf.
  assert (H1 : (S j <=? S m)%nat = true) by (apply Nat.leb_le; lia).
  assert (H2 : (j <=? m)%nat = true) by (apply Nat.leb_le; lia).
  rewrite H1, H2. unfold C. rewrite Nat.sub_succ.
  rewrite (fact_simpl m), (fact_simpl j), !mult_INR. simpl pow.
  field. repeat split; try apply INR_fact_neq_0; apply not_0_INR; lia.
Qed.

Lemma binom_moment_shift (g : nat -> R) (m : nat) (p : R) :
  sum_f_R0 (fun k => INR k * g k * binom_pmf (S m) p k) (S m)
  = INR (S m) * p * sum_f_R0 (fun j => g (S j) * binom_pmf m p j) m.
Proof.
  rewrite decomp_sum by lia. simpl pred. simpl INR at 1.
  rewrite !Rmult_0_l, Rplus_0_l, scal_sum.
  apply sum_eq. intros i Hi.
  transitivity (g (S i) * (INR (S i) * binom_pmf (S m) p (S i))); [ring|].
  rewrite binom_pmf_succ by exact Hi. ring.
Qed.

Lemma binom_first_moment (n : nat) (p : R) :
  sum_f_R0 (fun k => INR k * binom_pmf n p k) n = INR n * p.
Proof.
  destruct n as [|m].
  - simpl. ring.
  - rewrite <- (sum_eq (fun k => INR k * 1 * binom_pmf (S m) p k)) by (intros; ring).
    rewrite (binom_moment_shift (fun _ => 1)).
    rewrite <- (sum_eq (binom_pmf m p)) by (intros; ring).
    rewrite binom_pmf_sum. ring.
Qed.

Lemma binom_second_moment (n : nat) (p : R) :
  sum_f_R0 (fun k => INR k * (INR k - 1) * binom_pmf n p k) n
  = INR n * (INR n - 1) * p * p.
Proof.
  destruct n as [|m].
  - simpl. ring.
  - rewrite (binom_moment_shift (fun k => INR k - 1)).
    rewrite <- (sum_eq (fun k => INR k * binom_pmf m p k)).
    + rewrite binom_first_moment, S_INR. ring.
    + intros i _. rewrite S_INR. ring.
Qed.

(** ** Limits of sequences *)

Lemma cv_const (a : R) : Un_cv (fun _ => a) a.
Proof.
  intros eps Heps. exists 0%nat. intros n _. unfold Rdist.
  replace (a - a) with 0 by lra. rewrite Rabs_R0. exact Heps.
Qed.

Lemma cv_scal (a : R) (u : nat -> R) (l : R) :
  Un_cv u l -> Un_cv (fun n => a * u n) (a * l).
Proof. intros H. apply (CV_mult (fun _ => a) u a l (cv_const a) H). Qed.

Lemma cv_succ (u : nat -> R) (l : R) : Un_cv u l -> Un_cv (fun n => u (S n)) l.
Proof.
  intros H eps Heps. destruct (H eps Heps) as [N HN]. exists N.
  intros n Hn. apply HN. unfold ge in *. lia.
Qed.

Lemma cv_sum_f_R0 (f : nat -> nat -> R) (g : nat -> R) (n : nat) :
  (forall k, (k <= n)%nat -> Un_cv (f k) (g k)) ->
  Un_cv (fun N => sum_f_R0 (fun k => f k N) n) (sum_f_R0 g n).
Proof.
  induction n as [|n IH]; intros H.
  - simpl. apply H. lia.
  - simpl. apply CV_plus.
    + apply IH. intros k Hk. apply H. lia.
    + apply H. lia.
Qed.

Lemma cv_eventually_nonneg (u : nat -> R) (l : R) (N0 : nat) :
  (forall n, (N0 <= n)%nat -> 0 <= u n) -> Un_cv u l -> 0 <= l.
Proof.
  intros Hpos Hcv. destruct (Rle_or_lt 0 l) as [H|H]; [exact H|].
  destruct (Hcv (- l)) as [N1 HN1]; [lra|].
  specialize (HN1 (Nat.max N0 N1)). specialize (Hpos (Nat.max N0 N1)).
  unfold Rdist in HN1.
  assert (H1 : Rabs (u (Nat.max N0 N1) - l) < - l) by (apply HN1; unfold ge; lia).
  assert (H2 : 0 <= u (Nat.max N0 N1)) by (apply Hpos; lia).
  rewrite Rabs_right in H1 by lra. lra.
Qed.

(** ** The compound distribution: a binomial mixture of Poisson laws *)

Lemma mix_sum_le_1 (n : nat) (p mu : R) (N : nat) :
  0 <= p <= 1 -> 0 <= mu -> mix_sum n p mu N <= 1.
Proof.
  intros Hp Hmu. rewrite <- (binom_pmf_sum n p). unfold mix_sum.
  apply sum_Rle. intros k _.
  rewrite <- (Rmult_1_r (binom_pmf n p k)) at 2.
  apply Rmult_le_compat_l; [apply binom_pmf_nonneg, Hp|].
  apply pois_sum_le_1. apply Rmult_le_pos; [apply pos_INR | exact Hmu].
Qed.

(** The variance of the compound law, as a binomial average. *)
Lemma compound_variance (n : nat) (p mu E : R) :
  E = INR n * p * mu ->
  sum_f_R0 (fun k => binom_pmf n p k *
     (INR k * mu * (INR k * mu) + (1 - 2 * E) * (INR k * mu) + E * E)) n
  = E * (1 + mu * (1 - p)).
Proof.
  intros HE.
  rewrite (sum_eq _ (fun k =>
     (INR k * (INR k - 1) * binom_pmf n p k) * (mu * mu)
     + ((INR k * binom_pmf n p k) * ((1 + mu - 2 * E) * mu)
        + binom_pmf n p k * (E * E)))) by (intros; ring).
  rewrite !plus_sum, <- !scal_sum.
  rewrite binom_second_moment, binom_first_moment, binom_pmf_sum.
  rewrite HE. ring.
Qed.

Lemma mix_tail_chebyshev (n : nat) (p mu c : R) (L : nat) :
  0 <= p <= 1 -> 0 <= mu ->
  (forall l, (L < l)%nat -> c <= (INR l - INR n * p * mu) ^ 2) ->
  c * (1 - mix_sum n p mu L) <= INR n * p * mu * (1 + mu * (1 - p)).
Proof.
  intros Hp Hmu Hc.
  set (E := INR n * p * mu).
  set (V := E * (1 + mu * (1 - p))).
  (* the slack of Chebyshev's inequality at the partial sums up to M + 2 *)
  set (f := fun (k M : nat) =>
     binom_pmf n p k *
       (INR k * mu * (INR k * mu) * pois_sum (INR k * mu) M
        + (1 - 2 * E) * (INR k * mu * pois_sum (INR k * mu) (S M))
        + (E * E - c) * pois_sum (INR k * mu) (S (S M)))).
  set (D := fun M => sum_f_R0 (fun k => f k M) n + c * mix_sum n p mu L).
  assert (HD : forall M, (L <= M)%nat -> 0 <= D M).
  { intros M HM. unfold D.
    assert (Hsum : c * (mix_sum n p mu (S (S M)) - mix_sum n p mu L)
                   <= sum_f_R0 (fun k => binom_pmf n p k *
                        sum_f_R0 (fun l => (INR l - E) ^ 2 * poisson_pmf l (INR k * mu))
                                 (S (S M))) n).
    { unfold mix_sum. rewrite <- minus_sum, scal_sum. apply sum_Rle. intros k _.
      replace ((binom_pmf n p k * pois_sum (INR k * mu) (S (S M))
                - binom_pmf n p k * pois_sum (INR k * mu) L) * c)
        with (binom_pmf n p k *
              (c * (pois_sum (INR k * mu) (S (S M)) - pois_sum (INR k * mu) L)))
        by ring.
      apply Rmult_le_compat_l; [apply binom_pmf_nonneg, Hp|].
      apply pois_tail_chebyshev; [|exact Hc | lia].
      apply Rmult_le_pos; [apply pos_INR | exact Hmu]. }
    rewrite (sum_eq _ (fun k => f k M + (binom_pmf n p k * pois_sum (INR k * mu) (S (S M))) * c))
      in Hsum.
    2:{ intros k _. rewrite pois_central_moment. unfold f. ring. }
    rewrite plus_sum in Hsum. rewrite <- scal_sum in Hsum.
    fold (mix_sum n p mu (S (S M))) in Hsum. lra. }
  assert (Hcv : Un_cv D (V - c + c * mix_sum n p mu L)).
  { unfold D. apply CV_plus; [|apply cv_const].
    replace (V - c) with (sum_f_R0 (fun k => binom_pmf n p k *
       (INR k * mu * (INR k * mu) * 1 + (1 - 2 * E) * (INR k * mu * 1)
        + (E * E - c) * 1)) n).
    - apply cv_sum_f_R0. intros k _. unfold f.
      pose proof (pois_sum_cv (INR k * mu)) as H0.
      pose proof (cv_succ _ _ H0) as H1.
      pose proof (cv_succ _ _ H1) as H2.
      apply (cv_scal (binom_pmf n p k)
               (fun M => INR k * mu * (INR k * mu) * pois_sum (INR k * mu) M
                  + (1 - 2 * E) * (INR k * mu * pois_sum (INR k * mu) (S M))
                  + (E * E - c) * pois_sum (INR k * mu) (S (S M)))).
      apply CV_plus; [apply CV_plus|].
      + exact (cv_scal _ _ _ H0).
      + exact (cv_scal _ _ _ (cv_scal _ _ _ H1)).
      + exact (cv_scal _ _ _ H2).
    - rewrite (sum_eq _ (fun k =>
        binom_pmf n p k *
          (INR k * mu * (INR k * mu) + (1 - 2 * E) * (INR k * mu) + E * E)
        + binom_pmf n p k * (- c))) by (intros; ring).
      rewrite plus_sum, <- scal_sum, binom_pmf_sum.
      rewrite (compound_variance n p mu E eq_refl). unfold V. ring. }
  pose proof (cv_eventually_nonneg D _ L HD Hcv) as H. fold E. fold V. lra.
Qed.

(** With the support cut at [E + 4 * sqrt V] or later, the rows kept
    hold at least 15/16 of the mass. *)
Lemma mix_sum_ge (n : nat) (p mu : R) (L : nat) :
  0 <= p <= 1 -> 0 <= mu ->
  Harvest.tot_E n p mu + 4 * sqrt (Harvest.tot_V n p mu) <= INR L ->
  15 / 16 <= mix_sum n p mu L.
Proof.
  intros Hp Hmu HL. unfold Harvest.tot_V, Harvest.tot_E in HL.
  set (E := INR n * p * mu) in *.
  set (V := E * (1 + mu * (1 - p))) in *.
  assert (HE : 0 <= E).
  { unfold E. apply Rmult_le_pos; [apply Rmult_le_pos|]; try lra. apply pos_INR. }
  assert (Hfac : 1 <= 1 + mu * (1 - p)).
  { assert (0 <= mu * (1 - p)) by (apply Rmult_le_pos; lra). lra. }
  assert (HV : 0 <= V) by (unfold V; apply Rmult_le_pos; lra).
  pose proof (sqrt_pos V) as Hs.
  destruct (Rle_lt_or_eq_dec _ _ HV) as [Hpos | Hzero].
  - assert (H : 16 * V * (1 - mix_sum n p mu L) <= V).
    { apply mix_tail_chebyshev; [assumption | assumption |].
      intros l Hl. fold E.
      assert (Hl' : INR L + 1 <= INR l).
      { rewrite <- S_INR. apply le_INR. lia. }
      assert (Hd : 4 * sqrt V <= INR l - E) by lra.
      replace (16 * V) with ((4 * sqrt V) ^ 2).
      - apply pow_incr. lra.
      - simpl. rewrite Rmult_1_r.
        replace (4 * sqrt V * (4 * sqrt V)) with (16 * (sqrt V * sqrt V)) by ring.
        rewrite sqrt_sqrt by exact HV. reflexivity. }
    nra.
  - assert (HE0 : E = 0).
    { unfold V in Hzero. symmetry in Hzero.
      apply Rmult_integral in Hzero. destruct Hzero; lra. }
    assert (H : 1 * (1 - mix_sum n p mu L) <= V).
    { apply mix_tail_chebyshev; [assumption | assumption |].
      intros l Hl. fold E. rewrite HE0, Rminus_0_r.
      assert (1 <= INR l) by (change 1 with (INR 1); apply le_INR; lia).
      nra. }
    lra.
Qed.

(** ** The support and the joint table *)

Lemma ceil_ge (r : R) : r <= IZR (Np.ceil r).
Proof.
  unfold Np.ceil. rewrite opp_IZR.
  destruct (base_Int_part (- r)) as [H _]. lra.
Qed.

(** [np.arange(r + 1)] for [r >= 0] is [0 .. L] with [L >= r]. *)
Lemma arange_rows (r : R) :
  0 <= r -> exists L, Np.arange (r + 1) = seq 0 (S L) /\ r <= INR L.
Proof.
  intros Hr. pose proof (ceil_ge (r + 1)) as Hc.
  assert (Hz : (1 <= Np.ceil (r + 1))%Z).
  { apply le_IZR. lra. }
  exists (Z.to_nat (Np.ceil (r + 1)) - 1)%nat. split.
  - unfold Np.arange. f_equal. lia.
  - rewrite minus_INR by lia. rewrite INR_IZR_INZ, Z2Nat.id by lia.
    simpl. lra.
Qed.

Lemma Ymax0_nonneg (n : nat) (p mu : R) :
  0 <= p <= 1 -> 0 <= mu ->
  0 <= Harvest.tot_E n p mu + 4 * sqrt (Harvest.tot_V n p mu).
Proof.
  intros Hp Hmu. pose proof (sqrt_pos (Harvest.tot_V n p mu)).
  assert (0 <= Harvest.tot_E n p mu).
  { unfold Harvest.tot_E. apply Rmult_le_pos; [apply Rmult_le_pos|]; try lra.
    apply pos_INR. }
  lra.
Qed.

Lemma max2_Rmax (a b : R) : Py.max2 a b = Rmax a b.
Proof.
  unfold Py.max2, Np.lt_b, Rmax.
  destruct (Rlt_dec a b), (Rle_dec a b); try reflexivity; lra.
Qed.

Lemma Ymax_ge (n : nat) (p mu : R) (y_cond : option R) :
  Harvest.tot_E n p mu + 4 * sqrt (Harvest.tot_V n p mu)
  <= Harvest.Ymax n p mu y_cond.
Proof.
  unfold Harvest.Ymax. destruct y_cond as [yc|]; [|lra].
  rewrite max2_Rmax. apply Rmax_l.
Qed.

(** The rows of the table are [l = 0 .. L], for an [L] at or beyond
    [Ymax]. *)
Lemma harvest_rows (n : nat) (p mu : R) (y_cond : option R) :
  0 <= p <= 1 -> 0 <= mu ->
  exists L, Harvest.y n p mu y_cond = seq 0 (S L) /\
            Harvest.Ymax n p mu y_cond <= INR L.
Proof.
  intros Hp Hmu. apply arange_rows.
  pose proof (Ymax0_nonneg n p mu Hp Hmu). pose proof (Ymax_ge n p mu y_cond). lra.
Qed.

Lemma nth_map_seq {A : Type} (f : nat -> A) (d : A) (len i : nat) :
  (i < len)%nat -> nth i (map f (seq 0 len)) d = f i.
Proof.
  intros Hi. rewrite (nth_indep _ d (f 0%nat)) by (rewrite length_map, length_seq; exact Hi).
  rewrite (map_nth f). rewrite seq_nth by exact Hi. reflexivity.
Qed.

Lemma pXY_entry (n : nat) (p mu : R) (y_cond : option R) (k l : nat) :
  0 <= p <= 1 -> 0 <= mu ->
  (k <= n)%nat -> INR l <= Harvest.Ymax n p mu y_cond ->
  nth k (nth l (Harvest.pXY n p mu y_cond) []) 0
  = binom_pmf n p k * poisson_pmf l (INR k * mu).
Proof.
  intros Hp Hmu Hk Hl.
  destruct (harvest_rows n p mu y_cond Hp Hmu) as (L & Hy & HL).
  assert (HlL : (l <= L)%nat) by (apply INR_le; lra).
  unfold Harvest.pXY. rewrite Hy.
  rewrite nth_map_seq by lia.
  unfold Harvest.x, Np.arange_int. rewrite nth_map_seq by lia. reflexivity.
Qed.

Lemma sum_f_R0_swap (f : nat -> nat -> R) (n L : nat) :
  sum_f_R0 (fun l => sum_f_R0 (fun k => f k l) n) L
  = sum_f_R0 (fun k => sum_f_R0 (fun l => f k l) L) n.
Proof.
  induction L as [|L IH]; simpl.
  - reflexivity.
  - rewrite IH, <- plus_sum. reflexivity.
Qed.

Lemma Rsum_concat (t : list (list R)) : Rsum (List.concat t) = Rsum (map Rsum t).
Proof.
  induction t as [|r t IH]; simpl.
  - reflexivity.
  - rewrite Rsum_app, Rsum_cons, IH. reflexivity.
Qed.

(** The total of a table with rows [0 .. L] is the column-wise partial
    sum of the mixture. *)
Lemma table_total (n : nat) (p mu : R) (L : nat) :
  Rsum (map Rsum
    (map (fun l => map (fun k => binom_pmf n p k * poisson_pmf l (INR k * mu))
                       (Harvest.x n))
         (seq 0 (S L))))
  = mix_sum n p mu L.
Proof.
  rewrite map_map. unfold Harvest.x, Np.arange_int. rewrite Nat.add_1_r.
  rewrite (map_ext _ (fun l => sum_f_R0
             (fun k => binom_pmf n p k * poisson_pmf l (INR k * mu)) n))
    by (intros l; apply Rsum_seq_sum_f_R0).
  rewrite Rsum_seq_sum_f_R0, sum_f_R0_swap. unfold mix_sum.
  apply sum_eq. intros k _. unfold pois_sum.
  rewrite scal_sum. apply sum_eq. intros l _. ring.
Qed.

Lemma pY_total (n : nat) (p mu : R) (y_cond : option R) :
  0 <= p <= 1 -> 0 <= mu ->
  15 / 16 <= Rsum (Harvest.pY n p mu y_cond) <= 1.
Proof.
  intros Hp Hmu.
  destruct (harvest_rows n p mu y_cond Hp Hmu) as (L & Hy & HL).
  unfold Harvest.pY, Harvest.pXY. rewrite Hy, table_total. split.
  - apply mix_sum_ge; try assumption.
    pose proof (Ymax_ge n p mu y_cond). lra.
  - apply mix_sum_le_1; assumption.
Qed.

(** C4.  For a positive integer [n], [p] in [0,1] and [mu > 0], the
    entry of the joint table at [(k, l)] is
    [binom.pmf(k; n, p) * poisson.pmf(l; k*mu)] for every [k] in [0..n]
    and every [l] in [0..Ymax], where
    [Ymax = n*p*mu + 4*sqrt(n*p*mu*(1 + mu*(1-p)))], raised to [y_cond]
    when that is larger; and the table summed over its whole support is
    one up to the tail beyond four standard deviations, which holds
    less than 1/16 of the mass. *)
Theorem harvest_joint_table (n : nat) (p mu : R) (y_cond : option R) :
  (1 <= n)%nat -> 0 <= p <= 1 -> 0 < mu ->
  let Ymax0 := INR n * p * mu + 4 * sqrt (INR n * p * mu * (1 + mu * (1 - p))) in
  Harvest.Ymax n p mu y_cond
  = match y_cond with None => Ymax0 | Some yc => Rmax Ymax0 yc end /\
  (forall k l, (k <= n)%nat -> INR l <= Harvest.Ymax n p mu y_cond ->
     nth k (nth l (Harvest.pXY n p mu y_cond) []) 0
     = binom_pmf n p k * poisson_pmf l (INR k * mu)) /\
  15 / 16 <= Rsum (List.concat (Harvest.pXY n p mu y_cond)) <= 1.
Proof.
  intros Hn Hp Hmu Ymax0. split; [|split].
  - unfold Harvest.Ymax. destruct y_cond; [apply max2_Rmax | reflexivity].
  - intros k l Hk Hl. apply pXY_entry; try assumption. lra.
  - rewrite Rsum_concat. apply (pY_total n p mu y_cond); lra.
Qed.

Lemma harvest_joint_table_witness :
  let Ymax0 := INR 2 * (1/2) * 1 + 4 * sqrt (INR 2 * (1/2) * 1 * (1 + 1 * (1 - 1/2))) in
  Harvest.Ymax 2 (1/2) 1 (Some 3)
  = Rmax Ymax0 3 /\
  (forall k l, (k <= 2)%nat -> INR l <= Harvest.Ymax 2 (1/2) 1 (Some 3) ->
     nth k (nth l (Harvest.pXY 2 (1/2) 1 (Some 3)) []) 0
     = binom_pmf 2 (1/2) k * poisson_pmf l (INR k * 1)) /\
  15 / 16 <= Rsum (List.concat (Harvest.pXY 2 (1/2) 1 (Some 3))) <= 1.
Proof.
  apply (harvest_joint_table 2 (1/2) 1 (Some 3)); [lia | lra | lra].
Defined.

(** C3.  The marginal of [harvest] is the joint table summed over the
    grown count [k] for each harvested count [l], one value per row of
    the table, by the same reduction as [pXY.sum(axis=1)]; every
    element is non-negative, and the marginal sums to one up to the
    tail beyond four standard deviations (less than 1/16). *)
Theorem harvest_marginal (n : nat) (p mu : R) (y_cond : option R) :
  (1 <= n)%nat -> 0 <= p <= 1 -> 0 < mu ->
  Harvest.pY n p mu y_cond = map Rsum (Harvest.pXY n p mu y_cond) /\
  List.length (Harvest.pY n p mu y_cond) = List.length (Harvest.y n p mu y_cond) /\
  (forall l, INR l <= Harvest.Ymax n p mu y_cond ->
     nth l (Harvest.pY n p mu y_cond) 0
     = Rsum (map (fun k => binom_pmf n p k * poisson_pmf l (INR k * mu))
                 (seq 0 (n + 1)))) /\
  Forall (fun v => 0 <= v) (Harvest.pY n p mu y_cond) /\
  15 / 16 <= Rsum (Harvest.pY n p mu y_cond) <= 1.
Proof.
  intros Hn Hp Hmu. split; [reflexivity|]. split; [|split; [|split]].
  - unfold Harvest.pY, Harvest.pXY. rewrite !length_map. reflexivity.
  - intros l Hl.
    destruct (harvest_rows n p mu y_cond Hp) as (L & Hy & HL); [lra|].
    assert (HlL : (l <= L)%nat) by (apply INR_le; lra).
    unfold Harvest.pY, Harvest.pXY. rewrite Hy, map_map.
    rewrite nth_map_seq by lia. reflexivity.
  - unfold Harvest.pY, Harvest.pXY. rewrite map_map, Forall_forall.
    intros v Hv. apply in_map_iff in Hv. destruct Hv as (l & <- & _).
    apply Rsum_nonneg. rewrite Forall_forall. intros w Hw.
    apply in_map_iff in Hw. destruct Hw as (k & <- & _).
    apply Rmult_le_pos; [apply binom_pmf_nonneg, Hp|].
    apply poisson_pmf_nonneg. apply Rmult_le_pos; [apply pos_INR | lra].
  - apply pY_total; lra.
Qed.

Lemma harvest_marginal_witness :
  Harvest.pY 2 (1/2) 1 None = map Rsum (Harvest.pXY 2 (1/2) 1 None) /\
  List.length (Harvest.pY 2 (1/2) 1 None) = List.length (Harvest.y 2 (1/2) 1 None) /\
  (forall l, INR l <= Harvest.Ymax 2 (1/2) 1 None ->
     nth l (Harvest.pY 2 (1/2) 1 None) 0
     = Rsum (map (fun k => binom_pmf 2 (1/2) k * poisson_pmf l (INR k * 1))
                 (seq 0 (2 + 1)))) /\
  Forall (fun v => 0 <= v) (Harvest.pY 2 (1/2) 1 None) /\
  15 / 16 <= Rsum (Harvest.pY 2 (1/2) 1 None) <= 1.
Proof.
  apply (harvest_marginal 2 (1/2) 1 None); [lia | lra | lra].
Defined.

(* ================================================================= *)
(** ** What [harvest] returns *)

Lemma pX_Y_returns (n : nat) (p mu yc : R) :
  exists c, Harvest.pX_Y n p mu yc = Some c.
Proof.
  unfold Harvest.pX_Y. rewrite code_log_values.
  unfold log_values, Harvest.cond_step4. simpl Py.max. cbv iota beta.
  eexists. reflexivity.
Qed.

Lemma harvest_figure_panels (n : nat) (p mu : R) (y_cond : option R) :
  exists fig : Harvest.figure,
    Harvest.harvest n p mu y_cond = Some (Harvest.ObjFigure fig) /\
    Harvest.ax00_stem fig
    = (Harvest.X_in_flat (Harvest.x n) (Harvest.y n p mu y_cond),
       Harvest.Y_in_flat (Harvest.x n) (Harvest.y n p mu y_cond),
       List.concat (Harvest.pXY n p mu y_cond)) /\
    Harvest.ax01_pcolormesh fig
    = (Harvest.x n, Harvest.y n p mu y_cond, Harvest.pXY n p mu y_cond) /\
    Harvest.ax10_fill_between fig
    = (Harvest.y n p mu y_cond, Harvest.pY n p mu y_cond) /\
    match y_cond with
    | None => Harvest.ax11_bar fig = None
    | Some yc => exists c, Harvest.pX_Y n p mu yc = Some c /\
                           Harvest.ax11_bar fig = Some (Harvest.x n, c)
    end.
Proof.
  unfold Harvest.harvest. destruct y_cond as [yc|].
  - destruct (pX_Y_returns n p mu yc) as [c Hc]. rewrite Hc.
    eexists. split; [reflexivity|]. simpl. repeat split. exists c. split; reflexivity.
  - eexists. split; [reflexivity|]. simpl. repeat split.
Qed.

(** C8 (as amended).  For every valid input (a positive integer [n],
    [p] in [0,1], [mu > 0] and, when given, [y_cond >= 0]) [harvest]
    returns the figure and nothing else; the joint table, the marginal
    vector and, when [y_cond] is supplied, the conditional vector are
    the data its panels are drawn from (stem plot and colour mesh,
    filled curve, bar chart), each over its support. *)
Theorem harvest_returns_figure (n : nat) (p mu : R) (y_cond : option R) :
  (1 <= n)%nat -> 0 <= p <= 1 -> 0 < mu ->
  (forall yc, y_cond = Some yc -> 0 <= yc) ->
  exists fig : Harvest.figure,
    Harvest.harvest n p mu y_cond = Some (Harvest.ObjFigure fig) /\
    Harvest.ax00_stem fig
    = (Harvest.X_in_flat (Harvest.x n) (Harvest.y n p mu y_cond),
       Harvest.Y_in_flat (Harvest.x n) (Harvest.y n p mu y_cond),
       List.concat (Harvest.pXY n p mu y_cond)) /\
    Harvest.ax01_pcolormesh fig
    = (Harvest.x n, Harvest.y n p mu y_cond, Harvest.pXY n p mu y_cond) /\
    Harvest.ax10_fill_between fig
    = (Harvest.y n p mu y_cond, Harvest.pY n p mu y_cond) /\
    match y_cond with
    | None => Harvest.ax11_bar fig = None
    | Some yc => exists c, Harvest.pX_Y n p mu yc = Some c /\
                           Harvest.ax11_bar fig = Some (Harvest.x n, c)
    end.
Proof. intros _ _ _ _. apply harvest_figure_panels. Qed.

Lemma harvest_returns_figure_witness :
  exists fig : Harvest.figure,
    Harvest.harvest 2 (1/2) 1 (Some 3) = Some (Harvest.ObjFigure fig) /\
    Harvest.ax00_stem fig
    = (Harvest.X_in_flat (Harvest.x 2) (Harvest.y 2 (1/2) 1 (Some 3)),
       Harvest.Y_in_flat (Harvest.x 2) (Harvest.y 2 (1/2) 1 (Some 3)),
       List.concat (Harvest.pXY 2 (1/2) 1 (Some 3))) /\
    Harvest.ax01_pcolormesh fig
    = (Harvest.x 2, Harvest.y 2 (1/2) 1 (Some 3), Harvest.pXY 2 (1/2) 1 (Some 3)) /\
    Harvest.ax10_fill_between fig
    = (Harvest.y 2 (1/2) 1 (Some 3), Harvest.pY 2 (1/2) 1 (Some 3)) /\
    exists c, Harvest.pX_Y 2 (1/2) 1 3 = Some c /\
              Harvest.ax11_bar fig = Some (Harvest.x 2, c).
Proof.
  apply (harvest_returns_figure 2 (1/2) 1 (Some 3)); [lia | lra | lra |].
  intros yc E. injection E as <-. lra.
Defined.

(** C8 as stated fails: at [n = 1], [p = 1/2], [mu = 1], [y_cond = 1]
    the returned object holds no array, neither on its own nor inside
    a tuple. *)
Lemma harvest_returns_no_array_counterexample :
  ~ (exists o, Harvest.harvest 1 (1/2) 1 (Some 1) = Some o /\
               Harvest.returns_array o = true).
Proof.
  intros (o & Ho & Harr).
  destruct (harvest_figure_panels 1 (1/2) 1 (Some 1)) as (fig & Hfig & _).
  rewrite Hfig in Ho. inversion Ho; subst. simpl in Harr. discriminate.
Qed.

(* ================================================================= *)
(** ** The power function of [styrkefkn] *)

Section PowerFunction.
Context {N : StdNormal}.

Lemma std_error_pos (sigma : R) (n : nat) :
  0 < sigma -> (1 <= n)%nat -> 0 < sigma / sqrt (INR n).
Proof.
  intros Hs Hn. apply Rdiv_lt_0_compat; [exact Hs|].
  apply sqrt_lt_R0, lt_0_INR. lia.
Qed.

Lemma cdf_at_quantile (q mu0 s : R) :
  0 < s -> 0 < q < 1 ->
  norm_cdf (Np.Fin (norm_ppf q mu0 s)) mu0 s = q.
Proof.
  intros Hs Hq. unfold norm_cdf, norm_ppf.
  replace ((mu0 + s * std_ppf q - mu0) / s) with (std_ppf q) by (field; lra).
  apply std_cdf_ppf, Hq.
Qed.

(** The power at the null value, for each of the three boundary pairs. *)
Lemma power_at_null (mu0 s alpha : R) (riktning : string) :
  0 < s -> 0 < alpha < 1 ->
  riktning = "<" \/ riktning = ">" \/ riktning = "!=" ->
  exists k1 k2 a b,
    Styrkefkn.boundaries mu0 s alpha riktning = Ok (k1, k2, (a, b)) /\
    (riktning = "<" ->
       k1 = Np.Fin (norm_ppf alpha mu0 s) /\ k2 = Np.PInf) /\
    (riktning = ">" ->
       k1 = Np.NInf /\ k2 = Np.Fin (norm_ppf (1 - alpha) mu0 s)) /\
    (riktning = "!=" ->
       k1 = Np.Fin (norm_ppf (alpha / 2) mu0 s) /\
       k2 = Np.Fin (norm_ppf (1 - alpha / 2) mu0 s)) /\
    Styrkefkn.power k1 k2 s mu0 = alpha.
Proof.
  intros Hs Ha [-> | [-> | ->]]; unfold Styrkefkn.boundaries; simpl String.eqb;
    cbv iota; do 4 eexists; (split; [reflexivity|]);
    (split; [intros E; try discriminate E; split; reflexivity|]);
    (split; [intros E; try discriminate E; split; reflexivity|]);
    (split; [intros E; try discriminate E; split; reflexivity|]);
    unfold Styrkefkn.power.
  - rewrite cdf_at_quantile by (try assumption; lra). simpl. lra.
  - rewrite cdf_at_quantile by (try assumption; lra). simpl. lra.
  - rewrite !cdf_at_quantile by (try assumption; lra). lra.
Qed.

(** C5.  For each accepted direction, every [mu0], [sigma > 0],
    positive integer [n] and [alpha] in (0,1), the power function of
    [styrkefkn], [h(x) = 1 - (cdf(k2; x, s) - cdf(k1; x, s))] with
    [s = sigma/sqrt(n)] and the boundaries of the direction, is exactly
    [alpha] at [x = mu0]; so is the power [f] reported for
    [mu_sant = mu0]. *)
Theorem styrkefkn_power_at_null (mu0 sigma : R) (n : nat) (alpha : R)
  (riktning : string) (plt : pyplot) :
  0 < sigma -> (1 <= n)%nat -> 0 < alpha < 1 ->
  riktning = "<" \/ riktning = ">" \/ riktning = "!=" ->
  let s := sigma / sqrt (INR n) in
  exists k1 k2 a b fig,
    Styrkefkn.boundaries mu0 s alpha riktning = Ok (k1, k2, (a, b)) /\
    (riktning = "<" ->
       k1 = Np.Fin (norm_ppf alpha mu0 s) /\ k2 = Np.PInf) /\
    (riktning = ">" ->
       k1 = Np.NInf /\ k2 = Np.Fin (norm_ppf (1 - alpha) mu0 s)) /\
    (riktning = "!=" ->
       k1 = Np.Fin (norm_ppf (alpha / 2) mu0 s) /\
       k2 = Np.Fin (norm_ppf (1 - alpha / 2) mu0 s)) /\
    Styrkefkn.power k1 k2 s mu0 = alpha /\
    Styrkefkn.styrkefkn mu0 sigma n alpha riktning (Some mu0) plt
    = (Ok fig, plt_subplots plt) /\
    Styrkefkn.pw_h (Styrkefkn.fig_power fig)
    = map (fun x => 1 - (norm_cdf k2 x s - norm_cdf k1 x s))
          (Styrkefkn.pw_x (Styrkefkn.fig_power fig)) /\
    Styrkefkn.pw_f (Styrkefkn.fig_power fig) = Some alpha.
Proof.
  intros Hsig Hn Ha Hr s.
  pose proof (std_error_pos sigma n Hsig Hn) as Hs. fold s in Hs.
  destruct (power_at_null mu0 s alpha riktning Hs Ha Hr)
    as (k1 & k2 & a & b & Hb & H1 & H2 & H3 & Hp).
  exists k1, k2, a, b. unfold Styrkefkn.styrkefkn. fold s. rewrite Hb.
  eexists. split; [reflexivity|]. split; [exact H1|]. split; [exact H2|].
  split; [exact H3|]. split; [exact Hp|].
  cbn [option_map]. split; [reflexivity|].
  cbn [Styrkefkn.fig_power Styrkefkn.pw_h Styrkefkn.pw_x Styrkefkn.pw_f].
  split; [reflexivity|].
  rewrite Hp. reflexivity.
Qed.

End PowerFunction.

Lemma styrkefkn_power_at_null_witness :
  let s := 1 / sqrt (INR 4) in
  exists k1 k2 a b fig,
    @Styrkefkn.boundaries uniform_law 0 s (1/20) "!=" = Ok (k1, k2, (a, b)) /\
    ("!=" = "<" ->
       k1 = Np.Fin (@norm_ppf uniform_law (1/20) 0 s) /\ k2 = Np.PInf) /\
    ("!=" = ">" ->
       k1 = Np.NInf /\ k2 = Np.Fin (@norm_ppf uniform_law (1 - 1/20) 0 s)) /\
    ("!=" = "!=" ->
       k1 = Np.Fin (@norm_ppf uniform_law (1/20 / 2) 0 s) /\
       k2 = Np.Fin (@norm_ppf uniform_law (1 - 1/20 / 2) 0 s)) /\
    @Styrkefkn.power uniform_law k1 k2 s 0 = 1/20 /\
    @Styrkefkn.styrkefkn uniform_law 0 1 4 (1/20) "!=" (Some 0) 0%nat
    = (Ok fig, plt_subplots 0%nat) /\
    Styrkefkn.pw_h (Styrkefkn.fig_power fig)
    = map (fun x => 1 - (@norm_cdf uniform_law k2 x s - @norm_cdf uniform_law k1 x s))
          (Styrkefkn.pw_x (Styrkefkn.fig_power fig)) /\
    Styrkefkn.pw_f (Styrkefkn.fig_power fig) = Some (1/20).
Proof.
  apply (@styrkefkn_power_at_null uniform_law 0 1 4 (1/20) "!=" 0%nat);
    [lra | lia | lra | right; right; reflexivity].
Defined.

(* ================================================================= *)
(** ** The simulation of [skattningar] *)

Lemma reshape_length (a : list R) (rows cols : nat) :
  List.length (Np.reshape a rows cols) = rows.
Proof. unfold Np.reshape. rewrite length_map, length_seq. reflexivity. Qed.

Lemma reshape_row_length (a : list R) (rows cols i : nat) :
  List.length a = (cols * rows)%nat -> (i < rows)%nat ->
  List.length (nth i (Np.reshape a rows cols) []) = cols.
Proof.
  intros Ha Hi. unfold Np.reshape. rewrite nth_map_seq by exact Hi.
  rewrite length_firstn, length_skipn, Ha. nia.
Qed.

Lemma nth_map_default {A B : Type} (f : A -> B) (l : list A) (d : A) (e : B) (i : nat) :
  (i < List.length l)%nat -> nth i (map f l) e = f (nth i l d).
Proof.
  intros Hi. rewrite (nth_indep _ e (f d)) by (rewrite length_map; exact Hi).
  apply map_nth.
Qed.

Lemma INR_1000 : INR 1000 = 1000.
Proof. rewrite INR_IZR_INZ. reflexivity. Qed.

Lemma misses_same_side (mu lo hi : R) :
  Skattningar.misses mu lo hi = true <->
  (lo < mu /\ hi < mu) \/ (mu < lo /\ mu < hi).
Proof.
  unfold Skattningar.misses, Np.sign. rewrite eq_b_iff.
  destruct (Rlt_dec 0 (lo - mu)) as [H1|H1];
    [rewrite (lt_b_true _ _ H1) | rewrite (lt_b_false _ _ H1);
       destruct (Rlt_dec (lo - mu) 0) as [H2|H2];
       [rewrite (lt_b_true _ _ H2) | rewrite (lt_b_false _ _ H2)]];
  (destruct (Rlt_dec 0 (hi - mu)) as [H3|H3];
    [rewrite (lt_b_true _ _ H3) | rewrite (lt_b_false _ _ H3);
       destruct (Rlt_dec (hi - mu) 0) as [H4|H4];
       [rewrite (lt_b_true _ _ H4) | rewrite (lt_b_false _ _ H4)]]);
  split; intros H; try lra.
Qed.

Lemma misses_outside (mu lo hi : R) :
  lo <= hi ->
  (Skattningar.misses mu lo hi = true <-> ~ (lo <= mu <= hi)).
Proof.
  intros Hle. rewrite misses_same_side. split.
  - intros [[H1 H2] | [H1 H2]] [H3 H4]; lra.
  - intros H. destruct (Rlt_dec hi mu); [left; lra|].
    destruct (Rlt_dec mu lo); [right; lra|]. exfalso. apply H. lra.
Qed.

Lemma bool_sum_count (l : list bool) :
  Rsum (map (fun b : bool => if b then 1 else 0) l) = INR (count_occ bool_dec l true).
Proof.
  induction l as [|b t IH].
  - reflexivity.
  - cbn [map]. rewrite Rsum_cons, IH. destruct b.
    + rewrite count_occ_cons_eq by reflexivity. rewrite S_INR. lra.
    + rewrite count_occ_cons_neq by discriminate. lra.
Qed.

Lemma np_var_unfold (row : list R) :
  np_var row
  = 1 / INR (List.length row) *
    Rsum (map (fun v => (v - 1 / INR (List.length row) * Rsum row) ^ 2) row).
Proof.
  unfold np_var, np_mean. rewrite length_map.
  rewrite (map_ext (fun v => Rabs (v - Rsum row / INR (List.length row)) ^ 2)
                   (fun v => (v - 1 / INR (List.length row) * Rsum row) ^ 2)).
  - unfold Rdiv. ring.
  - intros v. rewrite pow2_abs. f_equal. unfold Rdiv. ring.
Qed.

Lemma np_var_vs_unbiased (row : list R) :
  (2 <= List.length row)%nat ->
  np_var row
  = (INR (List.length row) - 1) / INR (List.length row) * unbiased_var row.
Proof.
  intros Hn. rewrite np_var_unfold. unfold unbiased_var, np_mean.
  assert (2 <= INR (List.length row)) by (change 2 with (INR 2); apply le_INR; exact Hn).
  rewrite (map_ext (fun v => (v - 1 / INR (List.length row) * Rsum row) ^ 2)
                   (fun v => (v - Rsum row / INR (List.length row)) ^ 2))
    by (intros v; f_equal; unfold Rdiv; ring).
  field. split; lra.
Qed.

Section Simulation.
Context {N : StdNormal} {G : Sampler}.

Lemma std_ppf_upper_pos (q : R) : 1 / 2 < q < 1 -> 0 < std_ppf q.
Proof.
  intros Hq. destruct (Rlt_le_dec 0 (std_ppf q)) as [H|H]; [exact H|].
  pose proof (std_cdf_mono _ _ H) as Hm.
  rewrite std_cdf_ppf, std_cdf_0 in Hm by lra. lra.
Qed.

Lemma drawn_samples_shape (g : rng) (mu sigma : R) (n0 n1 : nat) :
  let (x, y) := drawn_samples g mu sigma n0 n1 in
  List.length x = 1000%nat /\ List.length y = 1000%nat /\
  (forall i, (i < 1000)%nat -> List.length (nth i x []) = n0) /\
  (forall i, (i < 1000)%nat -> List.length (nth i y []) = n1).
Proof.
  unfold drawn_samples.
  pose proof (norm_rvs_length g mu sigma (n0 * Skattningar.n_sim)) as Hx.
  destruct (norm_rvs g mu sigma (n0 * Skattningar.n_sim)) as [xflat g1].
  pose proof (norm_rvs_length g1 mu sigma (n1 * Skattningar.n_sim)) as Hy.
  destruct (norm_rvs g1 mu sigma (n1 * Skattningar.n_sim)) as [yflat g2].
  simpl fst in Hx, Hy. rewrite !reshape_length.
  split; [reflexivity|]. split; [reflexivity|].
  split; intros i Hi; apply reshape_row_length; assumption.
Qed.

Lemma ci_panel_holds (mu sigma : R) (nj : nat) (sample : list (list R)) :
  0 < sigma -> (1 <= nj)%nat -> List.length sample = 1000%nat ->
  let w := std_ppf 0.975 * sigma / sqrt (INR nj) in
  let est := map np_mean sample in
  let I := Skattningar.I_of mu (Skattningar.CI_lo est w) (Skattningar.CI_hi est w) in
  forall xlim,
  ci_panel_ok mu sigma nj sample
    (Skattningar.mkCI mu xlim nj (Skattningar.bool_mean I)
       (firstn Skattningar.n_plot (Skattningar.CI_lo est w))
       (firstn Skattningar.n_plot (Skattningar.CI_hi est w))
       (firstn Skattningar.n_plot (map Skattningar.colour_of I))).
Proof.
  intros Hsig Hn Hlen w est I xlim.
  assert (Hw : 0 <= w).
  { unfold w. apply Rlt_le, Rdiv_lt_0_compat.
    - apply Rmult_lt_0_compat; [apply std_ppf_upper_pos; lra | exact Hsig].
    - apply sqrt_lt_R0, lt_0_INR. lia. }
  assert (Hlo : Skattningar.CI_lo est w = map (fun row => np_mean row - w) sample).
  { unfold Skattningar.CI_lo, est. apply map_map. }
  assert (Hhi : Skattningar.CI_hi est w = map (fun row => np_mean row + w) sample).
  { unfold Skattningar.CI_hi, est. apply map_map. }
  assert (HI : I = map (fun row => Skattningar.misses mu (np_mean row - w) (np_mean row + w))
                       sample).
  { unfold I, Skattningar.I_of. rewrite Hlo, Hhi. apply zip_with_map. }
  unfold ci_panel_ok. fold w. cbn [Skattningar.ci_miss Skattningar.ci_xmin
    Skattningar.ci_xmax Skattningar.ci_colors].
  exists I. split; [rewrite HI, length_map; exact Hlen|].
  split.
  { intros i Hi.
    rewrite HI.
    rewrite (nth_map_default _ sample [] false) by (rewrite Hlen; exact Hi).
    rewrite (nth_map_default (fun row => np_mean row - w) sample [] 0)
      by (rewrite Hlen; exact Hi).
    rewrite (nth_map_default (fun row => np_mean row + w) sample [] 0)
      by (rewrite Hlen; exact Hi).
    split; [apply misses_same_side | apply misses_outside; lra]. }
  split.
  { unfold Skattningar.bool_mean. rewrite bool_sum_count.
    replace (List.length I) with 1000%nat by (rewrite HI, length_map; symmetry; exact Hlen).
    rewrite INR_1000. reflexivity. }
  rewrite Hlo, Hhi. repeat split; reflexivity.
Qed.

(** C6.  In the confidence-interval mode, for each of the 1000
    repetitions and each of the two sample sizes [n_j], the interval is
    the sample mean minus and plus [z_0.975 * sigma / sqrt(n_j)]; it
    counts as a miss exactly when both bounds lie strictly on the same
    side of [mu], that is when [mu] lies strictly outside it; and the
    value reported is the number of such intervals divided by 1000. *)
Theorem skattningar_konfint (mu sigma : R) (n0 n1 : nat) (g : rng) (plt : pyplot) :
  0 < sigma -> (1 <= n0)%nat -> (1 <= n1)%nat ->
  exists P0 P1 g',
    Skattningar.skattningar mu sigma (n0, n1) "konfint" g plt
    = (Ok (Skattningar.FigCI P0 P1), g', plt_subplots plt) /\
    ci_panel_ok mu sigma n0 (fst (drawn_samples g mu sigma n0 n1)) P0 /\
    ci_panel_ok mu sigma n1 (snd (drawn_samples g mu sigma n0 n1)) P1.
Proof.
  intros Hsig Hn0 Hn1.
  pose proof (drawn_samples_shape g mu sigma n0 n1) as Hshape.
  unfold Skattningar.skattningar, drawn_samples in *.
  destruct (norm_rvs g mu sigma (n0 * Skattningar.n_sim)) as [xflat g1].
  destruct (norm_rvs g1 mu sigma (n1 * Skattningar.n_sim)) as [yflat g2].
  destruct Hshape as (Hx & Hy & _ & _).
  simpl String.eqb. cbv iota. cbn [fst snd].
  do 3 eexists. split; [reflexivity|]. split.
  - apply ci_panel_holds; assumption.
  - apply ci_panel_holds; assumption.
Qed.

Lemma var_panel_holds (nj : nat) (sample : list (list R)) (vline : R) (xlim : R * R) :
  List.length sample = 1000%nat ->
  (forall i, (i < 1000)%nat -> List.length (nth i sample []) = nj) ->
  var_panel_ok nj sample (Skattningar.mkHist (map np_var sample) nj vline xlim).
Proof.
  intros Hlen Hrows. unfold var_panel_ok. cbn [Skattningar.hist_x].
  split; [reflexivity|]. split; [rewrite length_map; exact Hlen|].
  intros i Hi. cbv zeta. specialize (Hrows i Hi).
  rewrite (nth_map_default np_var sample [] 0) by (rewrite Hlen; exact Hi).
  split; [exact Hrows|]. split.
  - rewrite np_var_unfold, Hrows. reflexivity.
  - intros H2. rewrite np_var_vs_unbiased by (rewrite Hrows; exact H2).
    rewrite Hrows. reflexivity.
Qed.

(** C10.  In the variance mode every plotted estimate is the biased
    maximum-likelihood estimator [(1/n) * sum((x_i - mean)^2)] of its
    row, with the divisor [n] of [np.var]'s default [ddof = 0]; it is
    [(n-1)/n] times the unbiased sample variance, not that variance.
    Stated where the mode plots: [sigma > 0] and sample sizes of at
    least 2 (with a sample of size 1 in first place the axis limit is
    not a number and nothing is plotted). *)
Theorem skattningar_sigmaskatt (mu sigma : R) (n0 n1 : nat) (g : rng) (plt : pyplot) :
  0 < sigma -> (2 <= n0)%nat -> (2 <= n1)%nat ->
  exists P0 P1 g',
    Skattningar.skattningar mu sigma (n0, n1) "sigmaskatt" g plt
    = (Ok (Skattningar.FigHist P0 P1), g', plt_subplots plt) /\
    var_panel_ok n0 (fst (drawn_samples g mu sigma n0 n1)) P0 /\
    var_panel_ok n1 (snd (drawn_samples g mu sigma n0 n1)) P1.
Proof.
  intros _ _ _.
  pose proof (drawn_samples_shape g mu sigma n0 n1) as Hshape.
  unfold Skattningar.skattningar, drawn_samples in *.
  destruct (norm_rvs g mu sigma (n0 * Skattningar.n_sim)) as [xflat g1].
  destruct (norm_rvs g1 mu sigma (n1 * Skattningar.n_sim)) as [yflat g2].
  destruct Hshape as (Hx & Hy & Hrx & Hry).
  simpl String.eqb. cbv iota. cbn [fst snd].
  do 3 eexists. split; [reflexivity|]. split.
  - apply var_panel_holds; assumption.
  - apply var_panel_holds; assumption.
Qed.

End Simulation.

Lemma skattningar_sigmaskatt_witness :
  exists P0 P1 g',
    @Skattningar.skattningar uniform_law constant_sampler 0 1 (10, 100)%nat
      "sigmaskatt" tt 0%nat
    = (Ok (Skattningar.FigHist P0 P1), g', plt_subplots 0%nat) /\
    var_panel_ok 10 (fst (@drawn_samples constant_sampler tt 0 1 10 100)) P0 /\
    var_panel_ok 100 (snd (@drawn_samples constant_sampler tt 0 1 10 100)) P1.
Proof.
  apply (@skattningar_sigmaskatt uniform_law constant_sampler 0 1 10 100 tt 0%nat);
    [lra | lia | lia].
Defined.

Lemma skattningar_konfint_witness :
  exists P0 P1 g',
    @Skattningar.skattningar uniform_law constant_sampler 0 1 (10, 100)%nat
      "konfint" tt 0%nat
    = (Ok (Skattningar.FigCI P0 P1), g', plt_subplots 0%nat) /\
    @ci_panel_ok uniform_law 0 1 10
      (fst (@drawn_samples constant_sampler tt 0 1 10 100)) P0 /\
    @ci_panel_ok uniform_law 0 1 100
      (snd (@drawn_samples constant_sampler tt 0 1 10 100)) P1.
Proof.
  apply (@skattningar_konfint uniform_law constant_sampler 0 1 10 100 tt 0%nat);
    [lra | lia | lia].
Defined.

(* ================================================================= *)
(** ** Rejected mode and direction strings *)

Section Validation.
Context {N : StdNormal} {G : Sampler}.

Lemma eqb_neq_false (a b : string) : a <> b -> String.eqb a b = false.
Proof. intros H. apply String.eqb_neq. exact H. Qed.

Lemma skattningar_rejects (mu sigma : R) (n : nat * nat) (alternativ : string)
  (g : rng) (plt : pyplot) :
  alternativ <> "muskatt" -> alternativ <> "sigmaskatt" -> alternativ <> "konfint" ->
  exists g',
    Skattningar.skattningar mu sigma n alternativ g plt
    = (ValueError ("The 'alternativ' parameters must be one of " ++
                   "'muskatt', 'sigmaskatt' or 'konfint'; not " ++ alternativ),
       g', plt).
Proof.
  intros H1 H2 H3. unfold Skattningar.skattningar. destruct n as [n0 n1].
  destruct (norm_rvs g mu sigma (n0 * Skattningar.n_sim)) as [xflat g1].
  destruct (norm_rvs g1 mu sigma (n1 * Skattningar.n_sim)) as [yflat g2].
  rewrite !eqb_neq_false by assumption. exists g2. reflexivity.
Qed.

Lemma styrkefkn_rejects (mu0 sigma : R) (n : nat) (alpha : R) (riktning : string)
  (mu_sant : option R) (plt : pyplot) :
  riktning <> "<" -> riktning <> ">" -> riktning <> "!=" ->
  Styrkefkn.styrkefkn mu0 sigma n alpha riktning mu_sant plt
  = (ValueError ("The 'riktning' parameters must be one of " ++
                 "'!=', '<' or '>'; not " ++ riktning),
     plt).
Proof.
  intros H1 H2 H3. unfold Styrkefkn.styrkefkn, Styrkefkn.boundaries.
  rewrite !eqb_neq_false by assumption. reflexivity.
Qed.

Lemma skattningar_accepts_muskatt (mu sigma : R) (n : nat * nat)
  (g : rng) (plt : pyplot) :
  exists fig g',
    Skattningar.skattningar mu sigma n "muskatt" g plt
    = (Ok fig, g', plt_subplots plt).
Proof.
  unfold Skattningar.skattningar. destruct n as [n0 n1].
  destruct (norm_rvs g mu sigma (n0 * Skattningar.n_sim)) as [xflat g1].
  destruct (norm_rvs g1 mu sigma (n1 * Skattningar.n_sim)) as [yflat g2].
  simpl String.eqb. cbv iota. do 2 eexists. reflexivity.
Qed.

Lemma styrkefkn_accepts_less (mu0 sigma : R) (n : nat) (alpha : R) (plt : pyplot) :
  exists fig,
    Styrkefkn.styrkefkn mu0 sigma n alpha "<" None plt = (Ok fig, plt_subplots plt).
Proof.
  unfold Styrkefkn.styrkefkn, Styrkefkn.boundaries.
  simpl String.eqb. cbv iota. eexists. reflexivity.
Qed.

(** C7 (as amended: the accepted strings are those of the code).
    [skattningar] raises [ValueError] for every [alternativ] outside
    'muskatt', 'sigmaskatt', 'konfint', and [styrkefkn] for every
    [riktning] outside '<', '>', '!='; the message names the three
    accepted strings and ends with the string received, and no figure
    has been created when the error is raised. *)
Theorem invalid_choice_rejected
  (mu sigma : R) (n : nat * nat) (alternativ : string) (g : rng)
  (mu0 sigma' : R) (n' : nat) (alpha : R) (riktning : string) (mu_sant : option R)
  (plt : pyplot) :
  alternativ <> "muskatt" -> alternativ <> "sigmaskatt" -> alternativ <> "konfint" ->
  riktning <> "<" -> riktning <> ">" -> riktning <> "!=" ->
  (exists g',
     Skattningar.skattningar mu sigma n alternativ g plt
     = (ValueError ("The 'alternativ' parameters must be one of " ++
                    "'muskatt', 'sigmaskatt' or 'konfint'; not " ++ alternativ),
        g', plt)) /\
  Styrkefkn.styrkefkn mu0 sigma' n' alpha riktning mu_sant plt
  = (ValueError ("The 'riktning' parameters must be one of " ++
                 "'!=', '<' or '>'; not " ++ riktning),
     plt).
Proof.
  intros H1 H2 H3 H4 H5 H6. split.
  - apply skattningar_rejects; assumption.
  - apply styrkefkn_rejects; assumption.
Qed.

End Validation.

Lemma invalid_choice_rejected_witness :
  (exists g',
     @Skattningar.skattningar uniform_law constant_sampler 0 1 (10, 100)%nat
       "bogus" tt 0%nat
     = (ValueError ("The 'alternativ' parameters must be one of " ++
                    "'muskatt', 'sigmaskatt' or 'konfint'; not " ++ "bogus"),
        g', 0%nat)) /\
  @Styrkefkn.styrkefkn uniform_law 0 1 4 (1/20) "~=" None 0%nat
  = (ValueError ("The 'riktning' parameters must be one of " ++
                 "'!=', '<' or '>'; not " ++ "~="),
     0%nat).
Proof.
  apply (@invalid_choice_rejected uniform_law constant_sampler
           0 1 (10, 100)%nat "bogus" tt 0 1 4 (1/20) "~=" None 0%nat);
    intros E; discriminate E.
Defined.

(** C7 as stated fails: 'muskatt' is none of "mu-estimate",
    "variance-estimate", "confidence-interval", and '<' is none of
    "less-than", "greater-than", "two-sided", yet both calls return a
    figure, and "mu-estimate" and "less-than" themselves are rejected. *)
Lemma invalid_choice_counterexample :
  ~ In "muskatt" ["mu-estimate"; "variance-estimate"; "confidence-interval"] /\
  (exists fig g',
     @Skattningar.skattningar uniform_law constant_sampler 0 1 (10, 100)%nat
       "muskatt" tt 0%nat = (Ok fig, g', 1%nat)) /\
  ~ In "<" ["less-than"; "greater-than"; "two-sided"] /\
  (exists fig,
     @Styrkefkn.styrkefkn uniform_law 0 1 4 (1/20) "<" None 0%nat
     = (Ok fig, 1%nat)) /\
  (exists e g',
     @Skattningar.skattningar uniform_law constant_sampler 0 1 (10, 100)%nat
       "mu-estimate" tt 0%nat = (ValueError e, g', 0%nat)) /\
  (exists e,
     @Styrkefkn.styrkefkn uniform_law 0 1 4 (1/20) "less-than" None 0%nat
     = (ValueError e, 0%nat)).
Proof.
  split; [intros [H|[H|[H|[]]]]; discriminate H|].
  split; [apply (@skattningar_accepts_muskatt uniform_law constant_sampler)|].
  split; [intros [H|[H|[H|[]]]]; discriminate H|].
  split; [apply (@styrkefkn_accepts_less uniform_law)|].
  split.
  - destruct (@skattningar_rejects uniform_law constant_sampler 0 1 (10, 100)%nat
                "mu-estimate" tt 0%nat) as [g' Hg]; try (intros E; discriminate E).
    eexists. exists g'. exact Hg.
  - eexists. apply (@styrkefkn_rejects uniform_law); intros E; discriminate E.
Qed.

(* ================================================================= *)
(** * Further properties of [harvest] *)

(** ** Shapes *)

Lemma length_concat_const {A B : Type} (xs : list A) (ys : list B) :
  List.length (List.concat (map (fun _ => xs) ys))
  = (List.length xs * List.length ys)%nat.
Proof.
  induction ys as [|b t IH]; simpl.
  - lia.
  - rewrite length_app, IH. lia.
Qed.

Lemma length_concat_rows {A B : Type} (f : B -> list A) (ys : list B) (m : nat) :
  (forall b, List.length (f b) = m) ->
  List.length (List.concat (map f ys)) = (m * List.length ys)%nat.
Proof.
  intros Hf. induction ys as [|b t IH]; simpl.
  - lia.
  - rewrite length_app, IH, Hf. lia.
Qed.

Lemma pX_Y_length (n : nat) (p mu yc : R) (c : list Np.float) :
  Harvest.pX_Y n p mu yc = Some c -> List.length c = (n + 1)%nat.
Proof.
  unfold Harvest.pX_Y. rewrite code_log_values.
  unfold Harvest.cond_step4, log_values. simpl Py.max. cbv iota beta.
  intros H. injection H as <-. unfold Harvest.cond_step5.
  rewrite !length_map. cbn [List.length]. rewrite !length_map, length_seq. lia.
Qed.

(** The arrays of [harvest] fit together for every argument: [x] has
    [n + 1] entries, the joint table one row per entry of [y] and
    [n + 1] columns, the marginal one value per entry of [y], the
    conditional [n + 1] values, and the three flattened arrays of the
    stem plot the same [(n + 1) * len(y)] entries. *)
Theorem harvest_shapes (n : nat) (p mu : R) (y_cond : option R) :
  let rows := List.length (Harvest.y n p mu y_cond) in
  List.length (Harvest.x n) = (n + 1)%nat /\
  List.length (Harvest.pXY n p mu y_cond) = rows /\
  Forall (fun row => List.length row = (n + 1)%nat) (Harvest.pXY n p mu y_cond) /\
  List.length (Harvest.pY n p mu y_cond) = rows /\
  (forall yc c, Harvest.pX_Y n p mu yc = Some c -> List.length c = (n + 1)%nat) /\
  List.length (Harvest.X_in_flat (Harvest.x n) (Harvest.y n p mu y_cond))
  = ((n + 1) * rows)%nat /\
  List.length (Harvest.Y_in_flat (Harvest.x n) (Harvest.y n p mu y_cond))
  = ((n + 1) * rows)%nat /\
  List.length (List.concat (Harvest.pXY n p mu y_cond)) = ((n + 1) * rows)%nat.
Proof.
  intros rows.
  assert (Hx : List.length (Harvest.x n) = (n + 1)%nat).
  { unfold Harvest.x, Np.arange_int. apply length_seq. }
  split; [exact Hx|].
  split; [unfold Harvest.pXY; apply length_map|].
  split.
  { unfold Harvest.pXY. rewrite Forall_forall. intros row Hrow.
    apply in_map_iff in Hrow. destruct Hrow as (l & <- & _).
    rewrite length_map. exact Hx. }
  split; [unfold Harvest.pY, Harvest.pXY; rewrite !length_map; reflexivity|].
  split; [intros yc c; apply pX_Y_length|].
  split; [unfold Harvest.X_in_flat; rewrite length_concat_const, Hx; reflexivity|].
  split.
  - unfold Harvest.Y_in_flat. apply length_concat_rows.
    intros l. rewrite length_map. exact Hx.
  - unfold Harvest.pXY. apply length_concat_rows.
    intros l. rewrite length_map. exact Hx.
Qed.

(** ** The support *)

Lemma ceil_lt (r : R) : IZR (Np.ceil r) < r + 1.
Proof.
  unfold Np.ceil. rewrite opp_IZR.
  destruct (base_Int_part (- r)) as [_ H]. lra.
Qed.

Lemma ceil_mono (r1 r2 : R) : r1 <= r2 -> (Np.ceil r1 <= Np.ceil r2)%Z.
Proof.
  intros H. pose proof (ceil_lt r1). pose proof (ceil_ge r2).
  assert (Hlt : IZR (Np.ceil r1) < IZR (Np.ceil r2 + 1)).
  { rewrite plus_IZR. lra. }
  apply lt_IZR in Hlt. lia.
Qed.

Lemma Ymax_ge_y_cond (n : nat) (p mu yc : R) :
  yc <= Harvest.Ymax n p mu (Some yc).
Proof. unfold Harvest.Ymax. rewrite max2_Rmax. apply Rmax_r. Qed.

(** The comment "ensure that Ymax is as large as y_cond" holds: for [p]
    in [0,1] and [mu >= 0] the bound is at least [y_cond], the row of
    an observed count [m] is in the table, and row 0 always is. *)
Theorem harvest_support_covers_y_cond (n : nat) (p mu : R) (m : nat)
  (y_cond : option R) :
  0 <= p <= 1 -> 0 <= mu ->
  INR m <= Harvest.Ymax n p mu (Some (INR m)) /\
  In m (Harvest.y n p mu (Some (INR m))) /\
  In 0%nat (Harvest.y n p mu y_cond).
Proof.
  intros Hp Hmu. split; [apply Ymax_ge_y_cond|]. split.
  - destruct (harvest_rows n p mu (Some (INR m)) Hp Hmu) as (L & Hy & HL).
    rewrite Hy. apply in_seq.
    pose proof (Ymax_ge_y_cond n p mu (INR m)).
    assert (m <= L)%nat by (apply INR_le; lra). lia.
  - destruct (harvest_rows n p mu y_cond Hp Hmu) as (L & Hy & HL).
    rewrite Hy. apply in_seq. lia.
Qed.

Lemma harvest_support_covers_y_cond_witness :
  INR 7 <= Harvest.Ymax 2 (1/2) 1 (Some (INR 7)) /\
  In 7%nat (Harvest.y 2 (1/2) 1 (Some (INR 7))) /\
  In 0%nat (Harvest.y 2 (1/2) 1 None).
Proof.
  apply (harvest_support_covers_y_cond 2 (1/2) 1 7 None); lra.
Defined.

Lemma y_extends (n : nat) (p mu yc : R) :
  exists more,
    Harvest.y n p mu (Some yc) = (Harvest.y n p mu None ++ more)%list.
Proof.
  unfold Harvest.y, Np.arange.
  set (a := Z.to_nat (Np.ceil (Harvest.Ymax n p mu None + 1))).
  set (b := Z.to_nat (Np.ceil (Harvest.Ymax n p mu (Some yc) + 1))).
  assert (Hab : (a <= b)%nat).
  { assert (Hc : (Np.ceil (Harvest.Ymax n p mu None + 1)
                  <= Np.ceil (Harvest.Ymax n p mu (Some yc) + 1))%Z).
    { apply ceil_mono. pose proof (Ymax_ge n p mu (Some yc)).
      unfold Harvest.Ymax at 1. lra. }
    unfold a, b. lia. }
  exists (seq a (b - a)).
  replace b with (a + (b - a))%nat at 1 by lia.
  rewrite seq_app. reflexivity.
Qed.

(** Supplying [y_cond] never changes what is computed without it: the
    rows of the joint table and the values of the marginal stay, and
    rows are only added behind them. *)
Theorem harvest_y_cond_only_extends (n : nat) (p mu yc : R) :
  exists more_rows,
    Harvest.pXY n p mu (Some yc) = (Harvest.pXY n p mu None ++ more_rows)%list /\
    Harvest.pY n p mu (Some yc)
    = (Harvest.pY n p mu None ++ map Rsum more_rows)%list.
Proof.
  destruct (y_extends n p mu yc) as [more Hmore].
  exists (map (fun l => map (fun k => binom_pmf n p k * poisson_pmf l (INR k * mu))
                            (Harvest.x n)) more).
  unfold Harvest.pY, Harvest.pXY. rewrite Hmore, !map_app. split; reflexivity.
Qed.

(** ** The conditional in closed form *)

Lemma log_term_no_mass (n : nat) (p mu yc : R) (k : nat) :
  binom_pmf n p k = 0 -> 0 < mu -> (1 <= k)%nat ->
  log_term n p mu yc k = Np.NInf.
Proof.
  intros Hb Hmu Hk. unfold log_term. rewrite Hb.
  assert (Hkm : 0 < INR k * mu).
  { apply Rmult_lt_0_compat; [|exact Hmu]. apply lt_0_INR. lia. }
  cbn [Np.log]. rewrite (lt_b_true 0 (INR k * mu)) by exact Hkm.
  rewrite (lt_b_false 0 0) by lra. rewrite (eq_b_true 0 0) by reflexivity.
  reflexivity.
Qed.

Lemma weight_log_term_real (n : nat) (p mu M yc : R) (k : nat) :
  0 <= p <= 1 -> 0 < mu -> (1 <= k)%nat ->
  weight M (log_term n p mu yc k) = cond_mass n p mu yc k * exp (- M).
Proof.
  intros Hp Hmu Hk. destruct k as [|k']; [lia|]. unfold cond_mass.
  pose proof (binom_pmf_nonneg n p (S k') Hp) as Hb.
  destruct (Rle_lt_or_eq_dec _ _ Hb) as [Hpos | Hzero].
  - rewrite log_term_finite by (try assumption; lia).
    unfold weight, Rpower.
    replace (ln (binom_pmf n p (S k')) + yc * ln (INR (S k') * mu)
             - INR (S k') * mu - M)
      with (ln (binom_pmf n p (S k'))
            + (yc * ln (INR (S k') * mu) + (- (INR (S k') * mu) + - M))) by lra.
    rewrite !exp_plus, exp_ln by exact Hpos. ring.
  - rewrite log_term_no_mass by (try assumption; lra).
    rewrite <- Hzero. simpl. ring.
Qed.

Lemma weights_are_scaled_cond_masses (n : nat) (p mu M yc : R) :
  0 <= p <= 1 -> 0 < mu ->
  map (weight M) (log_values n p mu yc)
  = map (fun k => cond_mass n p mu yc k * exp (- M)) (seq 0 (n + 1)).
Proof.
  intros Hp Hmu. rewrite Nat.add_1_r. unfold log_values. cbn [seq map].
  f_equal.
  - simpl. ring.
  - rewrite map_map. apply map_ext_in. intros k Hk. apply in_seq in Hk.
    apply weight_log_term_real; [assumption | assumption | lia].
Qed.

Lemma cond_mass_nonneg (n : nat) (p mu yc : R) (k : nat) :
  0 <= p <= 1 -> 0 <= cond_mass n p mu yc k.
Proof.
  intros Hp. destruct k as [|k']; simpl; [lra|].
  apply Rmult_le_pos; [apply Rmult_le_pos|].
  - apply binom_pmf_nonneg, Hp.
  - left. apply exp_pos.
  - left. apply exp_pos.
Qed.

Lemma conditional_closed_form (n : nat) (p mu yc : R) :
  (1 <= n)%nat -> 0 < p <= 1 -> 0 < mu ->
  0 < Rsum (map (cond_mass n p mu yc) (seq 0 (n + 1))) /\
  Harvest.pX_Y n p mu yc
  = Some (map (fun k => Np.Fin (cond_mass n p mu yc k
                                / Rsum (map (cond_mass n p mu yc) (seq 0 (n + 1)))))
              (seq 0 (n + 1))).
Proof.
  intros Hn Hp Hmu.
  destruct (conditional_pipeline n p mu yc Hn Hp Hmu)
    as (M & S & _ & _ & _ & HS & HS1 & Hv & _).
  assert (Hp' : 0 <= p <= 1) by lra.
  pose proof (weights_are_scaled_cond_masses n p mu M yc Hp' Hmu) as Hw.
  set (Z := Rsum (map (cond_mass n p mu yc) (seq 0 (n + 1)))).
  assert (HSZ : S = Z * exp (- M)).
  { rewrite HS, Hw. apply Rsum_map_scal. }
  pose proof (exp_pos (- M)) as He.
  assert (HZ : 0 < Z) by nra.
  split; [exact HZ|].
  rewrite Hv. f_equal.
  rewrite <- (map_map (weight M) (fun w => Np.Fin (w / S))), Hw, map_map.
  apply map_ext. intros k. f_equal. rewrite HSZ. field. split; lra.
Qed.

(** For every real [y_cond] (a count or not), a positive integer [n],
    [0 < p <= 1] and [mu > 0], the shift by the maximum cancels: the
    conditional is [P(X=k) * (k*mu)^y_cond * exp(-k*mu)] for [k >= 1]
    and zero for [k = 0], divided by the sum of these masses, which is
    positive. *)
Theorem harvest_conditional_closed_form (n : nat) (p mu yc : R) :
  (1 <= n)%nat -> 0 < p <= 1 -> 0 < mu ->
  0 < Rsum (map (cond_mass n p mu yc) (seq 0 (n + 1))) /\
  Harvest.pX_Y n p mu yc
  = Some (map (fun k => Np.Fin (cond_mass n p mu yc k
                                / Rsum (map (cond_mass n p mu yc) (seq 0 (n + 1)))))
              (seq 0 (n + 1))).
Proof. apply conditional_closed_form. Qed.

Lemma harvest_conditional_closed_form_witness :
  0 < Rsum (map (cond_mass 3 (1/2) 2 (5/2)) (seq 0 (3 + 1))) /\
  Harvest.pX_Y 3 (1/2) 2 (5/2)
  = Some (map (fun k => Np.Fin (cond_mass 3 (1/2) 2 (5/2) k
                                / Rsum (map (cond_mass 3 (1/2) 2 (5/2)) (seq 0 (3 + 1)))))
              (seq 0 (3 + 1))).
Proof.
  apply (harvest_conditional_closed_form 3 (1/2) 2 (5/2)); [lia | lra | lra].
Defined.

(** Under the same conditions every entry of the conditional is a
    finite number between 0 and 1: no NaN and no infinity is returned. *)
Theorem harvest_conditional_probabilities (n : nat) (p mu yc : R) :
  (1 <= n)%nat -> 0 < p <= 1 -> 0 < mu ->
  exists rs : list R,
    Harvest.pX_Y n p mu yc = Some (map Np.Fin rs) /\
    Forall (fun r => 0 <= r <= 1) rs.
Proof.
  intros Hn Hp Hmu.
  destruct (conditional_closed_form n p mu yc Hn Hp Hmu) as [HZ Hv].
  set (Z := Rsum (map (cond_mass n p mu yc) (seq 0 (n + 1)))) in *.
  exists (map (fun k => cond_mass n p mu yc k / Z) (seq 0 (n + 1))).
  split; [rewrite Hv, map_map; reflexivity|].
  rewrite Forall_forall. intros r Hr. apply in_map_iff in Hr.
  destruct Hr as (k & <- & Hk).
  assert (Hp' : 0 <= p <= 1) by lra.
  pose proof (cond_mass_nonneg n p mu yc k Hp') as H0.
  assert (Hle : cond_mass n p mu yc k <= Z).
  { apply Rsum_In_le.
    - rewrite Forall_forall. intros v Hv'. apply in_map_iff in Hv'.
      destruct Hv' as (j & <- & _). apply cond_mass_nonneg, Hp'.
    - apply in_map. exact Hk. }
  split.
  - apply Rmult_le_pos; [exact H0 | left; apply Rinv_0_lt_compat; exact HZ].
  - apply Rmult_le_reg_r with Z; [exact HZ|].
    unfold Rdiv. rewrite Rmult_assoc, Rinv_l by lra. lra.
Qed.

Lemma harvest_conditional_probabilities_witness :
  exists rs : list R,
    Harvest.pX_Y 3 (1/2) 2 (5/2) = Some (map Np.Fin rs) /\
    Forall (fun r => 0 <= r <= 1) rs.
Proof.
  apply (harvest_conditional_probabilities 3 (1/2) 2 (5/2)); [lia | lra | lra].
Defined.

(** ** The conditional against the joint table *)

Lemma pXY_row (n : nat) (p mu : R) (y_cond : option R) (l : nat) :
  0 <= p <= 1 -> 0 <= mu -> INR l <= Harvest.Ymax n p mu y_cond ->
  nth l (Harvest.pXY n p mu y_cond) []
  = map (joint_mass n p mu l) (seq 0 (n + 1)).
Proof.
  intros Hp Hmu Hl.
  destruct (harvest_rows n p mu y_cond Hp Hmu) as (L & Hy & HL).
  assert (HlL : (l <= L)%nat) by (apply INR_le; lra).
  unfold Harvest.pXY. rewrite Hy. rewrite nth_map_seq by lia.
  reflexivity.
Qed.

Lemma pY_entry (n : nat) (p mu : R) (y_cond : option R) (l : nat) :
  0 <= p <= 1 -> 0 <= mu -> INR l <= Harvest.Ymax n p mu y_cond ->
  nth l (Harvest.pY n p mu y_cond) 0
  = Rsum (map (joint_mass n p mu l) (seq 0 (n + 1))).
Proof.
  intros Hp Hmu Hl. rewrite <- (pXY_row n p mu y_cond l Hp Hmu Hl).
  destruct (harvest_rows n p mu y_cond Hp Hmu) as (L & Hy & HL).
  assert (HlL : (l <= L)%nat) by (apply INR_le; lra).
  unfold Harvest.pY.
  rewrite (nth_map_default Rsum _ [] 0).
  - reflexivity.
  - unfold Harvest.pXY. rewrite length_map, Hy, length_seq. lia.
Qed.

Lemma cond_mass_count (n : nat) (p mu : R) (m k : nat) :
  0 < mu -> (0 < m)%nat ->
  cond_mass n p mu (INR m) k = joint_mass n p mu m k * INR (fact m).
Proof.
  intros Hmu Hm. destruct k as [|k'].
  - rewrite joint_mass_0 by exact Hm. simpl. ring.
  - unfold cond_mass, joint_mass, poisson_pmf.
    assert (Hkm : 0 < INR (S k') * mu).
    { apply Rmult_lt_0_compat; [|exact Hmu]. apply lt_0_INR. lia. }
    rewrite Rpower_pow by exact Hkm. field. apply INR_fact_neq_0.
Qed.

(** Bayes' rule ties the three outputs together: for an observed count
    [m > 0], a positive integer [n], [0 < p <= 1] and [mu > 0], the
    conditional vector is row [m] of the joint table divided by entry
    [m] of the marginal, which is positive. *)
Theorem harvest_conditional_is_joint_over_marginal (n : nat) (p mu : R) (m : nat) :
  (1 <= n)%nat -> 0 < p <= 1 -> 0 < mu -> (0 < m)%nat ->
  let row := nth m (Harvest.pXY n p mu (Some (INR m))) [] in
  let marg := nth m (Harvest.pY n p mu (Some (INR m))) 0 in
  0 < marg /\
  Harvest.pX_Y n p mu (INR m) = Some (map (fun v => Np.Fin (v / marg)) row).
Proof.
  intros Hn Hp Hmu Hm row marg.
  assert (Hp' : 0 <= p <= 1) by lra.
  assert (Hmu' : 0 <= mu) by lra.
  pose proof (Ymax_ge_y_cond n p mu (INR m)) as HY.
  assert (Hrow : row = map (joint_mass n p mu m) (seq 0 (n + 1))).
  { apply pXY_row; assumption. }
  assert (Hmarg : marg = Rsum (map (joint_mass n p mu m) (seq 0 (n + 1)))).
  { apply pY_entry; assumption. }
  destruct (conditional_closed_form n p mu (INR m) Hn Hp Hmu) as [HZ Hv].
  assert (HZU : Rsum (map (cond_mass n p mu (INR m)) (seq 0 (n + 1)))
                = marg * INR (fact m)).
  { rewrite Hmarg, <- Rsum_map_scal. apply Rsum_map_ext.
    intros k _. apply cond_mass_count; assumption. }
  pose proof (INR_fact_lt_0 m) as Hf.
  assert (Hpos : 0 < marg).
  { rewrite HZU in HZ. nra. }
  split; [exact Hpos|].
  rewrite Hv, Hrow, map_map. f_equal. apply map_ext. intros k.
  f_equal. rewrite HZU, cond_mass_count by assumption. field. split; lra.
Qed.

Lemma harvest_conditional_is_joint_over_marginal_witness :
  let row := nth 4 (Harvest.pXY 3 (1/2) 2 (Some (INR 4))) [] in
  let marg := nth 4 (Harvest.pY 3 (1/2) 2 (Some (INR 4))) 0 in
  0 < marg /\
  Harvest.pX_Y 3 (1/2) 2 (INR 4) = Some (map (fun v => Np.Fin (v / marg)) row).
Proof.
  apply (harvest_conditional_is_joint_over_marginal 3 (1/2) 2 4);
    [lia | lra | lra | lia].
Defined.

(** ** The two ends of [p] *)

Lemma binom_pmf_p1 (n k : nat) : (k < n)%nat -> binom_pmf n 1 k = 0.
Proof.
  intros Hk. unfold binom_pmf.
  destruct (k <=? n)%nat; [|reflexivity].
  replace (1 - 1) with 0 by lra. rewrite (pow_i (n - k)) by lia. ring.
Qed.

Lemma binom_pmf_p0 (n k : nat) : (1 <= k)%nat -> binom_pmf n 0 k = 0.
Proof.
  intros Hk. unfold binom_pmf.
  destruct (k <=? n)%nat; [|reflexivity].
  rewrite (pow_i k) by lia. ring.
Qed.

Lemma Rsum_zeros {A : Type} (f : A -> R) (l : list A) :
  (forall a, In a l -> f a = 0) -> Rsum (map f l) = 0.
Proof.
  induction l as [|h t IH]; intros H; simpl.
  - reflexivity.
  - rewrite Rsum_cons, (H h) by (left; reflexivity).
    rewrite IH by (intros; apply H; right; assumption). lra.
Qed.

Lemma cond_mass_p1_below (n : nat) (mu yc : R) (k : nat) :
  (k < n)%nat -> cond_mass n 1 mu yc k = 0.
Proof.
  intros Hk. destruct k as [|k']; [reflexivity|].
  unfold cond_mass. rewrite binom_pmf_p1 by exact Hk. ring.
Qed.

(** At [p = 1] every seed grows: whatever [y_cond] is, the conditional
    is the point mass at [k = n], zero below and exactly one there. *)
Theorem harvest_conditional_p1 (n : nat) (mu yc : R) :
  (1 <= n)%nat -> 0 < mu ->
  exists c,
    Harvest.pX_Y n 1 mu yc = Some c /\
    (forall k, (k < n)%nat -> nth k c Np.NaN = Np.Fin 0) /\
    nth n c Np.NaN = Np.Fin 1.
Proof.
  intros Hn Hmu.
  destruct (conditional_closed_form n 1 mu yc Hn) as [HZ Hv]; [lra | exact Hmu |].
  set (Z := Rsum (map (cond_mass n 1 mu yc) (seq 0 (n + 1)))) in *.
  assert (HZn : Z = cond_mass n 1 mu yc n).
  { unfold Z. rewrite Nat.add_1_r, seq_S, map_app, Rsum_app. simpl.
    rewrite Rsum_cons, Rsum_nil.
    rewrite Rsum_zeros.
    - lra.
    - intros k Hk. apply in_seq in Hk. apply cond_mass_p1_below. lia. }
  eexists. split; [exact Hv|]. split.
  - intros k Hk. rewrite nth_map_seq by lia.
    rewrite cond_mass_p1_below by exact Hk. f_equal. field. lra.
  - rewrite nth_map_seq by lia. f_equal. rewrite <- HZn. field. lra.
Qed.

Lemma harvest_conditional_p1_witness :
  exists c,
    Harvest.pX_Y 3 1 2 5 = Some c /\
    (forall k, (k < 3)%nat -> nth k c Np.NaN = Np.Fin 0) /\
    nth 3 c Np.NaN = Np.Fin 1.
Proof.
  apply (harvest_conditional_p1 3 2 5); [lia | lra].
Defined.

Lemma max_from_all_ninf (m : nat) : Py.max_from Np.NInf (repeat Np.NInf m) = Np.NInf.
Proof. induction m as [|m IH]; simpl; [reflexivity | exact IH]. Qed.

Lemma div_nan_l (v : Np.float) : Np.div Np.NaN v = Np.NaN.
Proof. destruct v; reflexivity. Qed.

(** At [p = 0] no seed grows and the conditional is undefined: for
    every [n], every [mu > 0] and every [y_cond] all [n + 1] entries
    returned are NaN. *)
Theorem harvest_conditional_p0_all_nan (n : nat) (mu yc : R) :
  0 < mu -> Harvest.pX_Y n 0 mu yc = Some (repeat Np.NaN (n + 1)).
Proof.
  intros Hmu.
  assert (Hlv : log_values n 0 mu yc = repeat Np.NInf (S n)).
  { unfold log_values. cbn [repeat]. f_equal.
    rewrite (map_ext_in _ (fun _ => Np.NInf)).
    - rewrite map_const, length_seq. reflexivity.
    - intros k Hk. apply in_seq in Hk.
      apply log_term_no_mass; [apply binom_pmf_p0; lia | exact Hmu | lia]. }
  unfold Harvest.pX_Y. rewrite code_log_values, Hlv.
  unfold Harvest.cond_step4. cbn [repeat Py.max].
  rewrite max_from_all_ninf.
  change (Np.NInf :: repeat Np.NInf n) with (repeat Np.NInf (S n)).
  rewrite map_repeat. cbn [Np.sub Np.neg Np.add Np.exp].
  unfold Harvest.cond_step5. rewrite map_repeat, div_nan_l, Nat.add_1_r.
  reflexivity.
Qed.

Lemma harvest_conditional_p0_all_nan_witness :
  Harvest.pX_Y 4 0 2 3 = Some (repeat Np.NaN (4 + 1)).
Proof. apply (harvest_conditional_p0_all_nan 4 2 3). lra. Defined.

(** ** Values of the joint table and the marginal *)

Lemma exp_neg_scaled (mu : R) (k : nat) : exp (- (INR k * mu)) = exp (- mu) ^ k.
Proof.
  induction k as [|k IH].
  - simpl. rewrite Rmult_0_l, Ropp_0. apply exp_0.
  - rewrite S_INR. simpl pow. rewrite <- IH, <- exp_plus. f_equal. ring.
Qed.

(** The first entry of the marginal, the probability of harvesting
    nothing, is [(1 - p + p * exp(-mu))^n] for [p] in [0,1] and
    [mu >= 0]. *)
Theorem harvest_marginal_at_zero (n : nat) (p mu : R) (y_cond : option R) :
  0 <= p <= 1 -> 0 <= mu ->
  nth 0 (Harvest.pY n p mu y_cond) 0 = (1 - p + p * exp (- mu)) ^ n.
Proof.
  intros Hp Hmu.
  rewrite pY_entry; try assumption.
  2:{ simpl INR. pose proof (Ymax0_nonneg n p mu Hp Hmu).
      pose proof (Ymax_ge n p mu y_cond). lra. }
  rewrite Nat.add_1_r, Rsum_seq_sum_f_R0.
  replace (1 - p + p * exp (- mu)) with (p * exp (- mu) + (1 - p)) by ring.
  rewrite binomial. apply sum_eq. intros k Hk.
  unfold joint_mass, binom_pmf, poisson_pmf.
  apply Nat.leb_le in Hk. rewrite Hk.
  rewrite exp_neg_scaled, pow_O, Rpow_mult_distr.
  change (INR (fact 0)) with 1. field.
Qed.

Lemma harvest_marginal_at_zero_witness :
  nth 0 (Harvest.pY 3 (1/2) 2 None) 0 = (1 - 1/2 + 1/2 * exp (- 2)) ^ 3.
Proof. apply (harvest_marginal_at_zero 3 (1/2) 2 None); lra. Defined.

(** For [p] in [0,1] and [mu >= 0] every entry of the joint table and
    every entry of the marginal is a probability: it lies between 0
    and 1. *)
Theorem harvest_entries_are_probabilities (n : nat) (p mu : R) (y_cond : option R) :
  0 <= p <= 1 -> 0 <= mu ->
  Forall (Forall (fun v => 0 <= v <= 1)) (Harvest.pXY n p mu y_cond) /\
  Forall (fun v => 0 <= v <= 1) (Harvest.pY n p mu y_cond).
Proof.
  intros Hp Hmu.
  assert (Hrows : Forall (Forall (fun v => 0 <= v)) (Harvest.pXY n p mu y_cond)).
  { unfold Harvest.pXY. rewrite Forall_forall. intros row Hrow.
    apply in_map_iff in Hrow. destruct Hrow as (l & <- & _).
    rewrite Forall_forall. intros v Hv. apply in_map_iff in Hv.
    destruct Hv as (k & <- & _). apply (joint_mass_nonneg n p mu l k Hp Hmu). }
  assert (HpY : Forall (fun v => 0 <= v) (Harvest.pY n p mu y_cond)).
  { unfold Harvest.pY. rewrite Forall_forall. intros v Hv.
    apply in_map_iff in Hv. destruct Hv as (row & <- & Hrow).
    apply Rsum_nonneg. rewrite Forall_forall in Hrows. apply Hrows, Hrow. }
  pose proof (pY_total n p mu y_cond Hp Hmu) as [_ Htot].
  assert (Hmarg : forall v, In v (Harvest.pY n p mu y_cond) -> 0 <= v <= 1).
  { intros v Hv. split; [rewrite Forall_forall in HpY; apply HpY, Hv|].
    pose proof (Rsum_In_le _ v HpY Hv). lra. }
  split.
  - rewrite Forall_forall. intros row Hrow. rewrite Forall_forall. intros v Hv.
    rewrite Forall_forall in Hrows. pose proof (Hrows row Hrow) as Hnn.
    split; [rewrite Forall_forall in Hnn; apply Hnn, Hv|].
    pose proof (Rsum_In_le row v Hnn Hv) as H1.
    assert (H2 : In (Rsum row) (Harvest.pY n p mu y_cond)).
    { unfold Harvest.pY. apply in_map. exact Hrow. }
    destruct (Hmarg _ H2). lra.
  - rewrite Forall_forall. exact Hmarg.
Qed.

Lemma harvest_entries_are_probabilities_witness :
  Forall (Forall (fun v => 0 <= v <= 1)) (Harvest.pXY 3 (1/2) 2 (Some 9)) /\
  Forall (fun v => 0 <= v <= 1) (Harvest.pY 3 (1/2) 2 (Some 9)).
Proof. apply (harvest_entries_are_probabilities 3 (1/2) 2 (Some 9)); lra. Defined.

(* ================================================================= *)
(** * Further properties of [skattningar] *)

Section SimulationModes.
Context {N : StdNormal} {G : Sampler}.

(** For [sigma > 0] and sample sizes of at least 2, whatever
    [alternativ] is, [skattningar] consumes the same two draws from the
    generator; it creates exactly one figure for each of the three
    accepted strings and none for any other string, so a rejected call
    still advances the generator. *)
Theorem skattningar_effects (mu sigma : R) (n0 n1 : nat) (alternativ : string)
  (g : rng) (plt : pyplot) :
  0 < sigma -> (2 <= n0)%nat -> (2 <= n1)%nat ->
  (In alternativ ["muskatt"; "sigmaskatt"; "konfint"] ->
   exists fig,
     Skattningar.skattningar mu sigma (n0, n1) alternativ g plt
     = (Ok fig, rng_after_draws g mu sigma n0 n1, S plt)) /\
  (~ In alternativ ["muskatt"; "sigmaskatt"; "konfint"] ->
   exists e,
     Skattningar.skattningar mu sigma (n0, n1) alternativ g plt
     = (ValueError e, rng_after_draws g mu sigma n0 n1, plt)).
Proof.
  intros _ _ _.
  unfold Skattningar.skattningar, rng_after_draws.
  destruct (norm_rvs g mu sigma (n0 * Skattningar.n_sim)) as [xflat g1].
  cbn [snd].
  destruct (norm_rvs g1 mu sigma (n1 * Skattningar.n_sim)) as [yflat g2].
  cbn [snd]. split.
  - intros [<- | [<- | [<- | []]]]; simpl String.eqb; cbv iota;
      eexists; reflexivity.
  - intros Hn.
    rewrite !eqb_neq_false by (intros ->; apply Hn; simpl; tauto).
    eexists. reflexivity.
Qed.

Lemma np_mean_row (row : list R) (nj : nat) :
  List.length row = nj -> np_mean row = Rsum row / INR nj.
Proof. intros <-. reflexivity. Qed.

(** In the mean mode each of the 1000 estimates per sample is the sum
    of its row of [n_j] draws divided by [n_j]; both panels carry the
    reference line at [mu] and the same window, which for [sigma > 0]
    holds [mu] strictly inside. *)
Theorem skattningar_muskatt (mu sigma : R) (n0 n1 : nat) (g : rng) (plt : pyplot) :
  0 < sigma -> (1 <= n0)%nat -> (1 <= n1)%nat ->
  exists P0 P1 g',
    Skattningar.skattningar mu sigma (n0, n1) "muskatt" g plt
    = (Ok (Skattningar.FigHist P0 P1), g', plt_subplots plt) /\
    mean_panel_ok mu sigma n0 n1 n0 (fst (drawn_samples g mu sigma n0 n1)) P0 /\
    mean_panel_ok mu sigma n0 n1 n1 (snd (drawn_samples g mu sigma n0 n1)) P1 /\
    fst (Skattningar.hist_xlim P0) < mu < snd (Skattningar.hist_xlim P0).
Proof.
  intros Hsig Hn0 Hn1.
  pose proof (drawn_samples_shape g mu sigma n0 n1) as Hshape.
  unfold Skattningar.skattningar, drawn_samples in *.
  destruct (norm_rvs g mu sigma (n0 * Skattningar.n_sim)) as [xflat g1].
  destruct (norm_rvs g1 mu sigma (n1 * Skattningar.n_sim)) as [yflat g2].
  destruct Hshape as (Hx & Hy & Hrx & Hry).
  simpl String.eqb. cbv iota. cbn [fst snd].
  do 3 eexists. split; [reflexivity|].
  assert (Hpanel : forall nj sample,
            List.length sample = 1000%nat ->
            (forall i, (i < 1000)%nat -> List.length (nth i sample []) = nj) ->
            mean_panel_ok mu sigma n0 n1 nj sample
              (Skattningar.mkHist (map np_mean sample) nj mu
                 (mu - 3 * sigma / sqrt (INR (Nat.min n0 n1)),
                  mu + 3 * sigma / sqrt (INR (Nat.min n0 n1))))).
  { intros nj sample Hlen Hrows. unfold mean_panel_ok.
    cbn [Skattningar.hist_x Skattningar.hist_axvline Skattningar.hist_xlim].
    split; [rewrite length_map; exact Hlen|].
    split; [|split; reflexivity].
    intros i Hi. cbv zeta. split; [apply Hrows, Hi|].
    rewrite (nth_map_default np_mean sample [] 0) by (rewrite Hlen; exact Hi).
    apply np_mean_row, Hrows, Hi. }
  split; [apply Hpanel; assumption|]. split; [apply Hpanel; assumption|].
  cbn [Skattningar.hist_xlim fst snd].
  assert (Hw : 0 < 3 * sigma / sqrt (INR (Nat.min n0 n1))).
  { apply Rdiv_lt_0_compat; [lra|]. apply sqrt_lt_R0, lt_0_INR. lia. }
  lra.
Qed.

Lemma np_var_nonneg (row : list R) : 0 <= np_var row.
Proof.
  unfold np_var, np_mean. rewrite length_map.
  destruct row as [|h t].
  - simpl. rewrite Rsum_nil. unfold Rdiv. rewrite Rmult_0_l. lra.
  - apply Rmult_le_pos.
    + apply Rsum_nonneg. rewrite Forall_forall. intros v Hv.
      apply in_map_iff in Hv. destruct Hv as (w & <- & _). apply pow2_ge_0.
    + left. apply Rinv_0_lt_compat, lt_0_INR. simpl. lia.
Qed.

(** In the variance mode, for [sigma > 0] and sample sizes of at least
    2, no estimate is negative, so none falls left of the lower axis
    limit, which is 0 in both panels. *)
Theorem skattningar_sigmaskatt_nonneg (mu sigma : R) (n0 n1 : nat) (g : rng)
  (plt : pyplot) :
  0 < sigma -> (2 <= n0)%nat -> (2 <= n1)%nat ->
  exists P0 P1 g',
    Skattningar.skattningar mu sigma (n0, n1) "sigmaskatt" g plt
    = (Ok (Skattningar.FigHist P0 P1), g', plt_subplots plt) /\
    fst (Skattningar.hist_xlim P0) = 0 /\ fst (Skattningar.hist_xlim P1) = 0 /\
    Forall (fun v => 0 <= v) (Skattningar.hist_x P0) /\
    Forall (fun v => 0 <= v) (Skattningar.hist_x P1).
Proof.
  intros _ _ _.
  unfold Skattningar.skattningar.
  destruct (norm_rvs g mu sigma (n0 * Skattningar.n_sim)) as [xflat g1].
  destruct (norm_rvs g1 mu sigma (n1 * Skattningar.n_sim)) as [yflat g2].
  simpl String.eqb. cbv iota.
  do 3 eexists. split; [reflexivity|].
  cbn [Skattningar.hist_xlim Skattningar.hist_x fst].
  split; [reflexivity|]. split; [reflexivity|].
  split; rewrite Forall_forall; intros v Hv; apply in_map_iff in Hv;
    destruct Hv as (row & <- & _); apply np_var_nonneg.
Qed.

End SimulationModes.

Lemma skattningar_effects_witness :
  (In "bogus" ["muskatt"; "sigmaskatt"; "konfint"] ->
   exists fig,
     @Skattningar.skattningar uniform_law constant_sampler 0 1 (10, 100)%nat
       "bogus" tt 0%nat
     = (Ok fig, @rng_after_draws constant_sampler tt 0 1 10 100, 1%nat)) /\
  (~ In "bogus" ["muskatt"; "sigmaskatt"; "konfint"] ->
   exists e,
     @Skattningar.skattningar uniform_law constant_sampler 0 1 (10, 100)%nat
       "bogus" tt 0%nat
     = (ValueError e, @rng_after_draws constant_sampler tt 0 1 10 100, 0%nat)).
Proof.
  apply (@skattningar_effects uniform_law constant_sampler 0 1 10 100 "bogus" tt 0%nat);
    [lra | lia | lia].
Defined.

Lemma skattningar_sigmaskatt_nonneg_witness :
  exists P0 P1 g',
    @Skattningar.skattningar uniform_law constant_sampler 0 1 (10, 100)%nat
      "sigmaskatt" tt 0%nat
    = (Ok (Skattningar.FigHist P0 P1), g', plt_subplots 0%nat) /\
    fst (Skattningar.hist_xlim P0) = 0 /\ fst (Skattningar.hist_xlim P1) = 0 /\
    Forall (fun v => 0 <= v) (Skattningar.hist_x P0) /\
    Forall (fun v => 0 <= v) (Skattningar.hist_x P1).
Proof.
  apply (@skattningar_sigmaskatt_nonneg uniform_law constant_sampler
           0 1 10 100 tt 0%nat); [lra | lia | lia].
Defined.

Lemma skattningar_muskatt_witness :
  exists P0 P1 g',
    @Skattningar.skattningar uniform_law constant_sampler 0 1 (10, 100)%nat
      "muskatt" tt 0%nat
    = (Ok (Skattningar.FigHist P0 P1), g', plt_subplots 0%nat) /\
    mean_panel_ok 0 1 10 100 10
      (fst (@drawn_samples constant_sampler tt 0 1 10 100)) P0 /\
    mean_panel_ok 0 1 10 100 100
      (snd (@drawn_samples constant_sampler tt 0 1 10 100)) P1 /\
    fst (Skattningar.hist_xlim P0) < 0 < snd (Skattningar.hist_xlim P0).
Proof.
  apply (@skattningar_muskatt uniform_law constant_sampler 0 1 10 100 tt 0%nat);
    [lra | lia | lia].
Defined.

(** ** What the confidence-interval panels show *)

Lemma nth_firstn_lt {A : Type} (n i : nat) (l : list A) (d : A) :
  (i < n)%nat -> nth i (firstn n l) d = nth i l d.
Proof.
  intros Hi. rewrite nth_firstn.
  apply Nat.ltb_lt in Hi. rewrite Hi. reflexivity.
Qed.

Lemma colour_of_red (b : bool) : Skattningar.colour_of b = Skattningar.red <-> b = true.
Proof. destruct b; simpl; split; intros H; try reflexivity; discriminate H. Qed.

Section ConfidenceDisplay.
Context {N : StdNormal} {G : Sampler}.

Lemma half_width_pos (sigma : R) (nj : nat) :
  0 < sigma -> (1 <= nj)%nat -> 0 < std_ppf 0.975 * sigma / sqrt (INR nj).
Proof.
  intros Hsig Hn. apply Rdiv_lt_0_compat.
  - apply Rmult_lt_0_compat; [apply std_ppf_upper_pos; lra | exact Hsig].
  - apply sqrt_lt_R0, lt_0_INR. lia.
Qed.

Lemma ci_panel_display (mu sigma : R) (nj : nat) (sample : list (list R))
  (P : Skattningar.ci_panel) :
  0 < sigma -> (1 <= nj)%nat -> List.length sample = 1000%nat ->
  ci_panel_ok mu sigma nj sample P -> ci_display_ok mu sigma nj P.
Proof.
  intros Hsig Hn Hlen (I & HI & Hcls & Hmiss & Hmin & Hmax & Hcol).
  pose proof (half_width_pos sigma nj Hsig Hn) as Hw.
  set (w := std_ppf 0.975 * sigma / sqrt (INR nj)) in *.
  unfold ci_display_ok. fold w. rewrite Hmin, Hmax, Hcol, Hmiss.
  rewrite !length_firstn, !length_map, Hlen, HI.
  split; [reflexivity|]. split; [reflexivity|]. split; [reflexivity|].
  split.
  { pose proof (count_occ_bound bool_dec true I) as Hb. rewrite HI in Hb.
    apply le_INR in Hb. rewrite INR_1000 in Hb.
    pose proof (pos_INR (count_occ bool_dec I true)). lra. }
  intros i Hi. cbv zeta.
  assert (Hi' : (i < 1000)%nat) by lia.
  rewrite !nth_firstn_lt by exact Hi.
  destruct (Hcls i Hi') as [_ Hout].
  rewrite (nth_map_default (fun row => np_mean row - w) sample [] 0) in *
    by (rewrite Hlen; exact Hi').
  rewrite (nth_map_default (fun row => np_mean row + w) sample [] 0) in *
    by (rewrite Hlen; exact Hi').
  split; [ring|]. split; [lra|].
  rewrite (nth_map_default Skattningar.colour_of I false Skattningar.blue)
    by (rewrite HI; exact Hi').
  rewrite colour_of_red. exact Hout.
Qed.

Lemma konfint_display_holds (mu sigma : R) (n0 n1 : nat) (g : rng)
  (plt : pyplot) :
  0 < sigma -> (1 <= n0)%nat -> (1 <= n1)%nat ->
  exists P0 P1 g',
    Skattningar.skattningar mu sigma (n0, n1) "konfint" g plt
    = (Ok (Skattningar.FigCI P0 P1), g', plt_subplots plt) /\
    ci_display_ok mu sigma n0 P0 /\ ci_display_ok mu sigma n1 P1.
Proof.
  intros Hsig Hn0 Hn1.
  pose proof (drawn_samples_shape g mu sigma n0 n1) as Hshape.
  unfold Skattningar.skattningar, drawn_samples in *.
  destruct (norm_rvs g mu sigma (n0 * Skattningar.n_sim)) as [xflat g1].
  destruct (norm_rvs g1 mu sigma (n1 * Skattningar.n_sim)) as [yflat g2].
  destruct Hshape as (Hx & Hy & _ & _).
  simpl String.eqb. cbv iota. cbn [fst snd].
  do 3 eexists. split; [reflexivity|]. split.
  - apply (ci_panel_display mu sigma n0 (Np.reshape xflat Skattningar.n_sim n0));
      try assumption. apply ci_panel_holds; assumption.
  - apply (ci_panel_display mu sigma n1 (Np.reshape yflat Skattningar.n_sim n1));
      try assumption. apply ci_panel_holds; assumption.
Qed.

(** In the confidence-interval mode, for [sigma > 0] and positive
    sample sizes, each panel draws exactly 100 intervals, all of the
    same positive width [2 * z_0.975 * sigma / sqrt(n_j)]; an interval
    is red exactly when [mu] lies outside it; and the miss rate shown
    lies between 0 and 1. *)
Theorem skattningar_konfint_display (mu sigma : R) (n0 n1 : nat) (g : rng)
  (plt : pyplot) :
  0 < sigma -> (1 <= n0)%nat -> (1 <= n1)%nat ->
  exists P0 P1 g',
    Skattningar.skattningar mu sigma (n0, n1) "konfint" g plt
    = (Ok (Skattningar.FigCI P0 P1), g', plt_subplots plt) /\
    ci_display_ok mu sigma n0 P0 /\ ci_display_ok mu sigma n1 P1.
Proof. apply konfint_display_holds. Qed.

(** The larger sample gives the narrower intervals: with [n0 <= n1]
    every interval of the second panel is at most as wide as every
    interval of the first. *)
Theorem skattningar_konfint_narrower (mu sigma : R) (n0 n1 : nat) (g : rng)
  (plt : pyplot) :
  0 < sigma -> (1 <= n0)%nat -> (n0 <= n1)%nat ->
  exists P0 P1 g',
    Skattningar.skattningar mu sigma (n0, n1) "konfint" g plt
    = (Ok (Skattningar.FigCI P0 P1), g', plt_subplots plt) /\
    forall i j, (i < 100)%nat -> (j < 100)%nat ->
      nth j (Skattningar.ci_xmax P1) 0 - nth j (Skattningar.ci_xmin P1) 0
      <= nth i (Skattningar.ci_xmax P0) 0 - nth i (Skattningar.ci_xmin P0) 0.
Proof.
  intros Hsig Hn0 Hn01.
  assert (Hn1 : (1 <= n1)%nat) by lia.
  destruct (konfint_display_holds mu sigma n0 n1 g plt Hsig Hn0 Hn1)
    as (P0 & P1 & g' & Hrun & HP0 & HP1).
  exists P0, P1, g'. split; [exact Hrun|].
  intros i j Hi Hj.
  destruct HP0 as (_ & _ & _ & _ & H0). destruct HP1 as (_ & _ & _ & _ & H1).
  destruct (H0 i Hi) as [E0 _]. destruct (H1 j Hj) as [E1 _].
  rewrite E0, E1.
  assert (Hz : 0 < std_ppf 0.975 * sigma).
  { apply Rmult_lt_0_compat; [apply std_ppf_upper_pos; lra | exact Hsig]. }
  assert (Hs0 : 0 < sqrt (INR n0)) by (apply sqrt_lt_R0, lt_0_INR; lia).
  assert (Hs01 : sqrt (INR n0) <= sqrt (INR n1)).
  { apply sqrt_le_1_alt, le_INR, Hn01. }
  assert (Hinv : / sqrt (INR n1) <= / sqrt (INR n0)).
  { apply Rinv_le_contravar; assumption. }
  unfold Rdiv. nra.
Qed.

End ConfidenceDisplay.

Lemma skattningar_konfint_display_witness :
  exists P0 P1 g',
    @Skattningar.skattningar uniform_law constant_sampler 0 1 (10, 100)%nat
      "konfint" tt 0%nat
    = (Ok (Skattningar.FigCI P0 P1), g', plt_subplots 0%nat) /\
    @ci_display_ok uniform_law 0 1 10 P0 /\ @ci_display_ok uniform_law 0 1 100 P1.
Proof.
  apply (@skattningar_konfint_display uniform_law constant_sampler 0 1 10 100 tt 0%nat);
    [lra | lia | lia].
Defined.

Lemma skattningar_konfint_narrower_witness :
  exists P0 P1 g',
    @Skattningar.skattningar uniform_law constant_sampler 0 1 (10, 100)%nat
      "konfint" tt 0%nat
    = (Ok (Skattningar.FigCI P0 P1), g', plt_subplots 0%nat) /\
    forall i j, (i < 100)%nat -> (j < 100)%nat ->
      nth j (Skattningar.ci_xmax P1) 0 - nth j (Skattningar.ci_xmin P1) 0
      <= nth i (Skattningar.ci_xmax P0) 0 - nth i (Skattningar.ci_xmin P0) 0.
Proof.
  apply (@skattningar_konfint_narrower uniform_law constant_sampler 0 1 10 100 tt 0%nat);
    [lra | lia | lia].
Defined.

(** ** The axis limits of the confidence-interval panels *)

Lemma fold_left_Rmax_ge_acc (l : list R) (a : R) : a <= fold_left Rmax l a.
Proof.
  revert a. induction l as [|h t IH]; intros a; simpl.
  - lra.
  - apply Rle_trans with (Rmax a h); [apply Rmax_l | apply IH].
Qed.

Lemma fold_left_Rmax_ge_in (l : list R) (a v : R) :
  In v l -> v <= fold_left Rmax l a.
Proof.
  revert a. induction l as [|h t IH]; intros a Hin; [destruct Hin|].
  simpl. destruct Hin as [<- | Hin].
  - apply Rle_trans with (Rmax a h); [apply Rmax_r | apply fold_left_Rmax_ge_acc].
  - apply IH, Hin.
Qed.

Lemma Rlist_max_ge (l : list R) (v : R) : In v l -> v <= Rlist_max l.
Proof.
  destruct l as [|h t]; intros Hin; [destruct Hin|].
  simpl. destruct Hin as [<- | Hin].
  - apply fold_left_Rmax_ge_acc.
  - apply fold_left_Rmax_ge_in, Hin.
Qed.

Lemma in_zip_pairs (f1 f2 : R -> R) (l1 l2 : list R) (e : R) :
  List.length l1 = List.length l2 ->
  In e l1 \/ In e l2 ->
  In (f1 e) (List.concat (zip_with (fun a b => [f1 a; f2 b]) l1 l2)) \/
  In (f2 e) (List.concat (zip_with (fun a b => [f1 a; f2 b]) l1 l2)).
Proof.
  revert l2. induction l1 as [|a t1 IH]; intros [|b t2] Hlen Hin;
    simpl in Hlen; try discriminate Hlen.
  - destruct Hin as [[]|[]].
  - injection Hlen as Hlen. simpl.
    destruct Hin as [[<- | Hin] | [<- | Hin]].
    + left. left. reflexivity.
    + destruct (IH t2 Hlen (or_introl Hin)) as [H|H]; [left | right]; right; right; exact H.
    + right. right. left. reflexivity.
    + destruct (IH t2 Hlen (or_intror Hin)) as [H|H]; [left | right]; right; right; exact H.
Qed.

Lemma abs_dev_max_bound (mu : R) (lo hi : list R) (e : R) :
  List.length lo = List.length hi ->
  In e (firstn Skattningar.n_plot lo) \/ In e (firstn Skattningar.n_plot hi) ->
  Rabs (e - mu) <= Skattningar.abs_dev_max mu lo hi.
Proof.
  intros Hlen Hin. unfold Skattningar.abs_dev_max. apply Rlist_max_ge.
  assert (Hl : List.length (firstn Skattningar.n_plot lo)
               = List.length (firstn Skattningar.n_plot hi)).
  { rewrite !length_firstn, Hlen. reflexivity. }
  destruct (in_zip_pairs (fun a => Rabs (a - mu)) (fun b => Rabs (b - mu))
              _ _ e Hl Hin) as [H|H]; exact H.
Qed.

Section ConfidenceLimits.
Context {N : StdNormal} {G : Sampler}.

(** For [sigma > 0] and positive sample sizes the two
    confidence-interval panels share one x-window, centred at [mu], and
    no plotted interval is clipped: every end of every drawn interval
    lies within the window. *)
Theorem skattningar_konfint_within_limits (mu sigma : R) (n0 n1 : nat) (g : rng)
  (plt : pyplot) :
  0 < sigma -> (1 <= n0)%nat -> (1 <= n1)%nat ->
  exists P0 P1 g',
    Skattningar.skattningar mu sigma (n0, n1) "konfint" g plt
    = (Ok (Skattningar.FigCI P0 P1), g', plt_subplots plt) /\
    Skattningar.ci_xlim P0 = Skattningar.ci_xlim P1 /\
    (fst (Skattningar.ci_xlim P0) + snd (Skattningar.ci_xlim P0)) / 2 = mu /\
    forall e,
      In e (Skattningar.ci_xmin P0) \/ In e (Skattningar.ci_xmax P0) \/
      In e (Skattningar.ci_xmin P1) \/ In e (Skattningar.ci_xmax P1) ->
      fst (Skattningar.ci_xlim P0) <= e <= snd (Skattningar.ci_xlim P0).
Proof.
  intros _ _ _.
  unfold Skattningar.skattningar.
  destruct (norm_rvs g mu sigma (n0 * Skattningar.n_sim)) as [xflat g1].
  destruct (norm_rvs g1 mu sigma (n1 * Skattningar.n_sim)) as [yflat g2].
  simpl String.eqb. cbv iota. cbn [fst snd].
  do 3 eexists. split; [reflexivity|].
  cbn [Skattningar.ci_xlim Skattningar.ci_xmin Skattningar.ci_xmax fst snd].
  split; [reflexivity|]. split; [field|].
  intros e He.
  set (x := Np.reshape xflat Skattningar.n_sim n0) in *.
  set (y := Np.reshape yflat Skattningar.n_sim n1) in *.
  set (w0 := std_ppf 0.975 * sigma / sqrt (INR n0)) in *.
  set (w1 := std_ppf 0.975 * sigma / sqrt (INR n1)) in *.
  set (Ax := Skattningar.abs_dev_max mu (Skattningar.CI_lo (map np_mean x) w0)
                                     (Skattningar.CI_hi (map np_mean x) w0)) in *.
  set (Ay := Skattningar.abs_dev_max mu (Skattningar.CI_lo (map np_mean y) w1)
                                     (Skattningar.CI_hi (map np_mean y) w1)) in *.
  assert (Hd : Rabs (e - mu) <= Rmax Ax Ay).
  { assert (Hlx : List.length (Skattningar.CI_lo (map np_mean x) w0)
                  = List.length (Skattningar.CI_hi (map np_mean x) w0)).
    { unfold Skattningar.CI_lo, Skattningar.CI_hi. rewrite !length_map. reflexivity. }
    assert (Hly : List.length (Skattningar.CI_lo (map np_mean y) w1)
                  = List.length (Skattningar.CI_hi (map np_mean y) w1)).
    { unfold Skattningar.CI_lo, Skattningar.CI_hi. rewrite !length_map. reflexivity. }
    destruct He as [He | [He | [He | He]]].
    - apply Rle_trans with Ax; [|apply Rmax_l].
      apply abs_dev_max_bound; [exact Hlx | left; exact He].
    - apply Rle_trans with Ax; [|apply Rmax_l].
      apply abs_dev_max_bound; [exact Hlx | right; exact He].
    - apply Rle_trans with Ay; [|apply Rmax_r].
      apply abs_dev_max_bound; [exact Hly | left; exact He].
    - apply Rle_trans with Ay; [|apply Rmax_r].
      apply abs_dev_max_bound; [exact Hly | right; exact He]. }
  pose proof (Rabs_pos (e - mu)) as H0.
  assert (Hd' : Rabs (e - mu) <= 1.2 * Rmax Ax Ay) by lra.
  unfold Rabs in Hd'. destruct (Rcase_abs (e - mu)); lra.
Qed.

End ConfidenceLimits.

Lemma skattningar_konfint_within_limits_witness :
  exists P0 P1 g',
    @Skattningar.skattningar uniform_law constant_sampler 0 1 (10, 100)%nat
      "konfint" tt 0%nat
    = (Ok (Skattningar.FigCI P0 P1), g', plt_subplots 0%nat) /\
    Skattningar.ci_xlim P0 = Skattningar.ci_xlim P1 /\
    (fst (Skattningar.ci_xlim P0) + snd (Skattningar.ci_xlim P0)) / 2 = 0 /\
    forall e,
      In e (Skattningar.ci_xmin P0) \/ In e (Skattningar.ci_xmax P0) \/
      In e (Skattningar.ci_xmin P1) \/ In e (Skattningar.ci_xmax P1) ->
      fst (Skattningar.ci_xlim P0) <= e <= snd (Skattningar.ci_xlim P0).
Proof.
  apply (@skattningar_konfint_within_limits uniform_law constant_sampler
           0 1 10 100 tt 0%nat); [lra | lia | lia].
Defined.

(* ================================================================= *)
(** * Further properties of [styrkefkn] *)

Section PowerShape.
Context {N : StdNormal}.

Lemma std_ppf_lower_neg (q : R) : 0 < q < 1 / 2 -> std_ppf q < 0.
Proof.
  intros Hq. destruct (Rlt_le_dec (std_ppf q) 0) as [H|H]; [exact H|].
  pose proof (std_cdf_mono _ _ H) as Hm.
  rewrite std_cdf_ppf, std_cdf_0 in Hm by lra. lra.
Qed.

Lemma std_ppf_ordered (q1 q2 : R) :
  0 < q1 < 1 -> 0 < q2 < 1 -> q1 < q2 -> std_ppf q1 < std_ppf q2.
Proof.
  intros H1 H2 Hlt.
  destruct (Rlt_le_dec (std_ppf q1) (std_ppf q2)) as [H|H]; [exact H|].
  pose proof (std_cdf_mono _ _ H) as Hm.
  rewrite !std_cdf_ppf in Hm by assumption. lra.
Qed.

Lemma boundaries_one_sided (mu0 s alpha : R) (riktning : string) :
  riktning = "<" \/ riktning = ">" ->
  exists k1 k2 a b,
    Styrkefkn.boundaries mu0 s alpha riktning = Ok (k1, k2, (a, b)) /\
    (riktning = "<" ->
       k1 = Np.Fin (norm_ppf alpha mu0 s) /\ k2 = Np.PInf) /\
    (riktning = ">" ->
       k1 = Np.NInf /\ k2 = Np.Fin (norm_ppf (1 - alpha) mu0 s)).
Proof.
  intros [-> | ->]; unfold Styrkefkn.boundaries; simpl String.eqb; cbv iota;
    do 4 eexists; (split; [reflexivity|]);
    split; intros E; try discriminate E; split; reflexivity.
Qed.

Lemma scaled_le (s u v k : R) : 0 < s -> u <= v -> (k - v) / s <= (k - u) / s.
Proof.
  intros Hs Huv. unfold Rdiv. apply Rmult_le_compat_r.
  - left. apply Rinv_0_lt_compat, Hs.
  - lra.
Qed.

(** For the one-sided tests, [sigma > 0], a positive [n] and
    [0 < alpha < 1], the power is monotone in the true mean: with '<'
    it never increases and with '>' it never decreases as the mean
    grows. *)
Theorem styrkefkn_one_sided_monotone (mu0 sigma : R) (n : nat) (alpha : R)
  (riktning : string) :
  0 < sigma -> (1 <= n)%nat -> 0 < alpha < 1 ->
  riktning = "<" \/ riktning = ">" ->
  let s := sigma / sqrt (INR n) in
  exists k1 k2 a b,
    Styrkefkn.boundaries mu0 s alpha riktning = Ok (k1, k2, (a, b)) /\
    forall u v, u <= v ->
      (riktning = "<" -> Styrkefkn.power k1 k2 s v <= Styrkefkn.power k1 k2 s u) /\
      (riktning = ">" -> Styrkefkn.power k1 k2 s u <= Styrkefkn.power k1 k2 s v).
Proof.
  intros Hsig Hn _ Hr s.
  pose proof (std_error_pos sigma n Hsig Hn) as Hs. fold s in Hs.
  destruct (boundaries_one_sided mu0 s alpha riktning Hr)
    as (k1 & k2 & a & b & Hb & Hlt & Hgt).
  exists k1, k2, a, b. split; [exact Hb|].
  intros u v Huv. split; intros E.
  - destruct (Hlt E) as [-> ->]. unfold Styrkefkn.power, norm_cdf.
    pose proof (std_cdf_mono _ _ (scaled_le s u v (norm_ppf alpha mu0 s) Hs Huv)).
    lra.
  - destruct (Hgt E) as [-> ->]. unfold Styrkefkn.power, norm_cdf.
    pose proof (std_cdf_mono _ _ (scaled_le s u v (norm_ppf (1 - alpha) mu0 s) Hs Huv)).
    lra.
Qed.

(** The critical boundary of a one-sided test is where the power
    crosses one half, for [sigma > 0], a positive [n] and
    [0 < alpha < 1]: with '<' the power is exactly 1/2 at [k1], at
    least 1/2 for every true mean at or below [k1] and at most 1/2 at
    or above it; with '>' it is 1/2 at [k2], at most 1/2 at or below
    [k2] and at least 1/2 at or above it. *)
Theorem styrkefkn_power_half_at_boundary (mu0 sigma : R) (n : nat) (alpha : R)
  (riktning : string) :
  0 < sigma -> (1 <= n)%nat -> 0 < alpha < 1 ->
  riktning = "<" \/ riktning = ">" ->
  let s := sigma / sqrt (INR n) in
  exists k1 k2 a b k,
    Styrkefkn.boundaries mu0 s alpha riktning = Ok (k1, k2, (a, b)) /\
    (riktning = "<" -> k1 = Np.Fin k /\ k2 = Np.PInf) /\
    (riktning = ">" -> k1 = Np.NInf /\ k2 = Np.Fin k) /\
    Styrkefkn.power k1 k2 s k = 1 / 2 /\
    forall v,
      (riktning = "<" ->
         (v <= k -> 1 / 2 <= Styrkefkn.power k1 k2 s v) /\
         (k <= v -> Styrkefkn.power k1 k2 s v <= 1 / 2)) /\
      (riktning = ">" ->
         (v <= k -> Styrkefkn.power k1 k2 s v <= 1 / 2) /\
         (k <= v -> 1 / 2 <= Styrkefkn.power k1 k2 s v)).
Proof.
  intros Hsig Hn _ Hr s.
  pose proof (std_error_pos sigma n Hsig Hn) as Hs. fold s in Hs.
  assert (Hzero : forall k, (k - k) / s = 0) by (intros k; unfold Rdiv; ring).
  assert (Hmono : forall k u v, u <= v ->
            std_cdf ((k - v) / s) <= std_cdf ((k - u) / s)).
  { intros k u v Huv. apply std_cdf_mono, scaled_le; assumption. }
  destruct Hr as [-> | ->]; unfold Styrkefkn.boundaries; simpl String.eqb;
    cbv iota; do 5 eexists; (split; [reflexivity|]).
  - split; [intros _; split; reflexivity|].
    split; [intros E; discriminate E|].
    unfold Styrkefkn.power, norm_cdf. split.
    + rewrite Hzero, std_cdf_0. lra.
    + intros v. split; [intros _ | intros E; discriminate E]. split; intros Hv.
      * pose proof (Hmono (norm_ppf alpha mu0 s) _ _ Hv) as H.
        rewrite Hzero, std_cdf_0 in H. lra.
      * pose proof (Hmono (norm_ppf alpha mu0 s) _ _ Hv) as H.
        rewrite Hzero, std_cdf_0 in H. lra.
  - split; [intros E; discriminate E|].
    split; [intros _; split; reflexivity|].
    unfold Styrkefkn.power, norm_cdf. split.
    + rewrite Hzero, std_cdf_0. lra.
    + intros v. split; [intros E; discriminate E | intros _]. split; intros Hv.
      * pose proof (Hmono (norm_ppf (1 - alpha) mu0 s) _ _ Hv) as H.
        rewrite Hzero, std_cdf_0 in H. lra.
      * pose proof (Hmono (norm_ppf (1 - alpha) mu0 s) _ _ Hv) as H.
        rewrite Hzero, std_cdf_0 in H. lra.
Qed.

Lemma boundaries_around_null (mu0 s alpha : R) (riktning : string) :
  0 < s -> 0 < alpha < 1 ->
  riktning = "!=" \/ (alpha < 1 / 2 /\ (riktning = "<" \/ riktning = ">")) ->
  exists k1 k2 a b,
    Styrkefkn.boundaries mu0 s alpha riktning = Ok (k1, k2, (a, b)) /\
    Styrkefkn.below k1 mu0 = true /\ Styrkefkn.above k2 mu0 = true /\
    a < mu0 < b.
Proof.
  intros Hs Ha [-> | [Hhalf [-> | ->]]];
    unfold Styrkefkn.boundaries; simpl String.eqb; cbv iota;
    do 4 eexists; (split; [reflexivity|]);
    unfold Styrkefkn.below, Styrkefkn.above, Np.gt, norm_ppf.
  - assert (H1 : std_ppf (alpha / 2) < 0) by (apply std_ppf_lower_neg; lra).
    assert (H2 : 0 < std_ppf (1 - alpha / 2)) by (apply std_ppf_upper_pos; lra).
    assert (s * std_ppf (alpha / 2) < 0) by nra.
    assert (0 < s * std_ppf (1 - alpha / 2)) by nra.
    rewrite !lt_b_true by lra. repeat split; lra.
  - assert (H1 : std_ppf alpha < 0) by (apply std_ppf_lower_neg; lra).
    assert (s * std_ppf alpha < 0) by nra.
    rewrite !lt_b_true by lra. repeat split; lra.
  - assert (H2 : 0 < std_ppf (1 - alpha)) by (apply std_ppf_upper_pos; lra).
    assert (0 < s * std_ppf (1 - alpha)) by nra.
    rewrite !lt_b_true by lra. repeat split; lra.
Qed.

(** The critical boundaries and the evaluation range, for [sigma > 0],
    a positive [n], [0 < alpha < 1] and, for the one-sided tests,
    [alpha < 1/2]: the null value lies strictly between the boundaries
    [k1 < mu0 < k2] and strictly inside the range [a < mu0 < b]. *)
Theorem styrkefkn_null_inside_acceptance (mu0 sigma : R) (n : nat) (alpha : R)
  (riktning : string) :
  0 < sigma -> (1 <= n)%nat -> 0 < alpha < 1 ->
  riktning = "!=" \/ (alpha < 1 / 2 /\ (riktning = "<" \/ riktning = ">")) ->
  exists k1 k2 a b,
    Styrkefkn.boundaries mu0 (sigma / sqrt (INR n)) alpha riktning
    = Ok (k1, k2, (a, b)) /\
    Styrkefkn.below k1 mu0 = true /\ Styrkefkn.above k2 mu0 = true /\
    a < mu0 < b.
Proof.
  intros Hsig Hn Ha Hr. apply boundaries_around_null; try assumption.
  apply std_error_pos; assumption.
Qed.

End PowerShape.

Lemma styrkefkn_one_sided_monotone_witness :
  let s := 1 / sqrt (INR 4) in
  exists k1 k2 a b,
    @Styrkefkn.boundaries uniform_law 0 s (1/20) "<" = Ok (k1, k2, (a, b)) /\
    forall u v, u <= v ->
      ("<" = "<" -> @Styrkefkn.power uniform_law k1 k2 s v
                    <= @Styrkefkn.power uniform_law k1 k2 s u) /\
      ("<" = ">" -> @Styrkefkn.power uniform_law k1 k2 s u
                    <= @Styrkefkn.power uniform_law k1 k2 s v).
Proof.
  apply (@styrkefkn_one_sided_monotone uniform_law 0 1 4 (1/20) "<");
    [lra | lia | lra | left; reflexivity].
Defined.

Lemma styrkefkn_power_half_at_boundary_witness :
  let s := 1 / sqrt (INR 4) in
  exists k1 k2 a b k,
    @Styrkefkn.boundaries uniform_law 0 s (1/20) ">" = Ok (k1, k2, (a, b)) /\
    (">" = "<" -> k1 = Np.Fin k /\ k2 = Np.PInf) /\
    (">" = ">" -> k1 = Np.NInf /\ k2 = Np.Fin k) /\
    @Styrkefkn.power uniform_law k1 k2 s k = 1 / 2 /\
    forall v,
      (">" = "<" ->
         (v <= k -> 1 / 2 <= @Styrkefkn.power uniform_law k1 k2 s v) /\
         (k <= v -> @Styrkefkn.power uniform_law k1 k2 s v <= 1 / 2)) /\
      (">" = ">" ->
         (v <= k -> @Styrkefkn.power uniform_law k1 k2 s v <= 1 / 2) /\
         (k <= v -> 1 / 2 <= @Styrkefkn.power uniform_law k1 k2 s v)).
Proof.
  apply (@styrkefkn_power_half_at_boundary uniform_law 0 1 4 (1/20) ">");
    [lra | lia | lra | right; reflexivity].
Defined.

Lemma styrkefkn_null_inside_acceptance_witness :
  exists k1 k2 a b,
    @Styrkefkn.boundaries uniform_law 0 (1 / sqrt (INR 4)) (1/20) "!="
    = Ok (k1, k2, (a, b)) /\
    Styrkefkn.below k1 0 = true /\ Styrkefkn.above k2 0 = true /\
    a < 0 < b.
Proof.
  apply (@styrkefkn_null_inside_acceptance uniform_law 0 1 4 (1/20) "!=");
    [lra | lia | lra | left; reflexivity].
Defined.

(** ** The evaluation grid *)

Lemma linspace_length (a b : R) (num : nat) :
  List.length (Np.linspace a b num) = num.
Proof. unfold Np.linspace. rewrite length_map, length_seq. reflexivity. Qed.

Lemma linspace_nth (a b : R) (num i : nat) :
  (i < num)%nat ->
  nth i (Np.linspace a b num) 0 = a + INR i * ((b - a) / INR (num - 1)).
Proof.
  intros Hi. unfold Np.linspace.
  apply (nth_map_seq (fun k => a + INR k * ((b - a) / INR (num - 1))) 0 num i Hi).
Qed.

Lemma linspace_first (a b : R) (num : nat) :
  (1 <= num)%nat -> nth 0 (Np.linspace a b num) 0 = a.
Proof. intros H. rewrite linspace_nth by lia. simpl. ring. Qed.

Lemma linspace_last (a b : R) (num : nat) :
  (2 <= num)%nat -> nth (num - 1) (Np.linspace a b num) 0 = b.
Proof.
  intros H. rewrite linspace_nth by lia. field.
  apply not_0_INR. lia.
Qed.

Lemma linspace_increasing (a b : R) (num i j : nat) :
  a < b -> (i < j)%nat -> (j < num)%nat ->
  nth i (Np.linspace a b num) 0 < nth j (Np.linspace a b num) 0.
Proof.
  intros Hab Hij Hj. rewrite !linspace_nth by lia.
  assert (Hstep : 0 < (b - a) / INR (num - 1)).
  { apply Rdiv_lt_0_compat; [lra|]. apply lt_0_INR. lia. }
  assert (INR i < INR j) by (apply lt_INR; exact Hij).
  nra.
Qed.

Lemma linspace_bounds (a b : R) (num : nat) (v : R) :
  a < b -> (2 <= num)%nat -> In v (Np.linspace a b num) -> a <= v <= b.
Proof.
  intros Hab Hnum Hin. unfold Np.linspace in Hin. apply in_map_iff in Hin.
  destruct Hin as (i & <- & Hi). apply in_seq in Hi.
  assert (Hm : 0 < INR (num - 1)) by (apply lt_0_INR; lia).
  assert (H0 : 0 <= INR i) by apply pos_INR.
  assert (H1 : INR i <= INR (num - 1)) by (apply le_INR; lia).
  assert (Hstep : 0 < (b - a) / INR (num - 1)).
  { apply Rdiv_lt_0_compat; [lra | exact Hm]. }
  assert (Hb : b = a + INR (num - 1) * ((b - a) / INR (num - 1))).
  { field. lra. }
  split; [nra|]. rewrite Hb at 2. nra.
Qed.

Lemma fold_left_Rmax_le (l : list R) (a M : R) :
  a <= M -> (forall v, In v l -> v <= M) -> fold_left Rmax l a <= M.
Proof.
  revert a. induction l as [|h t IH]; intros a Ha Hl; simpl; [exact Ha|].
  apply IH.
  - apply Rmax_lub; [exact Ha | apply Hl; left; reflexivity].
  - intros v Hv. apply Hl. right. exact Hv.
Qed.

Lemma fold_left_Rmin_le_acc (l : list R) (a : R) : fold_left Rmin l a <= a.
Proof.
  revert a. induction l as [|h t IH]; intros a; simpl.
  - lra.
  - apply Rle_trans with (Rmin a h); [apply IH | apply Rmin_l].
Qed.

Lemma fold_left_Rmin_ge (l : list R) (a m : R) :
  m <= a -> (forall v, In v l -> m <= v) -> m <= fold_left Rmin l a.
Proof.
  revert a. induction l as [|h t IH]; intros a Ha Hl; simpl; [exact Ha|].
  apply IH.
  - apply Rmin_glb; [exact Ha | apply Hl; left; reflexivity].
  - intros v Hv. apply Hl. right. exact Hv.
Qed.

Lemma Rlist_max_is (l : list R) (M : R) :
  In M l -> (forall v, In v l -> v <= M) -> Rlist_max l = M.
Proof.
  intros Hin Hub. apply Rle_antisym; [|apply Rlist_max_ge, Hin].
  destruct l as [|h t]; [destruct Hin|]. simpl.
  apply fold_left_Rmax_le.
  - apply Hub. left. reflexivity.
  - intros v Hv. apply Hub. right. exact Hv.
Qed.

Lemma Rlist_min_is (l : list R) (m : R) :
  nth 0 l 0 = m -> l <> [] -> (forall v, In v l -> m <= v) -> Rlist_min l = m.
Proof.
  intros H0 Hne Hlb. destruct l as [|h t]; [contradiction|].
  simpl in H0. subst h. simpl. apply Rle_antisym.
  - apply fold_left_Rmin_le_acc.
  - apply fold_left_Rmin_ge; [lra|]. intros v Hv. apply Hlb. right. exact Hv.
Qed.

Lemma linspace_min_max (a b : R) (num : nat) :
  a < b -> (2 <= num)%nat ->
  Rlist_min (Np.linspace a b num) = a /\ Rlist_max (Np.linspace a b num) = b.
Proof.
  intros Hab Hnum. split.
  - apply Rlist_min_is.
    + apply linspace_first. lia.
    + intros E. apply (f_equal (@List.length R)) in E.
      rewrite linspace_length in E. simpl in E. lia.
    + intros v Hv. apply (linspace_bounds a b num v Hab Hnum Hv).
  - apply Rlist_max_is.
    + pose proof (linspace_last a b num Hnum) as Hl.
      rewrite <- Hl at 1. apply nth_In.
      rewrite linspace_length. lia.
    + intros v Hv. apply (linspace_bounds a b num v Hab Hnum Hv).
Qed.

Section PowerGrid.
Context {N : StdNormal}.

(** Under the conditions of the previous theorem the curve is drawn on
    1000 strictly increasing points with one value of [h] each; the
    x-limits are the first and the last point, which are the two ends
    of the range of the direction, and [mu0] lies strictly between
    them. *)
Theorem styrkefkn_grid (mu0 sigma : R) (n : nat) (alpha : R)
  (riktning : string) (mu_sant : option R) (plt : pyplot) :
  0 < sigma -> (1 <= n)%nat -> 0 < alpha < 1 ->
  riktning = "!=" \/ (alpha < 1 / 2 /\ (riktning = "<" \/ riktning = ">")) ->
  exists k1 k2 a b fig,
    Styrkefkn.boundaries mu0 (sigma / sqrt (INR n)) alpha riktning
    = Ok (k1, k2, (a, b)) /\
    Styrkefkn.styrkefkn mu0 sigma n alpha riktning mu_sant plt
    = (Ok fig, plt_subplots plt) /\
    let P := Styrkefkn.fig_power fig in
    List.length (Styrkefkn.pw_x P) = 1000%nat /\
    List.length (Styrkefkn.pw_h P) = 1000%nat /\
    (forall i j, (i < j)%nat -> (j < 1000)%nat ->
       nth i (Styrkefkn.pw_x P) 0 < nth j (Styrkefkn.pw_x P) 0) /\
    nth 0 (Styrkefkn.pw_x P) 0 = a /\ nth 999 (Styrkefkn.pw_x P) 0 = b /\
    Styrkefkn.pw_xlim P = (a, b) /\
    a < mu0 < b.
Proof.
  intros Hsig Hn Ha Hr.
  pose proof (std_error_pos sigma n Hsig Hn) as Hs.
  destruct (boundaries_around_null mu0 _ alpha riktning Hs Ha Hr)
    as (k1 & k2 & a & b & Hb & _ & _ & Hab).
  assert (Hlt : a < b) by lra.
  destruct (linspace_min_max a b 1000 Hlt) as [Hmin Hmax]; [lia|].
  exists k1, k2, a, b. unfold Styrkefkn.styrkefkn. rewrite Hb.
  assert (Hgoal : forall P : Styrkefkn.power_panel,
            Styrkefkn.pw_x P = Np.linspace a b 1000 ->
            List.length (Styrkefkn.pw_h P) = 1000%nat ->
            Styrkefkn.pw_xlim P = (a, b) ->
            List.length (Styrkefkn.pw_x P) = 1000%nat /\
            List.length (Styrkefkn.pw_h P) = 1000%nat /\
            (forall i j, (i < j)%nat -> (j < 1000)%nat ->
               nth i (Styrkefkn.pw_x P) 0 < nth j (Styrkefkn.pw_x P) 0) /\
            nth 0 (Styrkefkn.pw_x P) 0 = a /\ nth 999 (Styrkefkn.pw_x P) 0 = b /\
            Styrkefkn.pw_xlim P = (a, b) /\
            a < mu0 < b).
  { intros P Hx Hh Hlim. rewrite Hx.
    split; [apply linspace_length|]. split; [exact Hh|].
    split; [intros i j Hij Hj; apply linspace_increasing; assumption|].
    split; [apply linspace_first; lia|].
    split; [apply (linspace_last a b 1000); lia|].
    split; [exact Hlim | exact Hab]. }
  destruct mu_sant as [m|]; eexists; (split; [reflexivity|]);
    (split; [reflexivity|]);
    cbv zeta; cbn [Styrkefkn.fig_power]; apply Hgoal;
    cbn [Styrkefkn.pw_x Styrkefkn.pw_h Styrkefkn.pw_xlim];
    try reflexivity;
    try (rewrite length_map; apply linspace_length);
    rewrite Hmin, Hmax; reflexivity.
Qed.

End PowerGrid.

Lemma styrkefkn_grid_witness :
  exists k1 k2 a b fig,
    @Styrkefkn.boundaries uniform_law 0 (1 / sqrt (INR 4)) (1/20) "!="
    = Ok (k1, k2, (a, b)) /\
    @Styrkefkn.styrkefkn uniform_law 0 1 4 (1/20) "!=" None 0%nat
    = (Ok fig, plt_subplots 0%nat) /\
    let P := Styrkefkn.fig_power fig in
    List.length (Styrkefkn.pw_x P) = 1000%nat /\
    List.length (Styrkefkn.pw_h P) = 1000%nat /\
    (forall i j, (i < j)%nat -> (j < 1000)%nat ->
       nth i (Styrkefkn.pw_x P) 0 < nth j (Styrkefkn.pw_x P) 0) /\
    nth 0 (Styrkefkn.pw_x P) 0 = a /\ nth 999 (Styrkefkn.pw_x P) 0 = b /\
    Styrkefkn.pw_xlim P = (a, b) /\
    a < 0 < b.
Proof.
  apply (@styrkefkn_grid uniform_law 0 1 4 (1/20) "!=" None 0%nat);
    [lra | lia | lra | left; reflexivity].
Defined.

(** ** The curve as a probability, and its symmetry *)

Section PowerRange.
Context {N : StdNormal}.
Hypothesis std_cdf_range : forall z, 0 <= std_cdf z <= 1.

Lemma power_in_range (mu0 s alpha : R) (riktning : string) :
  0 < s -> 0 < alpha < 1 ->
  riktning = "<" \/ riktning = ">" \/ riktning = "!=" ->
  exists k1 k2 a b,
    Styrkefkn.boundaries mu0 s alpha riktning = Ok (k1, k2, (a, b)) /\
    forall v, 0 <= Styrkefkn.power k1 k2 s v <= 1.
Proof.
  intros Hs Ha [-> | [-> | ->]]; unfold Styrkefkn.boundaries; simpl String.eqb;
    cbv iota; do 4 eexists; (split; [reflexivity|]); intros v;
    unfold Styrkefkn.power, norm_cdf.
  - pose proof (std_cdf_range ((norm_ppf alpha mu0 s - v) / s)). lra.
  - pose proof (std_cdf_range ((norm_ppf (1 - alpha) mu0 s - v) / s)). lra.
  - pose proof (std_cdf_range ((norm_ppf (alpha / 2) mu0 s - v) / s)).
    pose proof (std_cdf_range ((norm_ppf (1 - alpha / 2) mu0 s - v) / s)).
    assert (Hk : norm_ppf (alpha / 2) mu0 s <= norm_ppf (1 - alpha / 2) mu0 s).
    { unfold norm_ppf.
      assert (std_ppf (alpha / 2) < std_ppf (1 - alpha / 2))
        by (apply std_ppf_ordered; lra).
      nra. }
    assert (Hz : (norm_ppf (alpha / 2) mu0 s - v) / s
                 <= (norm_ppf (1 - alpha / 2) mu0 s - v) / s).
    { unfold Rdiv. apply Rmult_le_compat_r; [|lra].
      left. apply Rinv_0_lt_compat, Hs. }
    pose proof (std_cdf_mono _ _ Hz). lra.
Qed.

(** When the distribution function takes its values in [0,1], every
    value of the plotted curve [h], and the power [f] at [mu_sant], is a
    probability, for each accepted direction, [sigma > 0], a positive
    [n] and [0 < alpha < 1]. *)
Theorem styrkefkn_power_is_probability (mu0 sigma : R) (n : nat) (alpha : R)
  (riktning : string) (mu_sant : option R) (plt : pyplot) :
  0 < sigma -> (1 <= n)%nat -> 0 < alpha < 1 ->
  riktning = "<" \/ riktning = ">" \/ riktning = "!=" ->
  exists fig,
    Styrkefkn.styrkefkn mu0 sigma n alpha riktning mu_sant plt
    = (Ok fig, plt_subplots plt) /\
    Forall (fun v => 0 <= v <= 1) (Styrkefkn.pw_h (Styrkefkn.fig_power fig)) /\
    forall f, Styrkefkn.pw_f (Styrkefkn.fig_power fig) = Some f -> 0 <= f <= 1.
Proof.
  intros Hsig Hn Ha Hr.
  pose proof (std_error_pos sigma n Hsig Hn) as Hs.
  destruct (power_in_range mu0 _ alpha riktning Hs Ha Hr)
    as (k1 & k2 & a & b & Hb & Hrange).
  unfold Styrkefkn.styrkefkn. rewrite Hb.
  destruct mu_sant as [m|]; eexists; (split; [reflexivity|]);
    cbn [Styrkefkn.fig_power Styrkefkn.pw_h Styrkefkn.pw_f option_map]; split;
    try (rewrite Forall_forall; intros v Hv; apply in_map_iff in Hv;
         destruct Hv as (u & <- & _); apply Hrange).
  - intros f Hf. injection Hf as <-. apply Hrange.
  - intros f Hf. discriminate Hf.
Qed.

End PowerRange.

Section PowerSymmetry.
Context {N : StdNormal}.
Hypothesis std_cdf_symmetric : forall z, std_cdf (- z) = 1 - std_cdf z.
Hypothesis std_ppf_symmetric : forall q, 0 < q < 1 -> std_ppf (1 - q) = - std_ppf q.

(** For a law symmetric about 0, as the normal law is, the two-sided
    power curve is symmetric about the null value:
    [h(mu0 + d) = h(mu0 - d)]. *)
Theorem styrkefkn_two_sided_symmetric (mu0 sigma : R) (n : nat) (alpha d : R) :
  0 < sigma -> (1 <= n)%nat -> 0 < alpha < 1 ->
  let s := sigma / sqrt (INR n) in
  exists k1 k2 a b,
    Styrkefkn.boundaries mu0 s alpha "!=" = Ok (k1, k2, (a, b)) /\
    Styrkefkn.power k1 k2 s (mu0 + d) = Styrkefkn.power k1 k2 s (mu0 - d).
Proof.
  intros Hsig Hn Ha s.
  pose proof (std_error_pos sigma n Hsig Hn) as Hs. fold s in Hs.
  unfold Styrkefkn.boundaries. simpl String.eqb. cbv iota.
  do 4 eexists. split; [reflexivity|].
  unfold Styrkefkn.power, norm_cdf, norm_ppf.
  rewrite std_ppf_symmetric by lra.
  set (z := std_ppf (alpha / 2)).
  replace ((mu0 + s * - z - (mu0 + d)) / s) with (- (z + d / s)) by (field; lra).
  replace ((mu0 + s * z - (mu0 + d)) / s) with (z - d / s) by (field; lra).
  replace ((mu0 + s * - z - (mu0 - d)) / s) with (- (z - d / s)) by (field; lra).
  replace ((mu0 + s * z - (mu0 - d)) / s) with (z + d / s) by (field; lra).
  rewrite !std_cdf_symmetric. ring.
Qed.

End PowerSymmetry.

Lemma unif_cdf_range (z : R) : 0 <= unif_cdf z <= 1.
Proof.
  unfold unif_cdf. destruct (Rle_dec z (-1)); [lra|].
  destruct (Rle_dec 1 z); lra.
Qed.

Lemma unif_cdf_symmetric (z : R) : unif_cdf (- z) = 1 - unif_cdf z.
Proof.
  unfold unif_cdf.
  destruct (Rle_dec (- z) (-1)), (Rle_dec z (-1)), (Rle_dec 1 (- z)), (Rle_dec 1 z);
    lra.
Qed.

Lemma styrkefkn_power_is_probability_witness :
  exists fig,
    @Styrkefkn.styrkefkn uniform_law 0 1 4 (1/20) "<" (Some 1) 0%nat
    = (Ok fig, plt_subplots 0%nat) /\
    Forall (fun v => 0 <= v <= 1) (Styrkefkn.pw_h (Styrkefkn.fig_power fig)) /\
    forall f, Styrkefkn.pw_f (Styrkefkn.fig_power fig) = Some f -> 0 <= f <= 1.
Proof.
  apply (@styrkefkn_power_is_probability uniform_law unif_cdf_range
           0 1 4 (1/20) "<" (Some 1) 0%nat);
    [lra | lia | lra | left; reflexivity].
Defined.

Lemma styrkefkn_two_sided_symmetric_witness :
  let s := 1 / sqrt (INR 4) in
  exists k1 k2 a b,
    @Styrkefkn.boundaries uniform_law 0 s (1/20) "!=" = Ok (k1, k2, (a, b)) /\
    @Styrkefkn.power uniform_law k1 k2 s (0 + 1/3)
    = @Styrkefkn.power uniform_law k1 k2 s (0 - 1/3).
Proof.
  apply (@styrkefkn_two_sided_symmetric uniform_law unif_cdf_symmetric
           (fun q _ => ltac:(simpl; unfold unif_ppf; ring)) 0 1 4 (1/20) (1/3));
    [lra | lia | lra].
Defined.

(** ** The second panel *)

Lemma filter_disjoint_lengths {A : Type} (p1 p2 p3 : A -> bool) (l : list A) :
  (forall v, In v l ->
     p1 v && p2 v = false /\ p1 v && p3 v = false /\ p2 v && p3 v = false) ->
  (List.length (filter p1 l) + List.length (filter p2 l)
   + List.length (filter p3 l) <= List.length l)%nat.
Proof.
  induction l as [|h t IH]; intros H; simpl; [lia|].
  assert (Ht : (List.length (filter p1 t) + List.length (filter p2 t)
                + List.length (filter p3 t) <= List.length t)%nat).
  { apply IH. intros v Hv. apply H. right. exact Hv. }
  destruct (H h (or_introl eq_refl)) as (H12 & H13 & H23).
  destruct (p1 h), (p2 h), (p3 h); simpl in *; try discriminate; lia.
Qed.

Lemma below_above_exclusive (k : Np.float) (v : R) :
  Styrkefkn.below k v && Styrkefkn.above k v = false.
Proof.
  unfold Styrkefkn.below, Styrkefkn.above. destruct k as [|r| |]; simpl;
    try reflexivity.
  unfold Np.lt_b. destruct (Rlt_dec r v), (Rlt_dec v r); simpl; try reflexivity.
  lra.
Qed.

Lemma outer_regions_exclusive (k1 k2 : Np.float) (m v : R) :
  Styrkefkn.below k1 m = true -> Styrkefkn.above k2 m = true ->
  Styrkefkn.above k1 v && Styrkefkn.below k2 v = false.
Proof.
  unfold Styrkefkn.below, Styrkefkn.above.
  destruct k1 as [|r1| |], k2 as [|r2| |]; simpl; intros H1 H2;
    try reflexivity; try discriminate;
    try (rewrite andb_false_r; reflexivity).
  apply lt_b_iff in H1. apply lt_b_iff in H2.
  unfold Np.lt_b. destruct (Rlt_dec v r1), (Rlt_dec r2 v); simpl; try reflexivity.
  lra.
Qed.

Section DensityPanel.
Context {N : StdNormal}.

(** The second panel exists exactly when [mu_sant] is given.  When it
    is, under the conditions of the grid theorem, the two densities are
    drawn on all 1000 points, each shaded part is the density over the
    grid points its mask selects ([k1 < x < k2], [x < k1], [x > k2]),
    and the three masks never overlap: no point satisfies two of them,
    so together the shaded parts cover at most the 1000 points. *)
Theorem styrkefkn_density_panel (mu0 sigma : R) (n : nat) (alpha : R)
  (riktning : string) (plt : pyplot) :
  0 < sigma -> (1 <= n)%nat -> 0 < alpha < 1 ->
  riktning = "!=" \/ (alpha < 1 / 2 /\ (riktning = "<" \/ riktning = ">")) ->
  let s := sigma / sqrt (INR n) in
  (exists fig,
     Styrkefkn.styrkefkn mu0 sigma n alpha riktning None plt
     = (Ok fig, plt_subplots plt) /\
     Styrkefkn.fig_density fig = None /\
     Styrkefkn.pw_f (Styrkefkn.fig_power fig) = None) /\
  (forall m, exists k1 k2 a b fig D,
     Styrkefkn.boundaries mu0 s alpha riktning = Ok (k1, k2, (a, b)) /\
     Styrkefkn.styrkefkn mu0 sigma n alpha riktning (Some m) plt
     = (Ok fig, plt_subplots plt) /\
     Styrkefkn.fig_density fig = Some D /\
     let x := Styrkefkn.pw_x (Styrkefkn.fig_power fig) in
     let keep := fun v => Styrkefkn.below k1 v && Styrkefkn.above k2 v in
     let low := fun v => Styrkefkn.above k1 v in
     let high := fun v => Styrkefkn.below k2 v in
     Styrkefkn.dn_y D = map (fun v => norm_pdf v mu0 s) x /\
     Styrkefkn.dn_y_H1 D = map (fun v => norm_pdf v m s) x /\
     List.length x = 1000%nat /\
     Styrkefkn.dn_keep_H0 D = map (fun v => norm_pdf v m s) (filter keep x) /\
     Styrkefkn.dn_reject_low D = map (fun v => norm_pdf v mu0 s) (filter low x) /\
     Styrkefkn.dn_reject_high D = map (fun v => norm_pdf v mu0 s) (filter high x) /\
     (forall v, keep v && low v = false /\ keep v && high v = false /\
                low v && high v = false) /\
     (List.length (Styrkefkn.dn_keep_H0 D) + List.length (Styrkefkn.dn_reject_low D)
      + List.length (Styrkefkn.dn_reject_high D) <= 1000)%nat).
Proof.
  intros Hsig Hn Ha Hr s.
  pose proof (std_error_pos sigma n Hsig Hn) as Hs. fold s in Hs.
  destruct (boundaries_around_null mu0 s alpha riktning Hs Ha Hr)
    as (k1 & k2 & a & b & Hb & Hk1 & Hk2 & _).
  assert (Hexcl : forall v,
            (Styrkefkn.below k1 v && Styrkefkn.above k2 v) && Styrkefkn.above k1 v = false /\
            (Styrkefkn.below k1 v && Styrkefkn.above k2 v) && Styrkefkn.below k2 v = false /\
            Styrkefkn.above k1 v && Styrkefkn.below k2 v = false).
  { intros v. split; [|split].
    - rewrite <- andb_assoc, (andb_comm (Styrkefkn.above k2 v)), andb_assoc.
      rewrite below_above_exclusive. reflexivity.
    - rewrite <- andb_assoc, (andb_comm (Styrkefkn.above k2 v) (Styrkefkn.below k2 v)).
      rewrite below_above_exclusive. apply andb_false_r.
    - apply (outer_regions_exclusive k1 k2 mu0 v Hk1 Hk2). }
  unfold Styrkefkn.styrkefkn. fold s. rewrite Hb. split.
  - eexists. split; [reflexivity|]. split; reflexivity.
  - intros m. exists k1, k2, a, b. do 2 eexists.
    split; [reflexivity|]. split; [reflexivity|].
    cbn [Styrkefkn.fig_density]. split; [reflexivity|].
    cbv zeta.
    cbn [Styrkefkn.fig_power Styrkefkn.pw_x Styrkefkn.dn_y Styrkefkn.dn_y_H1
         Styrkefkn.dn_keep_H0 Styrkefkn.dn_reject_low Styrkefkn.dn_reject_high].
    split; [reflexivity|]. split; [reflexivity|].
    split; [apply linspace_length|].
    split; [reflexivity|]. split; [reflexivity|]. split; [reflexivity|].
    split; [exact Hexcl|].
    rewrite !length_map.
    rewrite <- (linspace_length a b 1000) at 4.
    apply filter_disjoint_lengths. intros v _. apply Hexcl.
Qed.

End DensityPanel.

Lemma styrkefkn_density_panel_witness :
  let s := 1 / sqrt (INR 4) in
  (exists fig,
     @Styrkefkn.styrkefkn uniform_law 0 1 4 (1/20) "!=" None 0%nat
     = (Ok fig, plt_subplots 0%nat) /\
     Styrkefkn.fig_density fig = None /\
     Styrkefkn.pw_f (Styrkefkn.fig_power fig) = None) /\
  (forall m, exists k1 k2 a b fig D,
     @Styrkefkn.boundaries uniform_law 0 s (1/20) "!=" = Ok (k1, k2, (a, b)) /\
     @Styrkefkn.styrkefkn uniform_law 0 1 4 (1/20) "!=" (Some m) 0%nat
     = (Ok fig, plt_subplots 0%nat) /\
     Styrkefkn.fig_density fig = Some D /\
     let x := Styrkefkn.pw_x (Styrkefkn.fig_power fig) in
     let keep := fun v => Styrkefkn.below k1 v && Styrkefkn.above k2 v in
     let low := fun v => Styrkefkn.above k1 v in
     let high := fun v => Styrkefkn.below k2 v in
     Styrkefkn.dn_y D = map (fun v => @norm_pdf uniform_law v 0 s) x /\
     Styrkefkn.dn_y_H1 D = map (fun v => @norm_pdf uniform_law v m s) x /\
     List.length x = 1000%nat /\
     Styrkefkn.dn_keep_H0 D = map (fun v => @norm_pdf uniform_law v m s) (filter keep x) /\
     Styrkefkn.dn_reject_low D
     = map (fun v => @norm_pdf uniform_law v 0 s) (filter low x) /\
     Styrkefkn.dn_reject_high D
     = map (fun v => @norm_pdf uniform_law v 0 s) (filter high x) /\
     (forall v, keep v && low v = false /\ keep v && high v = false /\
                low v && high v = false) /\
     (List.length (Styrkefkn.dn_keep_H0 D) + List.length (Styrkefkn.dn_reject_low D)
      + List.length (Styrkefkn.dn_reject_high D) <= 1000)%nat).
Proof.
  apply (@styrkefkn_density_panel uniform_law 0 1 4 (1/20) "!=" 0%nat);
    [lra | lia | lra | left; reflexivity].
Defined.
